(** * deno_tui: the incremental rendering core and the component registry

    A shallow embedding of
    - [TextObject] ([updateMovement], [update], [render], [rerender]),
    - [BoxObject] ([rerender]),
    - [createComponent] / [removeComponent], [getInstance] and
      [getCurrentStyler],
    - the key handler of [createTextbox],
    together with the properties of the design document that talk about them,
    and further properties of the same code.

    Conventions.  JavaScript numbers that hold rows, columns, widths, ids and
    priorities are integers: they are [Z] here.  A JavaScript [Set<number>] is
    a [gset Z]; a sparse array indexed by row (or by column) is a [gmap Z _],
    which also accounts for the negative indices that JavaScript stores as
    ordinary properties.  The code units of a string are [ascii] characters.
    Objects that are shared and mutated through references live in a store
    keyed by their reference.  A [TypeError] is [None] (in the key handler,
    which changes its state step by step, it is an outcome that carries the
    state reached); the recursion of [removeComponent] over the children
    takes a bound on its depth. *)

From Stdlib Require Import ZArith String Ascii Lia.
From stdpp Require Import base option list sorting gmap sets strings pretty.

Open Scope Z_scope.

(** ** utils/numbers.ts *)

Module Numbers.

Record Rectangle := mkRectangle {
  column : Z;
  row : Z;
  width : Z;
  height : Z
}.

(** Modelled from the spec: [rectangleEquals] lives in utils/numbers.ts, which
    is not among the sources; the design document compares rectangles as
    values ("rectangle != previous_rectangle"). *)
Definition rectangleEquals (a b : Rectangle) : bool :=
  (column a =? column b) && (row a =? row b) &&
  (width a =? width b) && (height a =? height b).

(** Modelled from the spec: [fitsInRectangle(column, row, rectangle)] of
    utils/numbers.ts, membership of a cell in a rectangle. *)
Definition fitsInRectangle (c r : Z) (rect : Rectangle) : bool :=
  (column rect <=? c) && (c <? column rect + width rect) &&
  (row rect <=? r) && (r <? row rect + height rect).

(** Modelled from the spec: [rectangleIntersection(a, b, true)] of
    utils/numbers.ts, "the geometric intersection of old and new rectangles";
    [None] stands for the [false] returned when they do not overlap. *)
Definition rectangleIntersection (a b : Rectangle) : option Rectangle :=
  let c := Z.max (column a) (column b) in
  let r := Z.max (row a) (row b) in
  let w := Z.min (column a + width a) (column b + width b) - c in
  let h := Z.min (row a + height a) (row b + height b) - r in
  if (0 <? w) && (0 <? h) then Some (mkRectangle c r w h) else None.

(** [intersection && fitsInRectangle(c, r, intersection)] *)
Definition fitsInIntersection (c r : Z) (i : option Rectangle) : bool :=
  match i with
  | Some rect => fitsInRectangle c r rect
  | None => false
  end.

End Numbers.

Export Numbers.

(** ** canvas/draw_object.ts: the state every drawable object carries *)

Module Draw.

(** What [style] is applied to: a string, or [undefined] when a text is
    indexed past its end. *)
Inductive JsText :=
  | Undefined
  | Str (s : string).

(** A styled cell of the frame buffer. *)
Definition Cell := string.

Definition ObjId := nat.

Record View := mkView { view_rectangle : Rectangle }.

Record DrawObject := mkDrawObject {
  rectangle : Rectangle;
  previousRectangle : option Rectangle;
  (** [Set<DrawObject>], by reference *)
  objectsUnder : list ObjId;
  rerenderCells : gmap Z (gset Z);
  omitCells : gmap Z (gset Z);
  rendered : bool;
  style : JsText → Cell;
  view : option View
}.

Definition set_rectangle (rect : Rectangle) (o : DrawObject) : DrawObject :=
  mkDrawObject rect (previousRectangle o) (objectsUnder o) (rerenderCells o)
    (omitCells o) (rendered o) (style o) (view o).

Definition set_previousRectangle (p : option Rectangle) (o : DrawObject) : DrawObject :=
  mkDrawObject (rectangle o) p (objectsUnder o) (rerenderCells o)
    (omitCells o) (rendered o) (style o) (view o).

Definition set_rerenderCells (rc : gmap Z (gset Z)) (o : DrawObject) : DrawObject :=
  mkDrawObject (rectangle o) (previousRectangle o) (objectsUnder o) rc
    (omitCells o) (rendered o) (style o) (view o).

Definition set_omitCells (oc : gmap Z (gset Z)) (o : DrawObject) : DrawObject :=
  mkDrawObject (rectangle o) (previousRectangle o) (objectsUnder o)
    (rerenderCells o) oc (rendered o) (style o) (view o).

(** The columns a per-row table of sets holds for a row ([∅] for a hole). *)
Definition columnsOf (cells : gmap Z (gset Z)) (r : Z) : gset Z :=
  default ∅ (cells !! r).

(** [(cells[r] ??= new Set()).add(c)] *)
Definition addCell (r c : Z) (cells : gmap Z (gset Z)) : gmap Z (gset Z) :=
  <[r := {[c]} ∪ columnsOf cells r]> cells.

(** [cells[r]?.clear()] *)
Definition clearRow (r : Z) (cells : gmap Z (gset Z)) : gmap Z (gset Z) :=
  alter (λ _, ∅) r cells.

(** Modelled from the spec: [DrawObject.queueRerender(row, column)] is
    declared in draw_object.ts, which is not among the sources.  The design
    document gives it as "marks a cell dirty ...; idempotent": the column
    joins the object's own set for that row. *)
Definition queueRerender (r c : Z) (o : DrawObject) : DrawObject :=
  set_rerenderCells (addCell r c (rerenderCells o)) o.

Record TextObject := mkTextObject {
  text_super : DrawObject;
  value : string;
  (** [undefined] until the first [update()] *)
  previousValue : option string
}.

Record BoxObject := mkBoxObject {
  box_super : DrawObject;
  filler : string
}.

Inductive AnyObject :=
  | Text (t : TextObject)
  | Box (b : BoxObject).

Definition super (o : AnyObject) : DrawObject :=
  match o with
  | Text t => text_super t
  | Box b => box_super b
  end.

Definition on_super (f : DrawObject → DrawObject) (o : AnyObject) : AnyObject :=
  match o with
  | Text t => Text (mkTextObject (f (text_super t)) (value t) (previousValue t))
  | Box b => Box (mkBoxObject (f (box_super b)) (filler b))
  end.

(** The objects of a canvas, by reference: [objectsUnder] points into it, and
    an object may be reached both as [this] and through another object's
    [objectsUnder]. *)
Abbreviation Heap := (gmap ObjId AnyObject).

(** [object.queueRerender(r, c)] on the object a reference denotes *)
Definition heap_queueRerender (id : ObjId) (r c : Z) (h : Heap) : Heap :=
  alter (on_super (queueRerender r c)) id h.

(** [for (const objectUnder of objectsUnder) objectUnder.queueRerender(r, c)] *)
Definition queueUnder (unders : list ObjId) (r c : Z) (h : Heap) : Heap :=
  foldl (λ h' u, heap_queueRerender u r c h') h unders.

(** [c] is in the rerender set the object [id] holds for row [r]. *)
Definition queued (h : Heap) (id : ObjId) (r c : Z) : Prop :=
  ∃ o, h !! id = Some o ∧ c ∈ columnsOf (rerenderCells (super o)) r.

(** Queueing only ever adds: every object stays, and so does every queued
    cell. *)
Definition grows (h h' : Heap) : Prop :=
  (∀ id, is_Some (h !! id) → is_Some (h' !! id)) ∧
  (∀ id r c, queued h id r c → queued h' id r c).

(** *** TextObject.updateMovement *)

Definition movedAway (unders : list ObjId) (i : option Rectangle) (r : Z)
    (h : Heap) (c : Z) : Heap :=
  if fitsInIntersection c r i then h else queueUnder unders r c h.

Definition movedTo (self : ObjId) (unders : list ObjId) (i : option Rectangle)
    (r : Z) (h : Heap) (c : Z) : Heap :=
  let h' := heap_queueRerender self r c h in
  if fitsInIntersection c r i then h' else queueUnder unders r c h'.

Definition updateMovement (self : ObjId) (h : Heap) : Heap :=
  match h !! self with
  | Some (Text t) =>
    let rect := rectangle (text_super t) in
    let unders := objectsUnder (text_super t) in
    match previousRectangle (text_super t) with
    | Some prev =>
      if negb (rectangleEquals rect prev) then
        let intersection := rectangleIntersection rect prev in
        let h1 :=
          foldl (movedAway unders intersection (row prev)) h
            (seqZ (column prev) (width prev)) in
        foldl (movedTo self unders intersection (row rect)) h1
          (seqZ (column rect) (width rect))
      else h
    | None => h
    end
  | _ => h
  end.

(** *** DrawObject.update, as [super.update()] *)

(** Modelled from the spec: [DrawObject.update] is declared in draw_object.ts,
    which is not among the sources.  The design document orders it as
    movement handling first, "then set previous_rectangle = rectangle"; the
    previous rectangle is a copy, not an alias. *)
Definition DrawObject_update (self : ObjId) (h : Heap) : Heap :=
  alter (on_super (λ o, set_previousRectangle (Some (rectangle o)) o)) self
    (updateMovement self h).

(** *** TextObject.update *)

(** [s[i]]: a one-unit string, or [undefined] past the end *)
Definition charAt (s : string) (i : nat) : JsText :=
  match String.get i s with
  | Some a => Str (String a EmptyString)
  | None => Undefined
  end.

Global Instance JsText_eq_dec : EqDecision JsText.
Proof. solve_decision. Defined.

(** One turn of the loop over [i] in [update]. *)
Definition queueChanged (self : ObjId) (rect : Rectangle) (v pv : string)
    (h : Heap) (i : nat) : Heap :=
  if decide (charAt v i = charAt pv i) then h
  else heap_queueRerender self (row rect) (column rect + Z.of_nat i) h.

Definition finishUpdate (textWidth : string → Z) (o : AnyObject) : AnyObject :=
  match o with
  | Text t =>
    let rect := rectangle (text_super t) in
    Text (mkTextObject
            (set_rectangle
               (mkRectangle (column rect) (row rect) (textWidth (value t)) 1)
               (text_super t))
            (value t) (Some (value t)))
  | Box b => Box b
  end.

(** [superUpdate] is [super.update()] and [textWidth] is utils/strings.ts's,
    neither of them among the sources.  [None] is the [TypeError] of indexing
    an [undefined] previous value, or a [self] that is no text. *)
Definition update (superUpdate : ObjId → Heap → Heap) (textWidth : string → Z)
    (self : ObjId) (h : Heap) : option Heap :=
  let h0 := superUpdate self h in
  match h0 !! self with
  | Some (Text t) =>
    if decide (Some (value t) = previousValue t) then Some h0
    else
      let rect := rectangle (text_super t) in
      h1 ← (if rendered (text_super t) then
              match previousValue t with
              | Some pv =>
                Some (foldl (queueChanged self rect (value t) pv) h0
                        (seq 0 (String.length (value t))))
              | None =>
                if Nat.eqb (String.length (value t)) 0 then Some h0 else None
              end
            else Some h0);
      Some (alter (finishUpdate textWidth) self h1)
  | _ => None
  end.

(** *** canvas.ts: what the objects paint into *)

Record CanvasSize := mkCanvasSize { columns : Z; rows : Z }.

Record Canvas := mkCanvas {
  canvasSize : CanvasSize;
  (** [frameBuffer[row][column]] *)
  frameBuffer : gmap Z (gmap Z Cell);
  (** [rerenderQueue[row]] *)
  rerenderQueue : gmap Z (gset Z)
}.

(** The cell the frame buffer shows at a position, if any. *)
Definition cellAt (cv : Canvas) (r c : Z) : option Cell :=
  frameBuffer cv !! r ≫= λ rowBuffer, rowBuffer !! c.

(** [c] is queued for output on row [r]. *)
Definition inQueue (cv : Canvas) (r c : Z) : Prop :=
  c ∈ columnsOf (rerenderQueue cv) r.

(** [cells[r] ??= new Set()] *)
Definition ensureRow (r : Z) (cells : gmap Z (gset Z)) : gmap Z (gset Z) :=
  match cells !! r with
  | Some _ => cells
  | None => <[r := ∅]> cells
  end.

(** [frameBuffer[r] ??= []] *)
Definition ensureBuffer (r : Z) (fb : gmap Z (gmap Z Cell)) : gmap Z (gmap Z Cell) :=
  match fb !! r with
  | Some _ => fb
  | None => <[r := ∅]> fb
  end.

Definition withQueueRow (r : Z) (cv : Canvas) : Canvas :=
  mkCanvas (canvasSize cv) (frameBuffer cv) (ensureRow r (rerenderQueue cv)).

(** [rowBuffer[c] = cell; rerenderQueueRow.add(c)] where [rowBuffer] is
    [frameBuffer[r]]: a [TypeError] ([None]) when that row does not exist. *)
Definition paint (r c : Z) (cell : Cell) (cv : Canvas) : option Canvas :=
  rowBuffer ← frameBuffer cv !! r;
  Some (mkCanvas (canvasSize cv)
          (<[r := <[c := cell]> rowBuffer]> (frameBuffer cv))
          (addCell r c (rerenderQueue cv))).

(** [omitColumns?.has(c)] *)
Definition omitHas (omitColumns : option (gset Z)) (c : Z) : bool :=
  match omitColumns with
  | Some s => bool_decide (c ∈ s)
  | None => false
  end.

(** [omitColumns?.size === width] *)
Definition sizeIs (omitColumns : option (gset Z)) (w : Z) : bool :=
  match omitColumns with
  | Some s => Z.of_nat (size s) =? w
  | None => false
  end.

(** The row of a text, the column of its [i]-th character, and the columns
    of its row that are in its omit set. *)
Definition textRow (t : TextObject) : Z := row (rectangle (text_super t)).

Definition textColumn (t : TextObject) (i : nat) : Z :=
  column (rectangle (text_super t)) + Z.of_nat i.

Definition omitted (t : TextObject) : gset Z :=
  columnsOf (omitCells (text_super t)) (textRow t).

(** *** TextObject.render *)

Definition clearTextOmit (r : Z) (t : TextObject) : TextObject :=
  mkTextObject
    (set_omitCells (clearRow r (omitCells (text_super t))) (text_super t))
    (value t) (previousValue t).

Definition clearTextRerender (r : Z) (t : TextObject) : TextObject :=
  mkTextObject
    (set_rerenderCells (clearRow r (rerenderCells (text_super t))) (text_super t))
    (value t) (previousValue t).

(** The loop over [c] in [render], with its [continue]s and its [break]. *)
Fixpoint renderLoop (t : TextObject) (omitColumns : option (gset Z))
    (cs : list nat) (cv : Canvas) : option Canvas :=
  match cs with
  | [] => Some cv
  | c :: cs' =>
    let rect := rectangle (text_super t) in
    let col := column rect + Z.of_nat c in
    if col <? 0 then renderLoop t omitColumns cs' cv
    else if columns (canvasSize cv) <=? col then Some cv
    else if omitHas omitColumns col then renderLoop t omitColumns cs' cv
    else
      cv' ← paint (row rect) col (style (text_super t) (charAt (value t) c)) cv;
      renderLoop t omitColumns cs' cv'
  end.

Definition render (cv : Canvas) (t : TextObject) : option (Canvas * TextObject) :=
  let rect := rectangle (text_super t) in
  let r := row rect in
  if (r <? 0) || (rows (canvasSize cv) <=? r) then Some (cv, t)
  else
    let omitColumns := omitCells (text_super t) !! r in
    if sizeIs omitColumns (width rect) then Some (cv, clearTextOmit r t)
    else
      cv' ← renderLoop t omitColumns (seq 0 (String.length (value t)))
              (withQueueRow r cv);
      Some (cv', clearTextOmit r t).

(** *** TextObject.rerender *)

(** The test that makes the loop of [rerender] pass over a queued column. *)
Definition skipColumn (t : TextObject) (omitColumns : option (gset Z))
    (size : CanvasSize) (col : Z) : bool :=
  let rect := rectangle (text_super t) in
  (col <? 0) || (columns size <=? col) ||
  (col <? column rect) || (column rect + width rect <=? col) ||
  omitHas omitColumns col.

(** The loop over the queued columns; a JavaScript [Set] is walked in
    insertion order, every column once, and the turns touch distinct cells. *)
Fixpoint rerenderLoop (t : TextObject) (omitColumns : option (gset Z))
    (cs : list Z) (cv : Canvas) : option Canvas :=
  match cs with
  | [] => Some cv
  | col :: cs' =>
    let rect := rectangle (text_super t) in
    if skipColumn t omitColumns (canvasSize cv) col
    then rerenderLoop t omitColumns cs' cv
    else
      cv' ← paint (row rect) col
              (style (text_super t)
                 (charAt (value t) (Z.to_nat (col - column rect)))) cv;
      rerenderLoop t omitColumns cs' cv'
  end.

Definition rerender (cv : Canvas) (t : TextObject) : option (Canvas * TextObject) :=
  let rect := rectangle (text_super t) in
  let r := row rect in
  match rerenderCells (text_super t) !! r with
  | None => Some (cv, t)
  | Some rerenderColumns =>
    let omitColumns := omitCells (text_super t) !! r in
    if sizeIs omitColumns (width rect) then Some (cv, clearTextOmit r t)
    else if (r <? 0) || (rows (canvasSize cv) <=? r) then Some (cv, t)
    else
      cv' ← rerenderLoop t omitColumns (elements rerenderColumns)
              (withQueueRow r cv);
      Some (cv', clearTextOmit r (clearTextRerender r t))
  end.

End Draw.

(** ** canvas/box.ts *)

Module BoxObj.
Import Draw.

Definition clearBoxOmit (r : Z) (b : BoxObject) : BoxObject :=
  mkBoxObject
    (set_omitCells (clearRow r (omitCells (box_super b))) (box_super b))
    (filler b).

Definition clearBoxRerender (r : Z) (b : BoxObject) : BoxObject :=
  mkBoxObject
    (set_rerenderCells (clearRow r (rerenderCells (box_super b))) (box_super b))
    (filler b).

(** [rerenderCells.length]: one past the largest non-negative index in use. *)
Definition arrayLength (cells : gmap Z (gset Z)) : Z :=
  map_fold (λ k _ acc, Z.max acc (k + 1)) 0 cells.

(** [Math.min(rectangle.row + rectangle.height, rows)], cut by the view *)
Definition rowRange (cv : Canvas) (b : BoxObject) : Z :=
  let rect := rectangle (box_super b) in
  let range := Z.min (row rect + height rect) (rows (canvasSize cv)) in
  match view (box_super b) with
  | Some v => Z.min range (row (view_rectangle v) + height (view_rectangle v))
  | None => range
  end.

Definition columnRange (cv : Canvas) (b : BoxObject) : Z :=
  let rect := rectangle (box_super b) in
  let range := Z.min (column rect + width rect) (columns (canvasSize cv)) in
  match view (box_super b) with
  | Some v => Z.min range (column (view_rectangle v) + width (view_rectangle v))
  | None => range
  end.

(** [rowBuffer[c] = cell; rerenderQueueRow.add(c)] after
    [frameBuffer[r] ??= []] *)
Definition paintBox (r c : Z) (cell : Cell) (cv : Canvas) : Canvas :=
  mkCanvas (canvasSize cv)
    (<[r := <[c := cell]> (default ∅ (frameBuffer cv !! r))]> (frameBuffer cv))
    (addCell r c (rerenderQueue cv)).

(** The test that makes the loop of [rerender] pass over a queued column. *)
Definition skipBoxColumn (b : BoxObject) (colRange : Z)
    (omitColumns : option (gset Z)) (col : Z) : bool :=
  omitHas omitColumns col || (col <? column (rectangle (box_super b))) ||
  (colRange <=? col).

(** One turn of the loop over the queued columns of a row. *)
Definition rerenderColumn (b : BoxObject) (colRange : Z)
    (omitColumns : option (gset Z)) (r : Z) (cv : Canvas) (col : Z) : Canvas :=
  if skipBoxColumn b colRange omitColumns col
  then cv
  else paintBox r col (style (box_super b) (Str (filler b))) cv.

(** One turn of the loop over the rows.  Every entry of [rerenderCells] is a
    set, so the [break] on a falsy entry is never taken. *)
Definition rerenderRow (rRange colRange : Z) (st : Canvas * BoxObject) (r : Z)
    : Canvas * BoxObject :=
  let '(cv, b) := st in
  match rerenderCells (box_super b) !! r with
  | None => st
  | Some rerenderColumns =>
    if rRange <=? r then st
    else
      let omitColumns := omitCells (box_super b) !! r in
      if sizeIs omitColumns (width (rectangle (box_super b)))
      then (cv, clearBoxOmit r b)
      else
        let cv1 :=
          mkCanvas (canvasSize cv) (ensureBuffer r (frameBuffer cv))
            (ensureRow r (rerenderQueue cv)) in
        (foldl (rerenderColumn b colRange omitColumns r) cv1
           (elements rerenderColumns),
         clearBoxOmit r (clearBoxRerender r b))
  end.

(** A box with other rerender and omit tables, and otherwise the same. *)
Definition withCells (rc oc : gmap Z (gset Z)) (b : BoxObject) : BoxObject :=
  mkBoxObject (set_omitCells oc (set_rerenderCells rc (box_super b))) (filler b).

Definition rerender (cv : Canvas) (b : BoxObject) : Canvas * BoxObject :=
  let rect := rectangle (box_super b) in
  let cells := rerenderCells (box_super b) in
  foldl (rerenderRow (rowRange cv b) (columnRange cv b)) (cv, b)
    (seqZ (row rect) (arrayLength cells - row rect)).

End BoxObj.

(** ** component.ts *)

Module Component.

(** A component object, by reference. *)
Definition Ref := nat.

(** A [TuiInstance], by reference. *)
Definition InstRef := nat.

(** [TuiObject = TuiInstance | AnyComponent] *)
Inductive TuiObject :=
  | ObjInstance (i : InstRef)
  | ObjComponent (r : Ref).

(** The members [createComponent] and [removeComponent] read or write.  The
    others (emitter, [on]/[once]/[off], rectangle, styler, focusedWithin,
    canvas, draw, update, and what the extension adds next to them) are
    carried along untouched. *)
Record TuiComponent := mkTuiComponent {
  id : Z;
  name : string;
  instance : InstRef;
  parent : TuiObject;
  children : list Ref;
  drawPriority : Z;
  interactive : bool
}.

Definition set_children (l : list Ref) (c : TuiComponent) : TuiComponent :=
  mkTuiComponent (id c) (name c) (instance c) (parent c) l (drawPriority c)
    (interactive c).

Record TuiInstance := mkTuiInstance {
  components : list Ref;
  tui_children : list Ref
}.

Record CreateComponentOptions := mkOptions {
  opt_name : string;
  opt_interactive : option bool;
  opt_drawPriority : option Z
}.

(** The [extension] argument, by the members of it that bear the name of a
    member of [TuiComponent]: [None] for a member it does not carry.  What
    it carries under other names is added next to them.  A parent and an
    instance are carried by reference; an array carried under [children] is
    taken to be the extension's own, an array that no object of the world
    holds, and is given by its elements. *)
Record Extension := mkExtension {
  ext_id : option Z;
  ext_name : option string;
  ext_instance : option InstRef;
  ext_parent : option TuiObject;
  ext_children : option (list Ref);
  ext_drawPriority : option Z;
  ext_interactive : option bool
}.

(** [{ ...component, ...extension }]: the extension is spread last, so a
    member it carries replaces the one written before it; a missing
    extension spreads nothing. *)
Definition spreadExtension (extension : option Extension) (c : TuiComponent)
    : TuiComponent :=
  match extension with
  | None => c
  | Some e =>
    mkTuiComponent
      (default (id c) (ext_id e))
      (default (name c) (ext_name e))
      (default (instance c) (ext_instance e))
      (default (parent c) (ext_parent e))
      (default (children c) (ext_children e))
      (default (drawPriority c) (ext_drawPriority e))
      (default (interactive c) (ext_interactive e))
  end.

(** The module-level [let componentId = 0] together with the objects that
    exist. *)
Record World := mkWorld {
  componentId : Z;
  store : gmap Ref TuiComponent;
  instances : gmap InstRef TuiInstance
}.

(** [Object.hasOwn(object, "instance") ? object.instance : object] *)
Definition getInstance (w : World) (object : TuiObject) : option InstRef :=
  match object with
  | ObjInstance i => Some i
  | ObjComponent r => instance <$> store w !! r
  end.

Definition priorityOf (w : World) (r : Ref) : Z :=
  default 0 (drawPriority <$> store w !! r).

(** [(b, a) => b.drawPriority - a.drawPriority] *)
Definition compareFn (w : World) (b a : Ref) : Z :=
  priorityOf w b - priorityOf w a.

(** [Array.prototype.sort(compare)]: the stable sort; an element goes before
    the first one it does not compare greater than. *)
Fixpoint insertBy {A} (compare : A → A → Z) (x : A) (l : list A) : list A :=
  match l with
  | [] => [x]
  | y :: l' =>
    if compare x y <=? 0 then x :: y :: l' else y :: insertBy compare x l'
  end.

Definition sortBy {A} (compare : A → A → Z) (l : list A) : list A :=
  foldr (insertBy compare) [] l.

(** [object.children.push(component)] *)
Definition pushChild (object : TuiObject) (r : Ref) (w : World) : World :=
  match object with
  | ObjInstance i =>
    mkWorld (componentId w) (store w)
      (alter (λ t, mkTuiInstance (components t) (tui_children t ++ [r])) i
         (instances w))
  | ObjComponent p =>
    mkWorld (componentId w)
      (alter (λ c, set_children (children c ++ [r]) c) p (store w))
      (instances w)
  end.

(** [instance.components = f(instance.components)] *)
Definition onComponents (f : list Ref → list Ref) (i : InstRef) (w : World) : World :=
  mkWorld (componentId w) (store w)
    (alter (λ t, mkTuiInstance (f (components t)) (tui_children t)) i
       (instances w)).

(** [None] when [object] does not denote an object of the world, which a
    JavaScript reference always does. *)
Definition createComponent (object : TuiObject) (opts : CreateComponentOptions)
    (extension : option Extension) (w : World) : option (World * Ref) :=
  inst ← getInstance w object;
  _ ← instances w !! inst;
  let r := fresh (dom (store w)) in
  let component :=
    spreadExtension extension
      (mkTuiComponent (componentId w) (opt_name opts) inst object []
         (default 0 (opt_drawPriority opts))
         (default false (opt_interactive opts))) in
  let w1 := mkWorld (componentId w + 1) (<[r := component]> (store w)) (instances w) in
  let w2 := onComponents (λ l, l ++ [r]) inst w1 in
  let w3 := pushChild object r w2 in
  Some (onComponents (sortBy (compareFn w3)) inst w3, r).

(** [(comp) => comp !== component] *)
Definition keep (r : Ref) (l : list Ref) : list Ref :=
  filter (λ comp, comp ≠ r) l.

(** [parent.children = parent.children.filter(filter)] *)
Definition filterChildren (object : TuiObject) (r : Ref) (w : World) : World :=
  match object with
  | ObjInstance i =>
    mkWorld (componentId w) (store w)
      (alter (λ t, mkTuiInstance (components t) (keep r (tui_children t))) i
         (instances w))
  | ObjComponent p =>
    mkWorld (componentId w)
      (alter (λ c, set_children (keep r (children c)) c) p (store w))
      (instances w)
  end.

(** The recursion follows [component.children]; [fuel] bounds its depth, and
    [None] is a reference that denotes nothing or a recursion cut short. *)
Fixpoint removeComponent (fuel : nat) (r : Ref) (w : World) : option World :=
  match fuel with
  | O => None
  | S n =>
    component ← store w !! r;
    let w1 := filterChildren (parent component) r w in
    let w2 := onComponents (keep r) (instance component) w1 in
    kids ← children <$> store w2 !! r;
    foldl (λ acc child, acc ≫= removeComponent n child) (Some w2) kids
  end.

(** What a program does to the registry, one call at a time. *)
Inductive Op :=
  | Create (object : TuiObject) (opts : CreateComponentOptions)
      (extension : option Extension)
  | Remove (fuel : nat) (r : Ref).

Definition step (op : Op) (w : World) : option World :=
  match op with
  | Create object opts extension =>
    fst <$> createComponent object opts extension w
  | Remove fuel r => removeComponent fuel r w
  end.

Fixpoint run (ops : list Op) (w : World) : option World :=
  match ops with
  | [] => Some w
  | op :: ops' => w' ← step op w; run ops' w'
  end.

(** The component list of every instance is in non-decreasing
    [drawPriority] order. *)
Definition sortedByPriority (w : World) (l : list Ref) : Prop :=
  ∀ (i j : nat) a b, (i < j)%nat → l !! i = Some a → l !! j = Some b →
    priorityOf w a ≤ priorityOf w b.

Definition componentsSorted (w : World) : Prop :=
  ∀ i t, instances w !! i = Some t → sortedByPriority w (components t).

Definition lePriority (w : World) (a b : Ref) : Prop :=
  priorityOf w a ≤ priorityOf w b.

(** Every reference held in a component list denotes a component, as a
    JavaScript reference does. *)
Definition closed (w : World) : Prop :=
  ∀ i t r, instances w !! i = Some t → r ∈ components t →
    is_Some (store w !! r).

(** Every id handed out so far is below the counter. *)
Definition idsBelowCounter (w : World) : Prop :=
  ∀ r c, store w !! r = Some c → id c < componentId w.

(** No two component objects share an id. *)
Definition idsUnique (w : World) : Prop :=
  ∀ r1 r2 c1 c2, store w !! r1 = Some c1 → store w !! r2 = Some c2 →
    id c1 = id c2 → r1 = r2.

(** The component lists are in order, except perhaps the one of [skip],
    which is under construction. *)
Definition sortedExcept (skip : option InstRef) (w : World) : Prop :=
  ∀ i t, instances w !! i = Some t → Some i ≠ skip →
    sortedByPriority w (components t).

(** Two states of a component that differ at most in its children. *)
Definition sameFields (c c' : TuiComponent) : Prop :=
  id c' = id c ∧ drawPriority c' = drawPriority c.

(** The same component objects exist in [w] and [w'], with the same id and
    priority, and the counter is the same. *)
Definition storeStable (w w' : World) : Prop :=
  componentId w' = componentId w ∧
  (∀ x c, store w !! x = Some c →
     ∃ c', store w' !! x = Some c' ∧ sameFields c c') ∧
  (∀ x c', store w' !! x = Some c' →
     ∃ c, store w !! x = Some c ∧ sameFields c c').

(** The extension carries no [id]. *)
Definition carriesNoId (extension : option Extension) : Prop :=
  extension ≫= ext_id = None.

(** No call of the program passes an extension that carries an [id]. *)
Definition idsLeftAlone (ops : list Op) : Prop :=
  Forall (λ op, match op with
                | Create _ _ extension => carriesNoId extension
                | Remove _ _ => True
                end) ops.

(** A program start: no component exists and the counter is at its initial
    value. *)
Definition initialWorld (w : World) : Prop :=
  componentId w = 0 ∧ store w = ∅ ∧
  ∀ i t, instances w !! i = Some t → components t = [] ∧ tui_children t = [].

End Component.

(** ** Concrete scenes *)

Module Scenario.
Import Draw BoxObj.

Local Open Scope string_scope.

(** A style that adds nothing to the character. *)
Definition plain (x : JsText) : Cell :=
  match x with
  | Str s => s
  | Undefined => "undefined"
  end.

(** The width of a text without wide or combining characters. *)
Definition asciiWidth (s : string) : Z := Z.of_nat (String.length s).

Definition object (rect : Rectangle) (prev : option Rectangle)
    (unders : list ObjId) (queue omit : gmap Z (gset Z)) (v : option View)
    : DrawObject :=
  mkDrawObject rect prev unders queue omit true plain v.

(** The screen of the end-to-end scenario: ten columns, one row. *)
Definition screen : Canvas := mkCanvas (mkCanvasSize 10 1) {[0 := ∅]} ∅.

(** A text moved one column to the right over a box. *)
Definition movedText : TextObject :=
  mkTextObject
    (object (mkRectangle 1 0 2 1) (Some (mkRectangle 0 0 2 1)) [1%nat] ∅ ∅ None)
    "hi" (Some "hi").

Definition background : BoxObject :=
  mkBoxObject
    (object (mkRectangle 0 0 10 1) (Some (mkRectangle 0 0 10 1)) [] ∅ ∅ None)
    "#".

Definition movedHeap : Heap :=
  {[0%nat := Text movedText; 1%nat := Box background]}.

(** "hi" at columns 2 and 3, column 3 claimed by an object above. *)
Definition halfCovered : TextObject :=
  mkTextObject
    (object (mkRectangle 2 0 2 1) (Some (mkRectangle 2 0 2 1)) []
       ∅ {[0 := {[3]}]} None)
    "hi" (Some "hi").

(** "hi" at columns 2 and 3; the omit set holds column 2 and a column the
    text does not reach, so it is as large as the text is wide. *)
Definition strayOmit : TextObject :=
  mkTextObject
    (object (mkRectangle 2 0 2 1) (Some (mkRectangle 2 0 2 1)) []
       ∅ {[0 := {[2; 7]}]} None)
    "hi" (Some "hi").

(** A rendered text whose value went from "ab" to "a" and that did not move. *)
Definition shrunk : TextObject :=
  mkTextObject
    (object (mkRectangle 0 0 2 1) (Some (mkRectangle 0 0 2 1)) [] ∅ ∅ None)
    "a" (Some "ab").

Definition shrunkHeap : Heap := {[0%nat := Text shrunk]}.

(** The same text with the box of [movedHeap] underneath. *)
Definition shrunkAbove : TextObject :=
  mkTextObject
    (object (mkRectangle 0 0 2 1) (Some (mkRectangle 0 0 2 1)) [1%nat] ∅ ∅ None)
    "a" (Some "ab").

Definition shrunkOverBox : Heap :=
  {[0%nat := Text shrunkAbove; 1%nat := Box background]}.

(** A box of four columns seen through a view that starts at column 2. *)
Definition viewedBox : BoxObject :=
  mkBoxObject
    (object (mkRectangle 0 0 4 1) (Some (mkRectangle 0 0 4 1)) []
       {[0 := {[0; 1; 2; 3]}]} ∅ (Some (mkView (mkRectangle 2 0 2 1))))
    "#".

(** A box that hangs one column off the left edge of the screen. *)
Definition leftBox : BoxObject :=
  mkBoxObject
    (object (mkRectangle (-1) 0 3 1) (Some (mkRectangle (-1) 0 3 1)) []
       {[0 := {[-1; 0; 1]}]} ∅ None)
    "#".

(** A box that hangs one row off the top edge of the screen. *)
Definition topBox : BoxObject :=
  mkBoxObject
    (object (mkRectangle 0 (-1) 2 2) (Some (mkRectangle 0 (-1) 2 2)) []
       {[-1 := {[0; 1]}; 0 := {[0; 1]}]} ∅ None)
    "#".


(** The same for a box of two columns. *)
Definition coveredBox : BoxObject :=
  mkBoxObject
    (object (mkRectangle 2 0 2 1) (Some (mkRectangle 2 0 2 1)) []
       {[0 := {[2; 3]}]} {[0 := {[2; 3]}]} None)
    "#".

(** A program start with one instance, and a short session on it: a frame,
    a label, a button inside the frame, then the frame removed. *)
Definition start : Component.World :=
  Component.mkWorld 0 ∅ {[0%nat := Component.mkTuiInstance [] []]}.

Definition session : list Component.Op :=
  [Component.Create (Component.ObjInstance 0%nat)
     (Component.mkOptions "frame" None (Some 2)) None;
   Component.Create (Component.ObjInstance 0%nat)
     (Component.mkOptions "label" None (Some 1)) None;
   Component.Create (Component.ObjComponent 0%nat)
     (Component.mkOptions "button" (Some true) None) None;
   Component.Remove 2 0%nat].

Definition textboxOptions : Component.CreateComponentOptions :=
  Component.mkOptions "textbox" (Some true) (Some 1).

(** The extension of a textbox: [value], [string], [hidden] and
    [multiline], none of them a member of [TuiComponent]. *)
Definition textboxExtension : option Component.Extension :=
  Some (Component.mkExtension None None None None None None None).

(** An extension that carries the [id] of the first component. *)
Definition idExtension : option Component.Extension :=
  Some (Component.mkExtension (Some 0) None None None None None None).

End Scenario.

(** ** Reading the registry *)

Module ComponentViews.
Import Component.

Global Instance TuiObject_eq_dec : EqDecision TuiObject.
Proof. solve_decision. Defined.

(** [instance.components], empty for a reference that denotes nothing *)
Definition componentsOf (w : World) (i : InstRef) : list Ref :=
  default [] (components <$> instances w !! i).

(** [object.children] *)
Definition childrenOf (w : World) (object : TuiObject) : list Ref :=
  match object with
  | ObjInstance i => default [] (tui_children <$> instances w !! i)
  | ObjComponent p => default [] (children <$> store w !! p)
  end.

(** [object] is an object of the world. *)
Definition denotes (w : World) (object : TuiObject) : Prop :=
  match object with
  | ObjInstance i => is_Some (instances w !! i)
  | ObjComponent p => is_Some (store w !! p)
  end.

(** Two states of a component that differ at most in its children. *)
Definition sameButChildren (c c' : TuiComponent) : Prop :=
  set_children [] c = set_children [] c'.

(** [w'] is [w] with elements taken out of its lists: the counter and the
    component objects are the same, up to their children, and every list of
    [w'] is what is left of the list of [w]. *)
Definition pruned (w w' : World) : Prop :=
  componentId w' = componentId w ∧
  (∀ x c, store w !! x = Some c →
     ∃ c', store w' !! x = Some c' ∧ sameButChildren c c') ∧
  (∀ i, componentsOf w' i `sublist_of` componentsOf w i) ∧
  (∀ o, childrenOf w' o `sublist_of` childrenOf w o).

(** The component [createComponent] builds. *)
Definition newComponent (w : World) (inst : InstRef) (object : TuiObject)
    (opts : CreateComponentOptions) (extension : option Extension)
    : TuiComponent :=
  spreadExtension extension
    (mkTuiComponent (componentId w) (opt_name opts) inst object []
       (default 0 (opt_drawPriority opts))
       (default false (opt_interactive opts))).

(** The extension carries none of the members [removeComponent] follows. *)
Definition linksLeftAlone (extension : option Extension) : Prop :=
  extension ≫= ext_parent = None ∧
  extension ≫= ext_instance = None ∧
  extension ≫= ext_children = None.

End ComponentViews.

(** ** component.ts: getCurrentStyler *)

Module Styler.

Local Open Scope string_scope.

(** The values a styler is made of: strings (escape sequences) and objects
    of such values. *)
#[warnings="-register-all"]
Inductive JsVal :=
  | VStr (s : string)
  | VObj (o : gmap string JsVal).

Abbreviation JsObject := (gmap string JsVal).

(** The members [...s] gives for a string: its code units, by index. *)
Fixpoint stringMembers (i : nat) (s : string) : JsObject :=
  match s with
  | EmptyString => ∅
  | String a s' => <[pretty i := VStr (String a EmptyString)]> (stringMembers (S i) s')
  end.

(** The members [...v] gives for the value of a member: those of an object,
    the code units of a string, none for [undefined]. *)
Definition spread (v : option JsVal) : JsObject :=
  match v with
  | Some (VObj o) => o
  | Some (VStr s) => stringMembers 0 s
  | None => ∅
  end.

(** [{ value: boolean; force?: boolean }] *)
Record StateOverride := mkStateOverride {
  value : bool;
  force : option bool
}.

Record GetCurrentStylerOptions := mkStylerOptions {
  focused : option StateOverride;
  active : option StateOverride
}.

(** [component.instance.selected]: the id of the selected item, if there is
    one, and the two flags *)
Record Selected := mkSelected {
  item : option Z;
  selectedFocused : bool;
  selectedActive : bool
}.

(** The members of a component that [getCurrentStyler] reads;
    [focusedWithin] by the ids of its components. *)
Record Styled := mkStyled {
  styler : JsObject;
  id : Z;
  focusedWithin : list Z
}.

(** [(item?.id == component.id) ||
     component.focusedWithin.some(({ id }) => item?.id === id)] *)
Definition isSelected (c : Styled) (sel : Selected) : bool :=
  match item sel with
  | Some i => (i =? id c)%Z || existsb (λ x, (i =? x)%Z) (focusedWithin c)
  | None => false
  end.

(** [options?.focused?.value || (!options?.focused?.force && isSelected && flag)],
    for either state *)
Definition applies (o : option StateOverride) (selected flag : bool) : bool :=
  default false (value <$> o) ||
  (negb (default false (o ≫= force)) && selected && flag).

Definition isFocused (c : Styled) (sel : Selected)
    (options : option GetCurrentStylerOptions) : bool :=
  applies (options ≫= focused) (isSelected c sel) (selectedFocused sel).

Definition isActive (c : Styled) (sel : Selected)
    (options : option GetCurrentStylerOptions) : bool :=
  applies (options ≫= active) (isSelected c sel) (selectedActive sel).

(** A later spread overrides an earlier one: [{...a, ...b}] is [b ∪ a]. *)
Definition getCurrentStyler (c : Styled) (sel : Selected)
    (options : option GetCurrentStylerOptions) : JsObject :=
  if isActive c sel options then
    spread (styler c !! "active") ∪ (spread (styler c !! "focused") ∪ styler c)
  else if isFocused c sel options then
    spread (styler c !! "focused") ∪ styler c
  else styler c.

End Styler.

(** ** Reading the objects of a canvas *)

Module DrawViews.
Import Draw.

(** Two states of an object that differ at most in its rerender sets. *)
Definition sameButQueue (o o' : AnyObject) : Prop :=
  on_super (set_rerenderCells ∅) o = on_super (set_rerenderCells ∅) o'.

(** [h'] holds the objects of [h], each as it was up to its rerender
    sets. *)
Definition onlyQueues (h h' : Heap) : Prop :=
  ∀ id,
    match h !! id, h' !! id with
    | Some o, Some o' => sameButQueue o o'
    | None, None => True
    | _, _ => False
    end.

(** The columns of a rectangle. *)
Definition inColumns (rect : Rectangle) (c : Z) : Prop :=
  column rect ≤ c < column rect + width rect.

End DrawViews.

(** ** components/textbox.ts: the key handler of createTextbox *)

Module Textbox.

Local Open Scope string_scope.
Local Open Scope Z_scope.

(** *** Strings *)

(** The first [n] code units of a string, and what follows them. *)
Fixpoint firstChars (n : nat) (s : string) : string :=
  match n, s with
  | S n', String a s' => String a (firstChars n' s')
  | _, _ => ""
  end.

Fixpoint fromChar (n : nat) (s : string) : string :=
  match n, s with
  | S n', String _ s' => fromChar n' s'
  | _, _ => s
  end.

(** [s.length] *)
Definition stringLength (s : string) : Z := Z.of_nat (String.length s).

(** [s.slice(start, end)]: a negative index counts from the end, and an
    [end] before [start] gives the empty string. *)
Definition slice (s : string) (start : Z) (end_ : option Z) : string :=
  let len := stringLength s in
  let relative i := if i <? 0 then Z.max (len + i) 0 else Z.min i len in
  let from := relative start in
  let to := match end_ with Some e => relative e | None => len end in
  firstChars (Z.to_nat (to - from)) (fromChar (Z.to_nat from) s).

(** [s.substring(start, end)]: the indices are clamped to the string, and
    swapped when [end] is before [start]. *)
Definition substring (s : string) (start : Z) (end_ : option Z) : string :=
  let len := stringLength s in
  let clamp i := Z.min (Z.max i 0) len in
  let a := clamp start in
  let b := match end_ with Some e => clamp e | None => len end in
  firstChars (Z.to_nat (Z.max a b - Z.min a b)) (fromChar (Z.to_nat (Z.min a b)) s).

(** *** Arrays of strings *)

(** A JavaScript array of strings: its elements by index, [None] for a hole
    (it reads as [undefined]), and the properties it has under negative
    keys, which are no elements and do not count for [length]. *)
Record JsArray := mkJsArray {
  elements : list (option string);
  negative : gmap Z string
}.

(** [a.length] *)
Definition lengthOf (a : JsArray) : Z := Z.of_nat (length (elements a)).

(** [a[i]] *)
Definition get (a : JsArray) (i : Z) : option string :=
  if i <? 0 then negative a !! i else elements a !! Z.to_nat i ≫= id.

(** [a[i] = s]: past the end the array grows, with holes in between. *)
Definition assign (i : Z) (s : string) (a : JsArray) : JsArray :=
  if i <? 0 then mkJsArray (elements a) (<[i := s]> (negative a))
  else if i <? lengthOf a
  then mkJsArray (<[Z.to_nat i := Some s]> (elements a)) (negative a)
  else mkJsArray
         (elements a ++ replicate (Z.to_nat (i - lengthOf a)) None ++ [Some s])
         (negative a).

(** [a[i] ||= ""]: a line that is [undefined] or empty is assigned [""]. *)
Definition orEmpty (i : Z) (a : JsArray) : JsArray :=
  match get a i with
  | Some (String _ _) => a
  | _ => assign i "" a
  end.

(** [a.splice(start, deleteCount, ...items)]: the array after it, and the
    array of the deleted elements it returns. *)
Definition splice (start deleteCount : Z) (items : list string) (a : JsArray)
    : JsArray * list (option string) :=
  let len := lengthOf a in
  let actualStart :=
    if start <? 0 then Z.max (len + start) 0 else Z.min start len in
  let actualDeleteCount := Z.min (Z.max deleteCount 0) (len - actualStart) in
  let from := Z.to_nat actualStart in
  let count := Z.to_nat actualDeleteCount in
  (mkJsArray
     (take from (elements a) ++ (Some <$> items)
      ++ drop (from + count) (elements a))
     (negative a),
   take count (drop from (elements a))).

(** [String(a)], as in [start + end] for an array [end]: the elements joined
    by commas, a hole or [undefined] as the empty string. *)
Definition toString (l : list (option string)) : string :=
  String.concat "," (default "" <$> l).

(** *** The state the handler works on *)

(** [{ key, shift, ctrl, meta }]; a missing key is the empty string. *)
Record KeyPress := mkKeyPress {
  key : string;
  shift : bool;
  ctrl : bool;
  meta : bool
}.

Record Position := mkPosition { x : Z; y : Z }.

(** [textbox.value], the [position] of the closure and
    [textbox.multiline]. *)
Record Textbox := mkTextbox {
  value : JsArray;
  position : Position;
  multiline : bool
}.

(** How a branch of the handler ends: at its end, or with the [TypeError]
    of reading a member of [undefined], in the state reached by then. *)
Inductive Step :=
  | Done (st : Textbox)
  | TypeError (st : Textbox).

(** How the handler ends: it returned before it did anything, it emitted
    [valueChange] with the start value, or it threw. *)
Inductive Outcome :=
  | Ignored
  | Emitted (st : Textbox) (startValue : list (option string))
  | Threw (st : Textbox).

(** [value[y].length >= x ? x : value[y].length] *)
Definition clampX (line : string) (x : Z) : Z :=
  if x <=? stringLength line then x else stringLength line.

(** A key of one code unit, without [ctrl] and [meta]. *)
Definition insertKey (k : string) (st : Textbox) : Step :=
  let '(mkPosition x y) := position st in
  let v := orEmpty y (value st) in
  match get v y with
  | Some line =>
    Done (mkTextbox
            (assign y (slice line 0 (Some x) ++ k ++ slice line x None) v)
            (mkPosition (x + 1) y) (multiline st))
  | None => TypeError (mkTextbox v (position st) (multiline st))
  end.

(** What ["up"] and ["down"] do once [position.y] is computed. *)
Definition moveToLine (y' : Z) (st : Textbox) : Step :=
  let v := orEmpty y' (value st) in
  match get v y' with
  | Some line =>
    Done (mkTextbox v (mkPosition (clampX line (x (position st))) y')
            (multiline st))
  | None =>
    TypeError (mkTextbox v (mkPosition (x (position st)) y') (multiline st))
  end.

Definition onUp (st : Textbox) : Step :=
  moveToLine (Z.max 0 (y (position st) - 1)) st.

Definition onDown (st : Textbox) : Step :=
  moveToLine (Z.min (y (position st) + 1) (lengthOf (value st) - 1)) st.

Definition onLeft (st : Textbox) : Step :=
  let '(mkPosition x y) := position st in
  Done (mkTextbox (value st) (mkPosition (Z.max 0 (x - 1)) y) (multiline st)).

Definition onRight (st : Textbox) : Step :=
  let '(mkPosition x y) := position st in
  match get (value st) y with
  | Some line =>
    Done (mkTextbox (value st)
            (mkPosition (Z.min (x + 1) (stringLength line)) y) (multiline st))
  | None => TypeError st
  end.

Definition onReturn (st : Textbox) : Step :=
  let '(mkPosition x y) := position st in
  let v := value st in
  match get v y with
  | None => TypeError st
  | Some line =>
    if x =? stringLength line then
      let v1 := if multiline st then (splice (y + 1) 0 [""] v).1 else v in
      let y1 := Z.min (y + 1) (lengthOf v1 - 1) in
      match get v1 y1 with
      | Some line1 =>
        Done (mkTextbox v1 (mkPosition (stringLength line1) y1) (multiline st))
      | None => TypeError (mkTextbox v1 (mkPosition x y1) (multiline st))
      end
    else
      let start := slice line 0 (Some x) in
      let end_ := slice line x None in
      let v1 := assign y start v in
      let v2 := if multiline st then (splice (y + 1) 0 [end_] v1).1 else v1 in
      Done (mkTextbox v2 (mkPosition 0 (Z.min (y + 1) (lengthOf v2 - 1)))
              (multiline st))
  end.

Definition onBackspace (st : Textbox) : Step :=
  let '(mkPosition x y) := position st in
  let v := value st in
  if (x =? 0) && negb (y =? 0) then
    let y1 := Z.max 0 (y - 1) in
    let start := default "" (get v y1) in
    let '(v1, end_) := splice (y1 + 1) 1 [] v in
    Done (mkTextbox (assign y1 (start ++ toString end_) v1)
            (mkPosition (stringLength start) y1) (multiline st))
  else
    let v1 := orEmpty y v in
    match get v1 y with
    | Some line =>
      Done (mkTextbox
              (assign y (substring line 0 (Some (x - 1)) ++ substring line x None)
                 v1)
              (mkPosition (Z.max 0 (x - 1)) y) (multiline st))
    | None => TypeError (mkTextbox v1 (position st) (multiline st))
    end.

Definition onDelete (st : Textbox) : Step :=
  let '(mkPosition x y) := position st in
  let v := value st in
  match get v y with
  | Some line =>
    if x =? stringLength line then
      let '(v1, del) := splice y 1 [] v in
      Done (mkTextbox (assign y (toString del ++ default "" (get v1 y)) v1)
              (position st) (multiline st))
    else if stringLength line =? 0 then
      Done (mkTextbox (splice y 1 [] v).1 (position st) (multiline st))
    else
      Done (mkTextbox
              (assign y (substring line 0 (Some x) ++ substring line (x + 1) None)
                 v)
              (position st) (multiline st))
  | None =>
    Done (mkTextbox (splice y 1 [] v).1 (position st) (multiline st))
  end.

Definition onHome (st : Textbox) : Step :=
  Done (mkTextbox (value st) (mkPosition 0 (y (position st))) (multiline st)).

Definition onEnd (st : Textbox) : Step :=
  match get (value st) (y (position st)) with
  | Some line =>
    Done (mkTextbox (value st)
            (mkPosition (stringLength line) (y (position st))) (multiline st))
  | None => TypeError st
  end.

(** The [switch (key)]; [None] is its [default: return]. *)
Definition named (k : string) : option (Textbox → Step) :=
  if String.eqb k "up" then Some onUp
  else if String.eqb k "down" then Some onDown
  else if String.eqb k "left" then Some onLeft
  else if String.eqb k "right" then Some onRight
  else if String.eqb k "return" then Some onReturn
  else if String.eqb k "backspace" then Some onBackspace
  else if String.eqb k "delete" then Some onDelete
  else if String.eqb k "home" then Some onHome
  else if String.eqb k "end" then Some onEnd
  else None.

(** [emitter.emit("valueChange", startValue)] after a branch, where
    [startValue] is [[...textbox.value]] as the handler found it. *)
Definition emit (startValue : list (option string)) (s : Step) : Outcome :=
  match s with
  | Done st => Emitted st startValue
  | TypeError st => Threw st
  end.

(** [textbox.on("key", ({ key, shift, ctrl, meta }) => { ... })] *)
Definition onKey (e : KeyPress) (st : Textbox) : Outcome :=
  if String.eqb (key e) "" || shift e then Ignored
  else
    let startValue := elements (value st) in
    if negb (ctrl e) && negb (meta e) && (String.length (key e) =? 1)%nat
    then emit startValue (insertKey (key e) st)
    else
      match named (key e) with
      | Some branch => emit startValue (branch st)
      | None => Ignored
      end.

(** The value and the position [createTextbox] starts with:
    [options?.value?.length ? options.value : [""]] and [{ x: 0, y: 0 }]. *)
Definition createTextbox (optionsValue : option JsArray) (optionsMultiline : bool)
    : Textbox :=
  mkTextbox
    (match optionsValue with
     | Some a => if lengthOf a =? 0 then mkJsArray [Some ""] ∅ else a
     | None => mkJsArray [Some ""] ∅
     end)
    (mkPosition 0 0) optionsMultiline.

(** The state after a key. *)
Definition after (st : Textbox) (e : KeyPress) : Textbox :=
  match onKey e st with
  | Ignored => st
  | Emitted st' _ => st'
  | Threw st' => st'
  end.

(** An array without holes. *)
Definition dense (a : JsArray) : Prop := Forall is_Some (elements a).

(** The cursor is on a line of the value, which has no holes, and at or
    before the end of that line. *)
Definition wellFormed (st : Textbox) : Prop :=
  dense (value st) ∧
  0 ≤ y (position st) < lengthOf (value st) ∧
  ∃ line, get (value st) (y (position st)) = Some line ∧
    0 ≤ x (position st) ≤ stringLength line.

(** A branch of the handler that ends, and leaves the cursor on the text. *)
Definition keeps (branch : Textbox → Step) : Prop :=
  ∀ st, wellFormed st → ∃ st', branch st = Done st' ∧ wellFormed st'.

(** A key pressed without [shift], [ctrl] or [meta]. *)
Definition typed (k : string) : KeyPress := mkKeyPress k false false false.

(** The line feed. *)
Definition newline : string := String (ascii_of_nat 10) EmptyString.

(** [string: () => textbox.value.join("\n")]: the lines joined by line
    feeds, a hole or [undefined] as the empty string. *)
Definition stringOf (st : Textbox) : string :=
  String.concat newline (default "" <$> elements (value st)).

(** The array that holds the given lines. *)
Definition ofLines (ls : list string) (negative : gmap Z string) : JsArray :=
  mkJsArray (Some <$> ls) negative.

(** A textbox with the given lines and the cursor at [x] in line [j]. *)
Definition editing (ls : list string) (negative : gmap Z string)
    (x : Z) (j : nat) (ml : bool) : Textbox :=
  mkTextbox (ofLines ls negative) (mkPosition x (Z.of_nat j)) ml.

(** Where the cursor is in [textbox.string()]: behind the lines before its
    own, each with its line feed, and [x] code units into its line. *)
Definition cursor (st : Textbox) : nat :=
  (sum_list_with (λ line, S (String.length (default "" line)))
     (take (Z.to_nat (y (position st))) (elements (value st)))
   + Z.to_nat (x (position st)))%nat.

End Textbox.

(** ** More scenarios *)

Module Examples.
Import Draw BoxObj Scenario.

Local Open Scope string_scope.

(** The session of [Scenario] up to the removal: a frame, a label, and a
    button inside the frame. *)
Definition building : list Component.Op :=
  [Component.Create (Component.ObjInstance 0%nat)
     (Component.mkOptions "frame" None (Some 2)) None;
   Component.Create (Component.ObjInstance 0%nat)
     (Component.mkOptions "label" None (Some 1)) None;
   Component.Create (Component.ObjComponent 0%nat)
     (Component.mkOptions "button" (Some true) None) None].

Definition built : Component.World :=
  default start (Component.run building start).

(** "hi" at columns 2 and 3, both cells queued, column 3 claimed by an
    object above. *)
Definition queuedText : TextObject :=
  mkTextObject
    (object (mkRectangle 2 0 2 1) (Some (mkRectangle 2 0 2 1)) []
       {[0 := {[2; 3]}]} {[0 := {[3]}]} None)
    "hi" (Some "hi").

(** A styler with members of its own and a styler for each state. *)
Definition buttonStyler : Styler.JsObject :=
  {["foreground" := Styler.VStr "green";
    "background" := Styler.VStr "black";
    "focused" := Styler.VObj {["foreground" := Styler.VStr "blue"]};
    "active" := Styler.VObj {["background" := Styler.VStr "yellow"]}]}.

Definition button : Styler.Styled := Styler.mkStyled buttonStyler 3 [].

(** The button is the selected item, focused and pressed. *)
Definition pressed : Styler.Selected := Styler.mkSelected (Some 3) true true.

(** Another component is the selected item. *)
Definition elsewhere : Styler.Selected := Styler.mkSelected (Some 4) true true.

(** A multiline textbox with two lines, the cursor behind the "wo" of the
    second. *)
Definition draft : Textbox.Textbox :=
  Textbox.editing ["hello"; "world"] ∅ 2 1%nat true.

(** The same lines in a textbox that is not multiline, the cursor behind
    the "he" of the first. *)
Definition memo : Textbox.Textbox :=
  Textbox.editing ["hello"; "world"] ∅ 2 0%nat false.

(** The cursor of [draft] moved to the start of its line. *)
Definition draftAtStart : Textbox.Textbox :=
  Textbox.editing ["hello"; "world"] ∅ 0 1%nat true.

Definition strokes : list Textbox.KeyPress :=
  Textbox.typed <$> ["a"; "return"; "b"; "up"; "delete"; "backspace"; "end"].

End Examples.

(** * Properties *)

(** ** Rectangles *)

Section RectangleFacts.

Lemma fitsInRectangle_spec c r rect :
  fitsInRectangle c r rect = true ↔
  column rect ≤ c < column rect + width rect ∧
  row rect ≤ r < row rect + height rect.
Proof. unfold fitsInRectangle. rewrite !andb_true_iff. lia. Qed.

(** A cell passes the test of [updateMovement] exactly when it lies in both
    rectangles. *)
Lemma fitsInIntersection_spec c r a b :
  fitsInIntersection c r (rectangleIntersection a b) =
  fitsInRectangle c r a && fitsInRectangle c r b.
Proof.
  apply eq_true_iff_eq. rewrite andb_true_iff, !fitsInRectangle_spec.
  unfold rectangleIntersection.
  destruct (_ && _) eqn:E; simpl.
  - rewrite fitsInRectangle_spec; simpl. lia.
  - apply andb_false_iff in E. split; [done|]. lia.
Qed.

End RectangleFacts.

(** ** Movement of a text object *)

Section Movement.
Import Draw.

Lemma grows_refl h : grows h h.
Proof. split; auto. Qed.

Lemma grows_trans h1 h2 h3 : grows h1 h2 → grows h2 h3 → grows h1 h3.
Proof. intros [A1 B1] [A2 B2]. split; auto. Qed.

Lemma rerenderCells_on_super_queue r c o :
  rerenderCells (super (on_super (queueRerender r c) o)) =
  addCell r c (rerenderCells (super o)).
Proof. by destruct o. Qed.

Lemma columnsOf_addCell r c cells r' :
  columnsOf (addCell r c cells) r' =
  if decide (r = r') then {[c]} ∪ columnsOf cells r' else columnsOf cells r'.
Proof.
  unfold addCell, columnsOf at 1. rewrite lookup_insert.
  by case_decide; subst.
Qed.

Lemma heap_queueRerender_grows id r c h : grows h (heap_queueRerender id r c h).
Proof.
  unfold heap_queueRerender. split.
  - intros id'. rewrite lookup_alter. case_decide; subst; [|done].
    intros [o ->]. by eexists.
  - intros id' r' c' (o & Ho & Hc). unfold queued.
    rewrite lookup_alter. case_decide; subst; [|eauto].
    rewrite Ho. eexists; split; [done|].
    rewrite rerenderCells_on_super_queue, columnsOf_addCell.
    case_decide; set_solver.
Qed.

Lemma heap_queueRerender_queued id r c h :
  is_Some (h !! id) → queued (heap_queueRerender id r c h) id r c.
Proof.
  intros [o Ho]. unfold queued, heap_queueRerender.
  rewrite lookup_alter, decide_True, Ho by done.
  eexists; split; [done|].
  rewrite rerenderCells_on_super_queue, columnsOf_addCell, decide_True by done.
  set_solver.
Qed.

Lemma foldl_grows {A} (f : Heap → A → Heap) l h :
  (∀ h' a, grows h' (f h' a)) → grows h (foldl f h l).
Proof.
  intros Hf. revert h. induction l as [|a l IH]; intros h; simpl.
  - apply grows_refl.
  - eapply grows_trans; [apply Hf | apply IH].
Qed.

(** What one turn of a loop establishes survives the rest of the loop. *)
Lemma foldl_queued {A} (f : Heap → A → Heap) l x h id r c :
  (∀ h' a, grows h' (f h' a)) →
  x ∈ l →
  (∀ h', grows h h' → queued (f h' x) id r c) →
  queued (foldl f h l) id r c.
Proof.
  intros Hf Hx Hq. apply list_elem_of_split in Hx as (l1 & l2 & ->).
  rewrite foldl_app. simpl.
  eapply (foldl_grows f l2); [done|].
  apply Hq. by apply foldl_grows.
Qed.

Lemma queueUnder_grows unders r c h : grows h (queueUnder unders r c h).
Proof. apply foldl_grows. intros. apply heap_queueRerender_grows. Qed.

Lemma queueUnder_queued unders u r c h :
  u ∈ unders → is_Some (h !! u) → queued (queueUnder unders r c h) u r c.
Proof.
  intros Hu Hs. unfold queueUnder.
  eapply foldl_queued with (x := u); [|done|].
  - intros. apply heap_queueRerender_grows.
  - intros h' [Hdom _]. apply heap_queueRerender_queued. auto.
Qed.

Lemma movedAway_grows unders i r h c : grows h (movedAway unders i r h c).
Proof.
  unfold movedAway. destruct (fitsInIntersection _ _ _);
    [apply grows_refl | apply queueUnder_grows].
Qed.

Lemma movedTo_grows self unders i r h c : grows h (movedTo self unders i r h c).
Proof.
  unfold movedTo. destruct (fitsInIntersection _ _ _).
  - apply heap_queueRerender_grows.
  - eapply grows_trans; [apply heap_queueRerender_grows | apply queueUnder_grows].
Qed.

Lemma movedTo_queued self unders i r h c :
  is_Some (h !! self) → queued (movedTo self unders i r h c) self r c.
Proof.
  intros Hs. unfold movedTo. destruct (fitsInIntersection _ _ _).
  - by apply heap_queueRerender_queued.
  - apply queueUnder_grows. by apply heap_queueRerender_queued.
Qed.

Lemma updateMovement_grows self h : grows h (updateMovement self h).
Proof.
  unfold updateMovement.
  destruct (h !! self) as [[t|b]|]; try apply grows_refl.
  destruct (previousRectangle _) as [prev|]; [|apply grows_refl].
  destruct (negb _); [|apply grows_refl].
  eapply grows_trans; eapply foldl_grows; intros.
  - apply movedAway_grows.
  - apply movedTo_grows.
Qed.

(** C1.  When a text object's rectangle differs from its previous one,
    [updateMovement] queues every cell of the new rectangle (every column from
    [rectangle.column] to [rectangle.column + rectangle.width - 1] on the
    rectangle's row) for the object's own rerender, whether or not the cell
    also lies in the old rectangle. *)
Theorem C1_moved_text_queues_whole_new_rectangle
    (h : Heap) (self : ObjId) (t : TextObject) (prev : Rectangle) (c : Z) :
  h !! self = Some (Text t) →
  previousRectangle (text_super t) = Some prev →
  rectangleEquals (rectangle (text_super t)) prev = false →
  column (rectangle (text_super t)) ≤ c
    < column (rectangle (text_super t)) + width (rectangle (text_super t)) →
  queued (updateMovement self h) self (row (rectangle (text_super t))) c.
Proof.
  intros Hself Hprev Hne Hc. unfold updateMovement.
  rewrite Hself, Hprev, Hne. simpl.
  eapply foldl_queued with (x := c).
  - intros. apply movedTo_grows.
  - apply elem_of_seqZ. lia.
  - intros h' [Hdom _]. apply movedTo_queued. apply Hdom.
    eapply foldl_grows; [intros; apply movedAway_grows|].
    rewrite Hself. by eexists.
Qed.

(** C2.  When a text object's rectangle differs from its previous one, every
    cell of the old rectangle (one row high, as the rectangle of a text is)
    that is not in the intersection of the old and the new rectangle is
    queued for rerender in every object of [objectsUnder]. *)
Theorem C2_moved_text_queues_uncovered_cells_below
    (h : Heap) (self : ObjId) (t : TextObject) (prev : Rectangle)
    (r c : Z) (u : ObjId) :
  h !! self = Some (Text t) →
  previousRectangle (text_super t) = Some prev →
  rectangleEquals (rectangle (text_super t)) prev = false →
  height prev = 1 →
  fitsInRectangle c r prev = true →
  fitsInRectangle c r (rectangle (text_super t)) && fitsInRectangle c r prev
    = false →
  u ∈ objectsUnder (text_super t) →
  is_Some (h !! u) →
  queued (updateMovement self h) u r c.
Proof.
  intros Hself Hprev Hne Hh Hin Hout Hu Hsome. unfold updateMovement.
  rewrite Hself, Hprev, Hne. simpl.
  apply fitsInRectangle_spec in Hin as Hin'.
  assert (r = row prev) as -> by lia.
  eapply (foldl_grows _ (seqZ _ _)); [intros; apply movedTo_grows|].
  eapply foldl_queued with (x := c).
  - intros. apply movedAway_grows.
  - apply elem_of_seqZ. lia.
  - intros h' [Hdom _]. unfold movedAway.
    rewrite fitsInIntersection_spec, Hout.
    apply queueUnder_queued; auto.
Qed.

(** *** A changed value *)

Lemma heap_queueRerender_queued_iff id r c h id' r' c' :
  queued (heap_queueRerender id r c h) id' r' c' ↔
  queued h id' r' c' ∨ (id' = id ∧ r' = r ∧ c' = c ∧ is_Some (h !! id)).
Proof.
  split.
  - intros (o & Ho & Hc). unfold heap_queueRerender in Ho.
    rewrite lookup_alter in Ho. case_decide; subst; [|left; by exists o].
    destruct (h !! id') as [o0|] eqn:E; [|done]. injection Ho as <-.
    rewrite rerenderCells_on_super_queue, columnsOf_addCell in Hc.
    case_decide; subst.
    + apply elem_of_union in Hc as [Hc|Hc].
      * apply elem_of_singleton in Hc as ->. right. by eauto.
      * left. by exists o0.
    + left. by exists o0.
  - intros [H|(-> & -> & -> & H)].
    + by apply heap_queueRerender_grows.
    + by apply heap_queueRerender_queued.
Qed.

Lemma queueChanged_queued_iff self rect v pv ixs h id r c :
  queued (foldl (queueChanged self rect v pv) h ixs) id r c ↔
  queued h id r c ∨
  (id = self ∧ is_Some (h !! self) ∧ r = row rect ∧
   ∃ i, i ∈ ixs ∧ c = column rect + Z.of_nat i ∧ charAt v i ≠ charAt pv i).
Proof.
  revert h. induction ixs as [|i ixs IH]; intros h; simpl.
  - split; [by left|]. intros [?|(_ & _ & _ & j & Hj & _)]; [done|].
    by apply elem_of_nil in Hj.
  - rewrite IH. unfold queueChanged.
    destruct (decide (charAt v i = charAt pv i)) as [Heq|Hne].
    + split; (intros [?|(-> & Hs & -> & j & Hj & -> & Hd)]; [by left|right]).
      * repeat split; try done. exists j. split; [by apply list_elem_of_further | done].
      * repeat split; try done. exists j. split; [|done].
        apply elem_of_cons in Hj as [->|Hj]; [done | done].
    + rewrite heap_queueRerender_queued_iff.
      assert (is_Some (heap_queueRerender self (row rect)
                         (column rect + Z.of_nat i) h !! self)
              ↔ is_Some (h !! self)) as Hs.
      { unfold heap_queueRerender. rewrite lookup_alter, decide_True by done.
        by rewrite fmap_is_Some. }
      rewrite Hs. split.
      * intros [[?|(-> & -> & -> & ?)]|(-> & ? & -> & j & Hj & -> & Hd)];
          [by left | right | right]; repeat split; try done.
        -- exists i. split; [apply list_elem_of_here | done].
        -- exists j. split; [by apply list_elem_of_further | done].
      * intros [?|(-> & ? & -> & j & Hj & -> & Hd)]; [by left; left|].
        apply elem_of_cons in Hj as [->|Hj].
        -- left; right. done.
        -- right. repeat split; try done. by exists j.
Qed.

Lemma finishUpdate_queued textWidth self h id r c :
  queued (alter (finishUpdate textWidth) self h) id r c ↔ queued h id r c.
Proof.
  unfold queued. rewrite lookup_alter. case_decide; subst; [|done].
  destruct (h !! id) as [o|]; simpl; [|by split; intros (? & ? & _)].
  split.
  - intros (o' & [= <-] & Hc). exists o. split; [done|]. by destruct o.
  - intros (o' & [= <-] & Hc). eexists. split; [done|]. by destruct o.
Qed.

(** What [TextObject.update] queues when the value of a rendered text
    changes: the cells under the indices of the new value at which the new
    and the previous value differ, and no other. *)
Lemma update_queues_changed_prefix
    (superUpdate : ObjId → Heap → Heap) (textWidth : string → Z)
    (self : ObjId) (h : Heap) (t : TextObject) (pv : string) :
  superUpdate self h !! self = Some (Text t) →
  rendered (text_super t) = true →
  previousValue t = Some pv →
  value t ≠ pv →
  ∃ h', update superUpdate textWidth self h = Some h' ∧
    ∀ r c,
      queued h' self r c ↔
      queued (superUpdate self h) self r c ∨
      (r = row (rectangle (text_super t)) ∧
       ∃ i : nat, (i < String.length (value t))%nat ∧
         c = column (rectangle (text_super t)) + Z.of_nat i ∧
         charAt (value t) i ≠ charAt pv i).
Proof.
  intros Hself Hrendered Hpv Hne. unfold update.
  rewrite Hself, Hpv, Hrendered.
  rewrite decide_False by congruence. simpl.
  eexists. split; [done|]. intros r c.
  rewrite finishUpdate_queued, queueChanged_queued_iff, Hself.
  split.
  - intros [?|(_ & _ & -> & i & Hi & -> & Hd)]; [by left|right].
    split; [done|]. exists i. apply elem_of_seq in Hi. split; [lia | done].
  - intros [?|(-> & i & Hi & -> & Hd)]; [by left|right].
    repeat split; try done.
    exists i. split; [apply elem_of_seq; lia | done].
Qed.

End Movement.

(** ** Painting into the canvas *)

Section Painting.
Import Draw.

Lemma omitHas_spec (cells : gmap Z (gset Z)) r c :
  omitHas (cells !! r) c = true ↔ c ∈ columnsOf cells r.
Proof.
  unfold omitHas, columnsOf. destruct (cells !! r); simpl.
  - apply bool_decide_eq_true.
  - split; [done | set_solver].
Qed.

Lemma cellAt_withQueueRow r cv r' c' :
  cellAt (withQueueRow r cv) r' c' = cellAt cv r' c'.
Proof. done. Qed.

Lemma columnsOf_ensureRow r cells r' :
  columnsOf (ensureRow r cells) r' = columnsOf cells r'.
Proof.
  unfold ensureRow, columnsOf. destruct (cells !! r) eqn:E; [done|].
  rewrite lookup_insert. case_decide; subst; [by rewrite E | done].
Qed.

Lemma inQueue_withQueueRow r cv r' c' :
  inQueue (withQueueRow r cv) r' c' ↔ inQueue cv r' c'.
Proof. unfold inQueue, withQueueRow; simpl. by rewrite columnsOf_ensureRow. Qed.

Lemma paint_is_Some r c cell cv :
  is_Some (frameBuffer cv !! r) → is_Some (paint r c cell cv).
Proof. intros [rowBuffer E]. unfold paint. rewrite E. by eexists. Qed.

Lemma paint_canvasSize r c cell cv cv' :
  paint r c cell cv = Some cv' → canvasSize cv' = canvasSize cv.
Proof.
  unfold paint. destruct (frameBuffer cv !! r); simpl; [|done].
  by intros [= <-].
Qed.

Lemma paint_row r c cell cv cv' r' :
  paint r c cell cv = Some cv' →
  is_Some (frameBuffer cv !! r') → is_Some (frameBuffer cv' !! r').
Proof.
  unfold paint. destruct (frameBuffer cv !! r) eqn:E; simpl; [|done].
  intros [= <-]; simpl. rewrite lookup_insert. by case_decide.
Qed.

Lemma paint_cellAt r c cell cv cv' r' c' :
  paint r c cell cv = Some cv' →
  cellAt cv' r' c' =
  if decide (r' = r ∧ c' = c) then Some cell else cellAt cv r' c'.
Proof.
  unfold paint, cellAt. destruct (frameBuffer cv !! r) as [rowBuffer|] eqn:E;
    simpl; [|done].
  intros [= <-]; simpl. rewrite lookup_insert.
  destruct (decide (r = r')) as [<-|Hr]; simpl.
  - rewrite lookup_insert, E; simpl.
    destruct (decide (c = c')) as [<-|Hc].
    + by rewrite decide_True.
    + rewrite decide_False; [done | by intros [_ ->]].
  - rewrite decide_False; [done | by intros [-> _]].
Qed.

Lemma paint_inQueue r c cell cv cv' r' c' :
  paint r c cell cv = Some cv' →
  inQueue cv' r' c' ↔ (r' = r ∧ c' = c) ∨ inQueue cv r' c'.
Proof.
  unfold paint, inQueue. destruct (frameBuffer cv !! r); simpl; [|done].
  intros [= <-]; simpl. rewrite columnsOf_addCell.
  case_decide as Hd; [subst; rewrite elem_of_union, elem_of_singleton|];
    intuition congruence.
Qed.

(** *** The loop of [TextObject.render] *)

Lemma renderLoop_total t omitColumns cs cv :
  is_Some (frameBuffer cv !! row (rectangle (text_super t))) →
  is_Some (renderLoop t omitColumns cs cv).
Proof.
  revert cv. induction cs as [|c cs IH]; intros cv Hrow; simpl; [by eexists|].
  destruct (_ <? 0); [by apply IH|].
  destruct (_ <=? _); [by eexists|].
  destruct (omitHas omitColumns _); [by apply IH|].
  destruct (paint_is_Some _ (column (rectangle (text_super t)) + Z.of_nat c)
              (style (text_super t) (charAt (value t) c)) _ Hrow) as [cv1 E].
  rewrite E; simpl. apply IH. eapply paint_row; eauto.
Qed.

Lemma renderLoop_canvasSize t omitColumns cs cv cv' :
  renderLoop t omitColumns cs cv = Some cv' → canvasSize cv' = canvasSize cv.
Proof.
  revert cv. induction cs as [|c cs IH]; intros cv; simpl; [by intros [= <-]|].
  destruct (_ <? 0); [by apply IH|].
  destruct (_ <=? _); [by intros [= <-]|].
  destruct (omitHas omitColumns _); [by apply IH|].
  intros Hloop. apply bind_Some in Hloop as (cv1 & E1 & E2).
  rewrite (IH _ E2). eapply paint_canvasSize; eauto.
Qed.

(** A cell that no turn of the loop addresses, that is omitted, or that is
    off the screen keeps its content and its place in (or out of) the
    queue. *)
Lemma renderLoop_frame t omitColumns cs cv cv' r' c' :
  renderLoop t omitColumns cs cv = Some cv' →
  r' ≠ row (rectangle (text_super t)) ∨
  (∀ i, i ∈ cs → column (rectangle (text_super t)) + Z.of_nat i ≠ c') ∨
  omitHas omitColumns c' = true ∨
  c' < 0 ∨ columns (canvasSize cv) ≤ c' →
  cellAt cv' r' c' = cellAt cv r' c' ∧ (inQueue cv' r' c' ↔ inQueue cv r' c').
Proof.
  revert cv. induction cs as [|c cs IH]; intros cv; simpl;
    [by intros [= <-]|].
  intros Hloop Hout.
  assert (∀ cv1, canvasSize cv1 = canvasSize cv →
          r' ≠ row (rectangle (text_super t)) ∨
          (∀ i, i ∈ cs → column (rectangle (text_super t)) + Z.of_nat i ≠ c') ∨
          omitHas omitColumns c' = true ∨
          c' < 0 ∨ columns (canvasSize cv1) ≤ c') as Hout'.
  { intros cv1 ->. destruct Hout as [?|[H|?]]; auto. right; left.
    intros i Hi. apply H. by apply list_elem_of_further. }
  destruct (_ <? 0) eqn:Hneg; [by apply IH, Hout'|].
  destruct (_ <=? _) eqn:Hbig.
  { injection Hloop as Heq. subst cv'. split; [done | tauto]. }
  destruct (omitHas omitColumns (column _ + Z.of_nat c)) eqn:Homit;
    [by apply IH, Hout'|].
  apply bind_Some in Hloop as (cv1 & E1 & E2).
  destruct (IH _ E2 (Hout' _ (paint_canvasSize _ _ _ _ _ E1))) as [-> ->].
  rewrite (paint_cellAt _ _ _ _ _ r' c' E1), (paint_inQueue _ _ _ _ _ r' c' E1).
  assert (¬ (r' = row (rectangle (text_super t)) ∧
             c' = column (rectangle (text_super t)) + Z.of_nat c)) as Hne.
  { intros [-> ->]. apply Z.ltb_ge in Hneg. apply Z.leb_gt in Hbig.
    destruct Hout as [?|[H|[H|?]]]; [done| |congruence|lia].
    apply (H c); [apply list_elem_of_here | done]. }
  rewrite decide_False by done. split; [done | tauto].
Qed.

(** Every character of the value whose column is on screen and not omitted
    is written, styled, and queued. *)
Lemma renderLoop_paints t omitColumns a n cv cv' (i : nat) :
  renderLoop t omitColumns (seq a n) cv = Some cv' →
  (a ≤ i < a + n)%nat →
  0 ≤ column (rectangle (text_super t)) + Z.of_nat i < columns (canvasSize cv) →
  omitHas omitColumns (column (rectangle (text_super t)) + Z.of_nat i) = false →
  cellAt cv' (row (rectangle (text_super t)))
    (column (rectangle (text_super t)) + Z.of_nat i)
    = Some (style (text_super t) (charAt (value t) i)) ∧
  inQueue cv' (row (rectangle (text_super t)))
    (column (rectangle (text_super t)) + Z.of_nat i).
Proof.
  revert a cv. induction n as [|n IH]; intros a cv; simpl; [lia|].
  intros Hloop Hi Hcol Homit.
  destruct (_ <? 0) eqn:Hneg.
  { apply (IH (S a) cv); auto. apply Z.ltb_lt in Hneg. lia. }
  destruct (_ <=? _) eqn:Hbig.
  { apply Z.leb_le in Hbig. lia. }
  destruct (omitHas omitColumns (column _ + Z.of_nat a)) eqn:Ho.
  { apply (IH (S a) cv); auto.
    assert (i ≠ a) by (intros ->; congruence). lia. }
  apply bind_Some in Hloop as (cv1 & E1 & E2).
  destruct (decide (i = a)) as [->|Hia].
  - destruct (renderLoop_frame _ _ _ _ _
                (row (rectangle (text_super t)))
                (column (rectangle (text_super t)) + Z.of_nat a) E2) as [-> ->].
    { right; left. intros j Hj. apply elem_of_seq in Hj. lia. }
    rewrite (paint_cellAt _ _ _ _ _ _ _ E1), (paint_inQueue _ _ _ _ _ _ _ E1).
    rewrite decide_True by done. auto.
  - apply (IH (S a) cv1); auto; [lia|].
    by rewrite (paint_canvasSize _ _ _ _ _ E1).
Qed.

(** What [render] does on a row of the screen whose frame-buffer row exists.
    It never writes or queues a column of the omit set.  When the size of
    the omit set differs from [rectangle.width] (or the row has no omit set),
    it writes [style(value[i])] and queues the column for every character
    whose column is on screen and not in the omit set; when the size equals
    [rectangle.width], it leaves the canvas as it is, whatever the set
    holds.  The omit set of the row is cleared in both cases. *)
Lemma render_spec (cv : Canvas) (t : TextObject) :
  0 ≤ textRow t < rows (canvasSize cv) →
  is_Some (frameBuffer cv !! textRow t) →
  ∃ cv', render cv t = Some (cv', clearTextOmit (textRow t) t) ∧
    (∀ c, c ∈ omitted t →
       cellAt cv' (textRow t) c = cellAt cv (textRow t) c ∧
       (inQueue cv' (textRow t) c ↔ inQueue cv (textRow t) c)) ∧
    (sizeIs (omitCells (text_super t) !! textRow t)
            (width (rectangle (text_super t))) = false →
     ∀ i : nat, (i < String.length (value t))%nat →
       0 ≤ textColumn t i < columns (canvasSize cv) →
       textColumn t i ∉ omitted t →
       cellAt cv' (textRow t) (textColumn t i)
         = Some (style (text_super t) (charAt (value t) i)) ∧
       inQueue cv' (textRow t) (textColumn t i)) ∧
    (sizeIs (omitCells (text_super t) !! textRow t)
            (width (rectangle (text_super t))) = true →
     cv' = cv).
Proof.
  unfold textRow, textColumn, omitted. intros Hrow Hbuf. unfold render.
  set (rect := rectangle (text_super t)) in *.
  assert ((row rect <? 0) || (rows (canvasSize cv) <=? row rect) = false) as ->.
  { apply orb_false_iff. split; [apply Z.ltb_ge | apply Z.leb_gt]; lia. }
  destruct (sizeIs _ _) eqn:Hsize.
  - exists cv. by repeat split.
  - destruct (renderLoop_total t (omitCells (text_super t) !! row rect)
                (seq 0 (String.length (value t))) (withQueueRow (row rect) cv))
      as [cv' E]; [done|].
    rewrite E. exists cv'. split; [done|]. split; [|split; [|done]].
    + intros c Hc.
      destruct (renderLoop_frame _ _ _ _ _ (row rect) c E) as [-> ->].
      { right; right; left. by apply omitHas_spec. }
      by rewrite inQueue_withQueueRow.
    + intros _ i Hi Hcol Hni.
      apply (renderLoop_paints _ _ _ _ _ _ i E); [lia|done|].
      apply not_true_is_false. by rewrite omitHas_spec.
Qed.

(** The test [omitColumns?.size === rectangle.width], read on the sets. *)
Lemma sizeIs_spec (t : TextObject) :
  sizeIs (omitCells (text_super t) !! textRow t)
         (width (rectangle (text_super t))) = true ↔
  is_Some (omitCells (text_super t) !! textRow t) ∧
  Z.of_nat (size (omitted t)) = width (rectangle (text_super t)).
Proof.
  unfold sizeIs, omitted, columnsOf.
  destruct (omitCells (text_super t) !! textRow t); simpl.
  - rewrite Z.eqb_eq. split; [by split; [eexists|] | by intros [_ ?]].
  - split; [done | by intros [[? ?] _]].
Qed.

(** An omit set that holds only columns of the rectangle and is as large as
    the rectangle is wide holds all its columns. *)
Lemma omit_fills_rectangle (s : gset Z) (col w c : Z) :
  (∀ x, x ∈ s → col ≤ x < col + w) →
  Z.of_nat (size s) = w →
  col ≤ c < col + w →
  c ∈ s.
Proof.
  intros Hsub Hsize Hc.
  set (R := list_to_set (seqZ col w) : gset Z).
  assert (s ⊆ R) as Hin.
  { intros x Hx. apply elem_of_list_to_set, elem_of_seqZ. by apply Hsub. }
  assert (size R = Z.to_nat w) as HR.
  { unfold R. rewrite size_list_to_set by apply NoDup_seqZ. apply length_seqZ. }
  assert (s ≡ R) as Heq.
  { apply set_subseteq_size_equiv; [done | lia]. }
  apply Heq. apply elem_of_list_to_set, elem_of_seqZ. done.
Qed.

(** C3, with the states of the omit set the size test is made for.  On a row
    of the screen whose frame-buffer row exists, and for an omit set whose
    size differs from [rectangle.width], or that holds only columns of the
    rectangle of a text no longer than the rectangle is wide, [render] writes
    [style(value[i])] and queues the column for every character whose column
    is on screen and not in the omit set, and neither writes nor queues a
    column that is in the omit set. *)
Theorem C3_render_skips_exactly_the_omitted_cells (cv : Canvas) (t : TextObject) :
  0 ≤ textRow t < rows (canvasSize cv) →
  is_Some (frameBuffer cv !! textRow t) →
  sizeIs (omitCells (text_super t) !! textRow t)
         (width (rectangle (text_super t))) = false ∨
  ((∀ c, c ∈ omitted t →
      column (rectangle (text_super t)) ≤ c
        < column (rectangle (text_super t)) + width (rectangle (text_super t))) ∧
   Z.of_nat (String.length (value t)) ≤ width (rectangle (text_super t))) →
  ∃ cv', render cv t = Some (cv', clearTextOmit (textRow t) t) ∧
    (∀ i : nat, (i < String.length (value t))%nat →
       0 ≤ textColumn t i < columns (canvasSize cv) →
       textColumn t i ∉ omitted t →
       cellAt cv' (textRow t) (textColumn t i)
         = Some (style (text_super t) (charAt (value t) i)) ∧
       inQueue cv' (textRow t) (textColumn t i)) ∧
    (∀ c, c ∈ omitted t →
       cellAt cv' (textRow t) c = cellAt cv (textRow t) c ∧
       (inQueue cv' (textRow t) c ↔ inQueue cv (textRow t) c)).
Proof.
  intros Hrow Hbuf Hstate.
  destruct (render_spec cv t Hrow Hbuf) as (cv' & E & Hskip & Hpaint & Hnone).
  exists cv'. split; [done|]. split; [|done].
  destruct (sizeIs _ _) eqn:Hsize; [|by apply Hpaint].
  destruct Hstate as [?|[Hsub Hlen]]; [done|].
  intros i Hi _ Hni. exfalso. apply Hni.
  apply sizeIs_spec in Hsize as [_ Hsize].
  eapply omit_fills_rectangle; [exact Hsub | exact Hsize |].
  unfold textColumn. lia.
Qed.

(** [render] writes and queues on the screen only: a cell that is off the
    text's row, off the screen, omitted, or not under a character of the value
    is left as it was. *)
Lemma render_elsewhere cv t cv' t' r c :
  render cv t = Some (cv', t') →
  ¬ (r = textRow t ∧ 0 ≤ r < rows (canvasSize cv) ∧
     0 ≤ c < columns (canvasSize cv) ∧ (c ∉ omitted t) ∧
     ∃ i : nat, (i < String.length (value t))%nat ∧ c = textColumn t i) →
  cellAt cv' r c = cellAt cv r c ∧ (inQueue cv' r c ↔ inQueue cv r c).
Proof.
  unfold render, textRow, textColumn, omitted.
  set (rect := rectangle (text_super t)).
  destruct (_ || _) eqn:Hrow; [by intros [= <- <-]|].
  destruct (sizeIs _ _); [by intros [= <- <-]|].
  intros H Hnot. apply bind_Some in H as (cv1 & E & Heq). injection Heq as <- <-.
  apply orb_false_iff in Hrow as [H1 H2].
  apply Z.ltb_ge in H1. apply Z.leb_gt in H2.
  destruct (renderLoop_frame _ _ _ _ _ r c E) as [-> ->];
    [|by rewrite inQueue_withQueueRow].
  destruct (decide (r = row rect)) as [->|]; [|by left].
  destruct (omitHas (omitCells (text_super t) !! row rect) c) eqn:Ho;
    [by right; right; left|].
  destruct (decide (0 ≤ c < columns (canvasSize cv))) as [Hc|];
    [|right; right; right; simpl; lia].
  right; left. intros i Hi Heq. apply Hnot.
  repeat split; try lia.
  - intros Hin. apply omitHas_spec in Hin. unfold textRow in Hin.
    subst rect. congruence.
  - exists i. apply elem_of_seq in Hi. split; [lia | done].
Qed.

(** *** The loop of [TextObject.rerender] *)

Lemma skipColumn_spec t (size : CanvasSize) c :
  skipColumn t (omitCells (text_super t) !! textRow t) size c = false ↔
  0 ≤ c < columns size ∧
  column (rectangle (text_super t)) ≤ c
    < column (rectangle (text_super t)) + width (rectangle (text_super t)) ∧
  c ∉ omitted t.
Proof.
  unfold skipColumn, omitted. rewrite !orb_false_iff.
  rewrite !Z.ltb_ge, !Z.leb_gt, <- omitHas_spec, not_true_iff_false.
  intuition lia.
Qed.

Lemma rerenderLoop_total t omitColumns cs cv :
  is_Some (frameBuffer cv !! row (rectangle (text_super t))) →
  is_Some (rerenderLoop t omitColumns cs cv).
Proof.
  revert cv. induction cs as [|c cs IH]; intros cv Hrow; simpl; [by eexists|].
  destruct (skipColumn _ _ _ _); [by apply IH|].
  destruct (paint_is_Some _ c
              (style (text_super t)
                 (charAt (value t)
                    (Z.to_nat (c - column (rectangle (text_super t))))))
              _ Hrow) as [cv1 E].
  rewrite E; simpl. apply IH. eapply paint_row; eauto.
Qed.

Lemma rerenderLoop_frame t omitColumns cs cv cv' r' c' :
  rerenderLoop t omitColumns cs cv = Some cv' →
  r' ≠ row (rectangle (text_super t)) ∨ c' ∉ cs ∨
  skipColumn t omitColumns (canvasSize cv) c' = true →
  cellAt cv' r' c' = cellAt cv r' c' ∧ (inQueue cv' r' c' ↔ inQueue cv r' c').
Proof.
  revert cv. induction cs as [|c cs IH]; intros cv; simpl;
    [by intros [= <-]|].
  intros Hloop Hout.
  assert (∀ cv1, canvasSize cv1 = canvasSize cv →
          r' ≠ row (rectangle (text_super t)) ∨ c' ∉ cs ∨
          skipColumn t omitColumns (canvasSize cv1) c' = true) as Hout'.
  { intros cv1 ->. destruct Hout as [?|[H|?]]; auto. right; left.
    intros Hin. apply H. by apply list_elem_of_further. }
  destruct (skipColumn t omitColumns (canvasSize cv) c) eqn:Hskip;
    [by apply IH, Hout'|].
  apply bind_Some in Hloop as (cv1 & E1 & E2).
  destruct (IH _ E2 (Hout' _ (paint_canvasSize _ _ _ _ _ E1))) as [-> ->].
  rewrite (paint_cellAt _ _ _ _ _ r' c' E1), (paint_inQueue _ _ _ _ _ r' c' E1).
  assert (¬ (r' = row (rectangle (text_super t)) ∧ c' = c)) as Hne.
  { intros [-> ->]. destruct Hout as [?|[H|H]]; [done| |congruence].
    apply H, list_elem_of_here. }
  rewrite decide_False by done. split; [done | tauto].
Qed.

(** [TextObject.rerender] writes and queues only cells of its row that are
    in its rerender set, inside its rectangle, on the screen and not
    omitted. *)
Lemma text_rerender_elsewhere cv t cv' t' r c :
  rerender cv t = Some (cv', t') →
  ¬ (r = textRow t ∧ 0 ≤ r < rows (canvasSize cv) ∧
     c ∈ columnsOf (rerenderCells (text_super t)) (textRow t) ∧
     0 ≤ c < columns (canvasSize cv) ∧
     column (rectangle (text_super t)) ≤ c
       < column (rectangle (text_super t)) + width (rectangle (text_super t)) ∧
     c ∉ omitted t) →
  cellAt cv' r c = cellAt cv r c ∧ (inQueue cv' r c ↔ inQueue cv r c).
Proof.
  unfold rerender. fold (textRow t).
  destruct (rerenderCells (text_super t) !! textRow t) as [cols|] eqn:Hcols;
    [|by intros [= <- <-]].
  destruct (sizeIs _ _); [by intros [= <- <-]|].
  destruct (_ || _) eqn:Hrow; [by intros [= <- <-]|].
  intros H Hnot. apply bind_Some in H as (cv1 & E & Heq). injection Heq as <- <-.
  apply orb_false_iff in Hrow as [H1 H2].
  apply Z.ltb_ge in H1. apply Z.leb_gt in H2.
  destruct (rerenderLoop_frame _ _ _ _ _ r c E) as [-> ->];
    [|by rewrite inQueue_withQueueRow].
  destruct (decide (r = textRow t)) as [->|]; [|by left].
  destruct (decide (c ∈ cols)) as [Hin|Hin];
    [|right; left; by rewrite elem_of_elements].
  right; right. apply not_false_iff_true. intros Hskip.
  apply skipColumn_spec in Hskip. apply Hnot.
  unfold columnsOf. rewrite Hcols. simpl in *. tauto.
Qed.

(** On the path that paints, [TextObject.rerender] leaves both the rerender
    set and the omit set of the row empty. *)
Lemma text_rerender_clears cv t cv' t' :
  rerender cv t = Some (cv', t') →
  is_Some (rerenderCells (text_super t) !! textRow t) →
  sizeIs (omitCells (text_super t) !! textRow t)
         (width (rectangle (text_super t))) = false →
  0 ≤ textRow t < rows (canvasSize cv) →
  columnsOf (rerenderCells (text_super t')) (textRow t) = ∅ ∧
  columnsOf (omitCells (text_super t')) (textRow t) = ∅.
Proof.
  unfold rerender. fold (textRow t). intros H [cols Hcols] Hsize Hrow.
  rewrite Hcols, Hsize in H.
  assert ((textRow t <? 0) || (rows (canvasSize cv) <=? textRow t) = false)
    as Hb.
  { apply orb_false_iff. split; [apply Z.ltb_ge | apply Z.leb_gt]; lia. }
  rewrite Hb in H. apply bind_Some in H as (cv1 & E & Heq). injection Heq as <- <-.
  unfold columnsOf, clearTextOmit, clearTextRerender, clearRow; simpl.
  rewrite !lookup_alter, !decide_True, Hcols by done. split; [done|].
  by destruct (omitCells (text_super t) !! textRow t).
Qed.

End Painting.

(** ** Painting a box *)

Section BoxPainting.
Import Draw BoxObj.

Lemma cellAt_paintBox r c cell cv r' c' :
  cellAt (paintBox r c cell cv) r' c' =
  if decide (r' = r ∧ c' = c) then Some cell else cellAt cv r' c'.
Proof.
  unfold paintBox, cellAt; simpl. rewrite lookup_insert.
  destruct (decide (r = r')) as [<-|Hr]; simpl.
  - rewrite lookup_insert. destruct (decide (c = c')) as [<-|Hc].
    + by rewrite decide_True.
    + rewrite decide_False by (by intros [_ ->]).
      by destruct (frameBuffer cv !! r).
  - rewrite decide_False; [done | by intros [-> _]].
Qed.

Lemma inQueue_paintBox r c cell cv r' c' :
  inQueue (paintBox r c cell cv) r' c' ↔ (r' = r ∧ c' = c) ∨ inQueue cv r' c'.
Proof.
  unfold paintBox, inQueue; simpl. rewrite columnsOf_addCell.
  case_decide as Hd; [subst; rewrite elem_of_union, elem_of_singleton|];
    intuition congruence.
Qed.

Lemma cellAt_ensureBuffer r cv q r' c' :
  cellAt (mkCanvas (canvasSize cv) (ensureBuffer r (frameBuffer cv)) q) r' c' =
  cellAt cv r' c'.
Proof.
  unfold cellAt, ensureBuffer; simpl.
  destruct (frameBuffer cv !! r) eqn:E; [done|].
  rewrite lookup_insert. case_decide; subst; [by rewrite E | done].
Qed.

Lemma rerenderColumns_frame b colRange omitColumns r cs cv r' c' :
  r' ≠ r ∨ c' ∉ cs ∨ skipBoxColumn b colRange omitColumns c' = true →
  let cv' := foldl (rerenderColumn b colRange omitColumns r) cv cs in
  cellAt cv' r' c' = cellAt cv r' c' ∧ (inQueue cv' r' c' ↔ inQueue cv r' c').
Proof.
  revert cv. induction cs as [|c cs IH]; intros cv Hout; simpl; [done|].
  assert (r' ≠ r ∨ c' ∉ cs ∨ skipBoxColumn b colRange omitColumns c' = true)
    as Hout'.
  { destruct Hout as [?|[H|?]]; auto. right; left.
    intros Hin. apply H. by apply list_elem_of_further. }
  destruct (IH (rerenderColumn b colRange omitColumns r cv c) Hout') as [-> ->].
  unfold rerenderColumn.
  destruct (skipBoxColumn b colRange omitColumns c) eqn:Hskip; [done|].
  rewrite cellAt_paintBox, inQueue_paintBox.
  assert (¬ (r' = r ∧ c' = c)) as Hne.
  { intros [-> ->]. destruct Hout as [?|[H|H]]; [done| |congruence].
    apply H, list_elem_of_here. }
  rewrite decide_False by done. split; [done | tauto].
Qed.

Lemma withCells_same b :
  b = withCells (rerenderCells (box_super b)) (omitCells (box_super b)) b.
Proof. by destruct b as [[] ?]. Qed.

(** One row: only its own queued, unskipped cells change, and only its own
    entries of the two tables do. *)
Lemma rerenderRow_frame rRange colRange cv b r :
  (∃ rc oc, (rerenderRow rRange colRange (cv, b) r).2 = withCells rc oc b ∧
     ∀ r0, r0 ≠ r →
       rc !! r0 = rerenderCells (box_super b) !! r0 ∧
       oc !! r0 = omitCells (box_super b) !! r0) ∧
  ∀ r' c',
    ¬ (r' = r ∧ r < rRange ∧
       c' ∈ columnsOf (rerenderCells (box_super b)) r ∧
       skipBoxColumn b colRange (omitCells (box_super b) !! r) c' = false) →
    cellAt (rerenderRow rRange colRange (cv, b) r).1 r' c' = cellAt cv r' c' ∧
    (inQueue (rerenderRow rRange colRange (cv, b) r).1 r' c' ↔ inQueue cv r' c').
Proof.
  unfold rerenderRow.
  destruct (rerenderCells (box_super b) !! r) as [cols|] eqn:Hcols; simpl.
  2: { split; [|done]. eexists _, _. split; [apply withCells_same | done]. }
  destruct (rRange <=? r) eqn:Hr; simpl.
  { split; [|done]. eexists _, _. split; [apply withCells_same | done]. }
  apply Z.leb_gt in Hr.
  destruct (sizeIs _ _); simpl.
  { split; [|done].
    exists (rerenderCells (box_super b)), (clearRow r (omitCells (box_super b))).
    split; [by destruct b as [[] ?]|].
    intros r0 Hr0. split; [done|]. unfold clearRow. by rewrite lookup_alter_ne. }
  split.
  - exists (clearRow r (rerenderCells (box_super b))),
           (clearRow r (omitCells (box_super b))).
    split; [by destruct b as [[] ?]|].
    intros r0 Hr0. unfold clearRow. by rewrite !lookup_alter_ne.
  - intros r' c' Hnot.
    destruct (rerenderColumns_frame b colRange (omitCells (box_super b) !! r) r
                (elements cols)
                (mkCanvas (canvasSize cv) (ensureBuffer r (frameBuffer cv))
                   (ensureRow r (rerenderQueue cv))) r' c') as [-> ->].
    + destruct (decide (r' = r)) as [->|]; [|by left].
      destruct (decide (c' ∈ cols)) as [Hin|Hin];
        [|right; left; by rewrite elem_of_elements].
      right; right. apply not_false_iff_true. intros Hskip. apply Hnot.
      unfold columnsOf. rewrite Hcols. by simpl.
    + rewrite cellAt_ensureBuffer. unfold inQueue; simpl.
      by rewrite columnsOf_ensureRow.
Qed.

Lemma rerenderRows_frame rRange colRange rs :
  NoDup rs → ∀ cv b,
  (∃ rc oc, (foldl (rerenderRow rRange colRange) (cv, b) rs).2 = withCells rc oc b ∧
     ∀ r0, r0 ∉ rs →
       rc !! r0 = rerenderCells (box_super b) !! r0 ∧
       oc !! r0 = omitCells (box_super b) !! r0) ∧
  ∀ r' c',
    ¬ (r' ∈ rs ∧ r' < rRange ∧
       c' ∈ columnsOf (rerenderCells (box_super b)) r' ∧
       skipBoxColumn b colRange (omitCells (box_super b) !! r') c' = false) →
    cellAt (foldl (rerenderRow rRange colRange) (cv, b) rs).1 r' c'
      = cellAt cv r' c' ∧
    (inQueue (foldl (rerenderRow rRange colRange) (cv, b) rs).1 r' c'
       ↔ inQueue cv r' c').
Proof.
  induction 1 as [|r rs Hr Hnd IH]; intros cv b; cbn [foldl].
  { split; [|done]. eexists _, _. split; [apply withCells_same | done]. }
  destruct (rerenderRow_frame rRange colRange cv b r)
    as [(rc1 & oc1 & Hb1 & Hsame1) Hcv1].
  destruct (rerenderRow rRange colRange (cv, b) r) as [cv1 b1].
  cbn [fst snd] in *. subst b1.
  destruct (IH cv1 (withCells rc1 oc1 b)) as [(rc & oc & Hb & Hsame) Hcv].
  split.
  - exists rc, oc. split; [exact Hb|].
    intros r0 Hr0. apply not_elem_of_cons in Hr0 as [Hne Hr0].
    destruct (Hsame r0 Hr0) as [-> ->]. simpl. by apply Hsame1.
  - intros r' c' Hnot.
    destruct (Hcv r' c') as [-> ->].
    + intros (Hin & Hlt & Hc & Hskip). apply Hnot.
      assert (r' ≠ r) as Hne by (intros ->; done).
      destruct (Hsame1 r' Hne) as [E1 E2].
      unfold columnsOf in *. simpl in Hc, Hskip. rewrite E1 in Hc.
      rewrite E2 in Hskip. split; [by apply list_elem_of_further | done].
    + apply Hcv1. intros (-> & Hlt & Hc & Hskip). apply Hnot.
      split; [apply list_elem_of_here | done].
Qed.

(** [BoxObject.rerender] changes the frame buffer and the queue only at cells
    that are in the box's rerender set, not omitted, at or after the first
    row and column of its rectangle, and before [rowRange] and
    [columnRange].  Nothing bounds them from below by the screen or by the
    view. *)
Lemma box_rerender_elsewhere cv b r c :
  ¬ (row (rectangle (box_super b)) ≤ r < rowRange cv b ∧
     column (rectangle (box_super b)) ≤ c < columnRange cv b ∧
     c ∈ columnsOf (rerenderCells (box_super b)) r ∧
     c ∉ columnsOf (omitCells (box_super b)) r) →
  cellAt (BoxObj.rerender cv b).1 r c = cellAt cv r c ∧
  (inQueue (BoxObj.rerender cv b).1 r c ↔ inQueue cv r c).
Proof.
  intros Hnot. unfold BoxObj.rerender.
  apply rerenderRows_frame; [apply NoDup_seqZ|].
  intros (Hin & Hlt & Hc & Hskip). apply Hnot.
  apply elem_of_seqZ in Hin. unfold skipBoxColumn in Hskip.
  apply orb_false_iff in Hskip as [Hskip H3].
  apply orb_false_iff in Hskip as [H1 H2].
  apply Z.ltb_ge in H2. apply Z.leb_gt in H3.
  repeat split; try lia; try done.
  intros Ho. apply omitHas_spec in Ho. congruence.
Qed.

End BoxPainting.

(** ** The component registry *)

Section Sorting.
Import Component.

Lemma sortedByPriority_StronglySorted w l :
  sortedByPriority w l ↔ StronglySorted (lePriority w) l.
Proof.
  split.
  - induction l as [|x l IH]; intros H; constructor.
    + apply IH. intros i j a b Hij Ha Hb.
      apply (H (S i) (S j)); [lia | done | done].
    + apply Forall_forall. intros y Hy.
      apply list_elem_of_lookup in Hy as [k Hk].
      apply (H 0%nat (S k)); [lia | done | done].
  - induction 1 as [|x l Hs IH Hall]; intros i j a b Hij Ha Hb.
    + by rewrite lookup_nil in Ha.
    + destruct j as [|j]; [lia|]. destruct i as [|i]; simpl in *.
      * injection Ha as <-. rewrite Forall_forall in Hall.
        apply Hall. by eapply list_elem_of_lookup_2.
      * apply (IH i j); [lia | done | done].
Qed.

Lemma insertBy_elem_of {A} (compare : A → A → Z) x l y :
  y ∈ insertBy compare x l ↔ y = x ∨ y ∈ l.
Proof.
  induction l as [|z l IH]; simpl.
  - rewrite list_elem_of_singleton, elem_of_nil. tauto.
  - destruct (_ <=? 0); rewrite !elem_of_cons; [tauto|].
    rewrite IH. tauto.
Qed.

Lemma sortBy_elem_of {A} (compare : A → A → Z) l y :
  y ∈ sortBy compare l ↔ y ∈ l.
Proof.
  unfold sortBy. induction l as [|x l IH]; simpl; [done|].
  rewrite insertBy_elem_of, elem_of_cons, IH. tauto.
Qed.

Lemma insertBy_sorted w x l :
  StronglySorted (lePriority w) l →
  StronglySorted (lePriority w) (insertBy (compareFn w) x l).
Proof.
  induction 1 as [|y l Hs IH Hall]; simpl.
  - repeat constructor.
  - unfold compareFn at 1. destruct (_ <=? 0) eqn:E.
    + apply Z.leb_le in E. constructor; [by constructor|].
      constructor; [unfold lePriority; lia|].
      eapply Forall_impl; [exact Hall|]. unfold lePriority. intros; lia.
    + apply Z.leb_gt in E. constructor; [done|].
      apply Forall_forall. intros z Hz. apply insertBy_elem_of in Hz as [->|Hz].
      * unfold lePriority. lia.
      * rewrite Forall_forall in Hall. by apply Hall.
Qed.

(** The list [createComponent] stores back is in non-decreasing priority
    order, whatever order it finds. *)
Lemma sortBy_sorted w l : sortedByPriority w (sortBy (compareFn w) l).
Proof.
  apply sortedByPriority_StronglySorted. unfold sortBy.
  induction l as [|x l IH]; simpl; [constructor | by apply insertBy_sorted].
Qed.

(** Filtering keeps the order of what it keeps. *)
Lemma keep_sorted w r l : sortedByPriority w l → sortedByPriority w (keep r l).
Proof.
  rewrite !sortedByPriority_StronglySorted. unfold keep.
  induction 1 as [|y l Hs IH Hall]; [constructor|].
  rewrite filter_cons. case_decide; [|done].
  constructor; [done|]. apply Forall_forall. intros z Hz.
  apply list_elem_of_filter in Hz as [_ Hz].
  rewrite Forall_forall in Hall. by apply Hall.
Qed.

(** The order of a list only depends on the priorities of its elements. *)
Lemma sortedByPriority_transfer w w' l :
  (∀ x, x ∈ l → priorityOf w' x = priorityOf w x) →
  sortedByPriority w l → sortedByPriority w' l.
Proof.
  intros Hp Hs i j a b Hij Ha Hb.
  rewrite !Hp by (by eapply list_elem_of_lookup_2). by eapply Hs.
Qed.

End Sorting.

Section Registry.
Import Component.

Lemma componentsSorted_sortedExcept w : componentsSorted w ↔ sortedExcept None w.
Proof.
  unfold componentsSorted, sortedExcept. split; intros H i t Ht; eauto.
Qed.

Lemma storeStable_refl w : storeStable w w.
Proof. repeat split; intros x c Hc; exists c; by repeat split. Qed.

Lemma storeStable_same_store w w' :
  componentId w' = componentId w → store w' = store w → storeStable w w'.
Proof.
  intros E1 E2. split; [done|]. rewrite E2.
  split; intros x c Hc; exists c; by repeat split.
Qed.

Lemma storeStable_trans w1 w2 w3 :
  storeStable w1 w2 → storeStable w2 w3 → storeStable w1 w3.
Proof.
  intros (E1 & A1 & B1) (E2 & A2 & B2). split; [congruence|]. split.
  - intros x c Hc. destruct (A1 _ _ Hc) as (c2 & Hc2 & ? & ?).
    destruct (A2 _ _ Hc2) as (c3 & Hc3 & ? & ?).
    exists c3. repeat split; [done | congruence | congruence].
  - intros x c Hc. destruct (B2 _ _ Hc) as (c2 & Hc2 & ? & ?).
    destruct (B1 _ _ Hc2) as (c1 & Hc1 & ? & ?).
    exists c1. repeat split; [done | congruence | congruence].
Qed.

Lemma storeStable_priorityOf w w' x :
  storeStable w w' → priorityOf w' x = priorityOf w x.
Proof.
  intros (_ & A & B). unfold priorityOf.
  destruct (store w !! x) as [c|] eqn:E.
  - destruct (A _ _ E) as (c' & -> & _ & Hp). simpl. by rewrite Hp.
  - destruct (store w' !! x) as [c'|] eqn:E'; [|done].
    destruct (B _ _ E') as (c & Hc & _). congruence.
Qed.

Lemma storeStable_is_Some w w' x :
  storeStable w w' → is_Some (store w !! x) → is_Some (store w' !! x).
Proof. intros (_ & A & _) [c Hc]. destruct (A _ _ Hc) as (c' & -> & _). by eexists. Qed.

(** Rewriting the children of a component changes neither ids nor
    priorities. *)
Lemma alter_children_stable (f : list Ref → list Ref) p w insts :
  storeStable w
    (mkWorld (componentId w)
       (alter (λ c, set_children (f (children c)) c) p (store w)) insts).
Proof.
  split; [done|]. split; intros x c Hc; simpl in *.
  - rewrite lookup_alter. case_decide; subst.
    + rewrite Hc. eexists. by repeat split.
    + exists c. by repeat split.
  - rewrite lookup_alter in Hc. case_decide; subst.
    + destruct (store w !! x) as [c0|]; [|done]. injection Hc as <-.
      exists c0. by repeat split.
    + exists c. by repeat split.
Qed.

Lemma pushChild_stable object r w : storeStable w (pushChild object r w).
Proof.
  destruct object; simpl; [by apply storeStable_same_store|].
  apply (alter_children_stable (λ l, l ++ [r])).
Qed.

Lemma filterChildren_stable object r w : storeStable w (filterChildren object r w).
Proof.
  destruct object; simpl; [by apply storeStable_same_store|].
  apply (alter_children_stable (keep r)).
Qed.

Lemma onComponents_stable f i w : storeStable w (onComponents f i w).
Proof. by apply storeStable_same_store. Qed.

Lemma pushChild_components object r w i t' :
  instances (pushChild object r w) !! i = Some t' →
  ∃ t, instances w !! i = Some t ∧ components t' = components t.
Proof.
  destruct object as [j|p]; simpl; [|by eauto].
  rewrite lookup_alter. case_decide; subst; [|by eauto].
  destruct (instances w !! i) as [t|]; [|done]. intros [= <-]. by exists t.
Qed.

Lemma filterChildren_components object r w i t' :
  instances (filterChildren object r w) !! i = Some t' →
  ∃ t, instances w !! i = Some t ∧ components t' = components t.
Proof.
  destruct object as [j|p]; simpl; [|by eauto].
  rewrite lookup_alter. case_decide; subst; [|by eauto].
  destruct (instances w !! i) as [t|]; [|done]. intros [= <-]. by exists t.
Qed.

Lemma onComponents_components f i w j t' :
  instances (onComponents f i w) !! j = Some t' →
  ∃ t, instances w !! j = Some t ∧
    components t' = if decide (i = j) then f (components t) else components t.
Proof.
  unfold onComponents; simpl. rewrite lookup_alter.
  case_decide; subst; [|by eauto].
  destruct (instances w !! j) as [t|]; [|done]. intros [= <-]. by exists t.
Qed.

(** An operation that leaves every component list as it is preserves
    closedness and order. *)
Lemma same_components_inv skip w w' :
  storeStable w w' →
  (∀ i t', instances w' !! i = Some t' →
     ∃ t, instances w !! i = Some t ∧ components t' = components t) →
  closed w ∧ sortedExcept skip w → closed w' ∧ sortedExcept skip w'.
Proof.
  intros Hst Hsame [Hc Hs]. split.
  - intros i t' r Ht' Hr. destruct (Hsame _ _ Ht') as (t & Ht & E).
    rewrite E in Hr. eapply storeStable_is_Some; eauto.
  - intros i t' Ht' Hi. destruct (Hsame _ _ Ht') as (t & Ht & E).
    rewrite E. eapply sortedByPriority_transfer; [|by eapply Hs].
    intros x _. by apply storeStable_priorityOf.
Qed.

(** [instance.components = instance.components.filter(...)] *)
Lemma keep_inv r i w :
  closed w ∧ componentsSorted w →
  closed (onComponents (keep r) i w) ∧ componentsSorted (onComponents (keep r) i w).
Proof.
  intros [Hc Hs]. split.
  - intros j t' x Ht' Hx.
    destruct (onComponents_components _ _ _ _ _ Ht') as (t & Ht & E).
    rewrite E in Hx. apply (Hc j t x Ht).
    case_decide; [|done]. unfold keep in Hx.
    by apply list_elem_of_filter in Hx as [_ ?].
  - intros j t' Ht'.
    destruct (onComponents_components _ _ _ _ _ Ht') as (t & Ht & E).
    rewrite E. apply (sortedByPriority_transfer w); [done|].
    case_decide; [apply keep_sorted|]; by eapply Hs.
Qed.

Lemma removeComponent_stable fuel r w w' :
  removeComponent fuel r w = Some w' → storeStable w w'.
Proof.
  revert r w w'. induction fuel as [|n IH]; intros r w w'; simpl; [done|].
  intros H. apply bind_Some in H as (component & _ & H).
  apply bind_Some in H as (kids & _ & H).
  set (w2 := onComponents _ _ _) in H.
  assert (storeStable w w2) as Hw2.
  { eapply storeStable_trans; [apply filterChildren_stable|].
    apply onComponents_stable. }
  clearbody w2. revert w2 Hw2 H.
  induction kids as [|k kids IHk]; intros w2 Hw2; simpl.
  - by intros [= <-].
  - destruct (removeComponent n k w2) as [w3|] eqn:E; simpl.
    + apply IHk. eapply storeStable_trans; [done | by eapply IH].
    + intros H. exfalso. clear -H. induction kids; simpl in *; [done | auto].
Qed.

Lemma removeComponent_S n r w :
  removeComponent (S n) r w =
  (component ← store w !! r;
   let w2 := onComponents (keep r) (instance component)
               (filterChildren (parent component) r w) in
   kids ← children <$> store w2 !! r;
   foldl (λ acc child, acc ≫= removeComponent n child) (Some w2) kids).
Proof. done. Qed.

Lemma foldl_bind_None {A B} (f : B → A → option A) (l : list B) :
  foldl (λ acc x, acc ≫= f x) None l = None.
Proof. by induction l. Qed.

(** More fuel than needed changes nothing. *)
Lemma removeComponent_fuel fuel r w w' :
  removeComponent fuel r w = Some w' → removeComponent (S fuel) r w = Some w'.
Proof.
  revert r w w'. induction fuel as [|n IH]; intros r w w'; [done|].
  rewrite (removeComponent_S n), (removeComponent_S (S n)).
  intros H. apply bind_Some in H as (component & Hc & H).
  rewrite Hc. cbn [mbind option_bind]. cbv zeta in H |- *.
  apply bind_Some in H as (kids & Hk & H).
  rewrite Hk. cbn [mbind option_bind]. clear Hk.
  revert H. generalize (onComponents (keep r) (instance component)
                          (filterChildren (parent component) r w)).
  induction kids as [|k kids IHk]; intros w2; cbn [foldl]; [done|].
  cbn [mbind option_bind].
  destruct (removeComponent n k w2) as [w3|] eqn:E.
  - rewrite (IH _ _ _ E). exact (IHk w3).
  - by rewrite foldl_bind_None.
Qed.

Lemma removeComponent_inv fuel r w w' :
  removeComponent fuel r w = Some w' →
  closed w ∧ componentsSorted w → closed w' ∧ componentsSorted w'.
Proof.
  revert r w w'. induction fuel as [|n IH]; intros r w w'; simpl; [done|].
  intros H Hinv. apply bind_Some in H as (component & _ & H).
  apply bind_Some in H as (kids & _ & H).
  set (w2 := onComponents _ _ _) in H.
  assert (closed w2 ∧ componentsSorted w2) as Hw2.
  { apply keep_inv. rewrite componentsSorted_sortedExcept in *.
    eapply same_components_inv; [apply filterChildren_stable | | done].
    apply filterChildren_components. }
  clearbody w2. clear Hinv. revert w2 Hw2 H.
  induction kids as [|k kids IHk]; intros w2 Hw2; simpl.
  - by intros [= <-].
  - destruct (removeComponent n k w2) as [w3|] eqn:E; simpl.
    + apply IHk. by eapply IH.
    + intros H. exfalso. clear -H. induction kids; simpl in *; [done | auto].
Qed.

(** What [createComponent] does to the store: one new object under a fresh
    reference, with the counter's value as id, and the counter one up. *)
Lemma createComponent_store object opts extension w w' r :
  createComponent object opts extension w = Some (w', r) →
  store w !! r = None ∧
  componentId w' = componentId w + 1 ∧
  (∃ c, store w' !! r = Some c ∧
     id c = default (componentId w) (extension ≫= ext_id)) ∧
  (∀ x c, store w !! x = Some c →
     x ≠ r ∧ ∃ c', store w' !! x = Some c' ∧ sameFields c c') ∧
  (∀ x c', store w' !! x = Some c' →
     x = r ∨ ∃ c, store w !! x = Some c ∧ sameFields c c').
Proof.
  unfold createComponent. intros H.
  apply bind_Some in H as (inst & _ & H). apply bind_Some in H as (t & _ & H).
  injection H as <- <-.
  set (r := fresh (dom (store w))).
  assert (store w !! r = None) as Hr.
  { apply not_elem_of_dom. apply is_fresh. }
  set (component := spreadExtension _ _).
  set (w1 := mkWorld (componentId w + 1) (<[r := component]> (store w)) (instances w)).
  set (w3 := pushChild _ _ _).
  assert (storeStable w1 (onComponents (sortBy (compareFn w3)) inst w3))
    as (Hid & A & B).
  { eapply storeStable_trans; [|apply onComponents_stable].
    eapply storeStable_trans; [|apply pushChild_stable].
    apply onComponents_stable. }
  split; [done|]. split; [done|]. split; [|split].
  - destruct (A r component) as (c' & Hc' & Hf & _).
    { subst w1; simpl. apply lookup_insert_eq. }
    exists c'. split; [done|]. rewrite Hf. unfold component.
    by destruct extension as [[]|].
  - intros x c Hc. assert (x ≠ r) as Hx by congruence. split; [done|].
    apply A. subst w1; simpl. by rewrite lookup_insert_ne.
  - intros x c' Hc'. destruct (decide (x = r)) as [|Hx]; [by left|]. right.
    destruct (B _ _ Hc') as (c & Hc & Hf). subst w1; simpl in Hc.
    rewrite lookup_insert_ne in Hc by done. eauto.
Qed.

Lemma createComponent_inv object opts extension w w' r :
  createComponent object opts extension w = Some (w', r) →
  closed w ∧ componentsSorted w → closed w' ∧ componentsSorted w'.
Proof.
  unfold createComponent. intros H [Hc Hs].
  apply bind_Some in H as (inst & _ & H). apply bind_Some in H as (t & _ & H).
  injection H as <- <-.
  set (r := fresh (dom (store w))).
  assert (store w !! r = None) as Hr.
  { apply not_elem_of_dom. apply is_fresh. }
  set (component := spreadExtension _ _).
  set (w1 := mkWorld (componentId w + 1) (<[r := component]> (store w)) (instances w)).
  assert (∀ x, is_Some (store w !! x) → priorityOf w1 x = priorityOf w x) as Hp.
  { intros x [c E]. unfold priorityOf, w1; simpl.
    rewrite lookup_insert_ne; [done | congruence]. }
  assert (∀ x, is_Some (store w !! x) → is_Some (store w1 !! x)) as Hd.
  { intros x [c E]. unfold w1; simpl.
    rewrite lookup_insert_ne; [by eexists | congruence]. }
  set (w2 := onComponents (λ l, l ++ [r]) inst w1).
  assert (closed w2 ∧ sortedExcept (Some inst) w2) as H2.
  { split.
    - intros j t' x Ht' Hx.
      destruct (onComponents_components _ _ _ _ _ Ht') as (t0 & Ht0 & E).
      rewrite E in Hx. unfold w2, onComponents; simpl.
      case_decide.
      + apply elem_of_app in Hx as [Hx|Hx].
        * apply Hd. by eapply Hc.
        * apply list_elem_of_singleton in Hx as ->. rewrite lookup_insert_eq.
          by eexists.
      + apply Hd. by eapply Hc.
    - intros j t' Ht' Hj.
      destruct (onComponents_components _ _ _ _ _ Ht') as (t0 & Ht0 & E).
      rewrite E, decide_False by congruence.
      apply (sortedByPriority_transfer w); [|by eapply Hs].
      intros x Hx. apply Hp. by eapply Hc. }
  set (w3 := pushChild object r w2).
  assert (closed w3 ∧ sortedExcept (Some inst) w3) as [Hc3 Hs3].
  { eapply same_components_inv; [apply pushChild_stable | | exact H2].
    apply pushChild_components. }
  split.
  - intros j t' x Ht' Hx.
    destruct (onComponents_components _ _ _ _ _ Ht') as (t0 & Ht0 & E).
    rewrite E in Hx. apply (Hc3 j t0 x Ht0).
    case_decide; [|done]. by apply sortBy_elem_of in Hx.
  - intros j t' Ht'.
    destruct (onComponents_components _ _ _ _ _ Ht') as (t0 & Ht0 & E).
    rewrite E. apply (sortedByPriority_transfer w3); [done|].
    case_decide; [apply sortBy_sorted|].
    apply (Hs3 j t0 Ht0). congruence.
Qed.

Lemma step_inv op w w' :
  step op w = Some w' →
  closed w ∧ componentsSorted w → closed w' ∧ componentsSorted w'.
Proof.
  destruct op as [object opts extension|fuel r]; simpl.
  - intros H. apply fmap_Some in H as ([w1 r] & H & ->).
    by eapply createComponent_inv.
  - apply removeComponent_inv.
Qed.

Lemma run_inv ops w w' :
  run ops w = Some w' →
  closed w ∧ componentsSorted w → closed w' ∧ componentsSorted w'.
Proof.
  revert w. induction ops as [|op ops IH]; intros w; simpl.
  - by intros [= <-].
  - intros H Hinv. apply bind_Some in H as (w1 & H1 & H2).
    apply (IH w1 H2). by eapply step_inv.
Qed.

Lemma initialWorld_closed w : initialWorld w → closed w.
Proof.
  intros (_ & _ & H) i t r Ht Hr. destruct (H _ _ Ht) as [E _].
  rewrite E in Hr. by apply elem_of_nil in Hr.
Qed.

Lemma initialWorld_sorted w : initialWorld w → componentsSorted w.
Proof.
  intros (_ & _ & H) i t Ht. destruct (H _ _ Ht) as [E _].
  rewrite E. intros j k a b _ Ha. by rewrite lookup_nil in Ha.
Qed.


(** *** Ids *)

Lemma storeStable_ids w w' :
  storeStable w w' →
  idsBelowCounter w ∧ idsUnique w → idsBelowCounter w' ∧ idsUnique w'.
Proof.
  intros (E & A & B) [Hb Hu]. split.
  - intros x c' Hc'. destruct (B _ _ Hc') as (c & Hc & Hi & _).
    rewrite E, Hi. by eapply Hb.
  - intros x1 x2 c1 c2 H1 H2 Hid.
    destruct (B _ _ H1) as (d1 & Hd1 & Hi1 & _).
    destruct (B _ _ H2) as (d2 & Hd2 & Hi2 & _).
    apply (Hu x1 x2 d1 d2 Hd1 Hd2). congruence.
Qed.

Lemma createComponent_ids object opts extension w w' r :
  createComponent object opts extension w = Some (w', r) →
  carriesNoId extension →
  idsBelowCounter w ∧ idsUnique w → idsBelowCounter w' ∧ idsUnique w'.
Proof.
  intros H Hno [Hb Hu].
  destruct (createComponent_store _ _ _ _ _ _ H)
    as (Hr & Hid & (cr & Hcr & Hidr) & A & B).
  unfold carriesNoId in Hno. rewrite Hno in Hidr. simpl in Hidr.
  assert (∀ x c', store w' !! x = Some c' →
            (x = r ∧ id c' = componentId w) ∨
            (x ≠ r ∧ id c' < componentId w ∧
             ∃ c, store w !! x = Some c ∧ id c' = id c)) as Hcase.
  { intros x c' Hc'. destruct (B _ _ Hc') as [->|(c & Hc & Hi & _)].
    - left. split; [done | congruence].
    - right. destruct (A _ _ Hc) as [Hx _].
      split; [done|]. split; [rewrite Hi; by eapply Hb | eauto]. }
  split.
  - intros x c' Hc'. rewrite Hid.
    destruct (Hcase _ _ Hc') as [[_ ?]|(_ & ? & _)]; lia.
  - intros x1 x2 c1 c2 H1 H2 E.
    destruct (Hcase _ _ H1) as [[-> ?]|(_ & ? & d1 & Hd1 & E1)];
      destruct (Hcase _ _ H2) as [[-> ?]|(_ & ? & d2 & Hd2 & E2)];
      try done; try lia.
    apply (Hu x1 x2 d1 d2 Hd1 Hd2). congruence.
Qed.

Lemma run_ids ops w w' :
  idsLeftAlone ops →
  run ops w = Some w' →
  idsBelowCounter w ∧ idsUnique w → idsBelowCounter w' ∧ idsUnique w'.
Proof.
  intros Hops. revert w.
  induction Hops as [|op ops Hop Hops IH]; intros w; simpl.
  - by intros [= <-].
  - intros H Hinv. apply bind_Some in H as (w1 & H1 & H2).
    apply (IH w1 H2). destruct op as [object opts extension|fuel r];
      simpl in H1.
    + apply fmap_Some in H1 as ([w2 r] & H1 & ->).
      by eapply createComponent_ids.
    + eapply storeStable_ids; [by eapply removeComponent_stable | done].
Qed.

Lemma initialWorld_ids w : initialWorld w → idsBelowCounter w ∧ idsUnique w.
Proof.
  intros (_ & E & _). split.
  - intros x c. by rewrite E, lookup_empty.
  - intros x1 x2 c1 c2. by rewrite E, lookup_empty.
Qed.

(** C10, for calls whose extension carries no [id].  After any sequence of
    such calls from a program start, such a call to [createComponent] gives
    the new component an id that is strictly greater than the id of every
    component created before, and no two components share an id
    afterwards.  The extension is spread behind [id: componentId++], so an
    [id] it carries replaces the counter's value. *)
Theorem C10_ids_increase_unless_the_extension_carries_one
    (w0 : World) (ops : list Op) (w : World)
    (object : TuiObject) (opts : CreateComponentOptions)
    (extension : option Extension) (w' : World) (r : Ref) :
  initialWorld w0 →
  idsLeftAlone ops →
  run ops w0 = Some w →
  carriesNoId extension →
  createComponent object opts extension w = Some (w', r) →
  (∃ c, store w' !! r = Some c ∧
     ∀ x c0, store w !! x = Some c0 →
       id c0 < id c ∧ ∃ c0', store w' !! x = Some c0' ∧ id c0' = id c0) ∧
  idsUnique w'.
Proof.
  intros Hinit Hops Hrun Hno Hcreate.
  destruct (run_ids _ _ _ Hops Hrun (initialWorld_ids _ Hinit)) as [Hb Hu].
  split; [|by eapply createComponent_ids].
  destruct (createComponent_store _ _ _ _ _ _ Hcreate)
    as (_ & _ & (c & Hc & Hid) & A & _).
  unfold carriesNoId in Hno. rewrite Hno in Hid. simpl in Hid.
  exists c. split; [done|]. intros x c0 Hc0. split.
  - rewrite Hid. by eapply Hb.
  - destruct (A _ _ Hc0) as (_ & c0' & Hc0' & Hi & _). eauto.
Qed.

End Registry.

(** ** The scenes, run *)

Section Runs.
Import Draw BoxObj Scenario.
Local Open Scope string_scope.

Lemma start_initial : Component.initialWorld start.
Proof.
  split; [done|]. split; [done|]. intros i t Ht.
  unfold start in Ht; simpl in Ht.
  apply lookup_singleton_Some in Ht as [_ <-]. done.
Qed.

Lemma C1_witness : queued (updateMovement 0%nat movedHeap) 0%nat 0 1.
Proof.
  apply (C1_moved_text_queues_whole_new_rectangle movedHeap 0%nat movedText
           (mkRectangle 0 0 2 1) 1);
    [reflexivity | reflexivity | reflexivity | simpl; lia].
Defined.

Lemma C2_witness : queued (updateMovement 0%nat movedHeap) 1%nat 0 0.
Proof.
  apply (C2_moved_text_queues_uncovered_cells_below movedHeap 0%nat movedText
           (mkRectangle 0 0 2 1) 0 0 1%nat);
    [reflexivity | reflexivity | reflexivity | reflexivity | reflexivity
    | reflexivity | apply list_elem_of_here | by eexists].
Defined.

Lemma C3_witness :
  ∃ cv', render screen halfCovered = Some (cv', clearTextOmit 0 halfCovered) ∧
    cellAt cv' 0 2 = Some "h" ∧ inQueue cv' 0 2 ∧ cellAt cv' 0 3 = None.
Proof.
  destruct (C3_render_skips_exactly_the_omitted_cells screen halfCovered)
    as (cv' & E & Hpaint & Hskip);
    [unfold textRow; simpl; lia | by eexists | by left |].
  exists cv'. split; [exact E|].
  destruct (Hpaint 0%nat) as [Hc Hq];
    [simpl; lia | unfold textColumn; simpl; lia | vm_compute; set_solver |].
  destruct (Hskip 3) as [Hc3 _]; [vm_compute; set_solver|].
  repeat split; [exact Hc | exact Hq | exact Hc3].
Defined.

(** C3 as stated fails: the omit set of [strayOmit] does not hold column 3,
    which is on screen and carries the "i", and [render] neither writes nor
    queues it. *)
Lemma C3_counterexample :
  (3 ∉ omitted strayOmit) ∧
  0 ≤ textColumn strayOmit 1 < columns (canvasSize screen) ∧
  textColumn strayOmit 1 = 3 ∧
  ∃ cv', render screen strayOmit = Some (cv', clearTextOmit 0 strayOmit) ∧
    cellAt cv' 0 3 = None ∧ ¬ inQueue cv' 0 3.
Proof.
  split; [vm_compute; set_solver|].
  split; [unfold textColumn; simpl; lia|]. split; [done|].
  exists screen. split; [reflexivity|]. split; [reflexivity|].
  vm_compute. set_solver.
Qed.


(** C5, at a view that starts right of the box.  Columns 0 and 1 of
    [viewedBox] lie left of its view, and [rerender] writes and queues
    them. *)
Theorem C5_box_paints_left_of_view :
  fitsInRectangle 0 0 (mkRectangle 2 0 2 1) = false ∧
  let cv' := (rerender screen viewedBox).1 in
  cellAt screen 0 0 = None ∧ cellAt cv' 0 0 = Some "#" ∧ inQueue cv' 0 0.
Proof. split; [done|]. by vm_compute. Qed.

(** C6, at a box that hangs off the left edge.  [rerender] creates a
    frame-buffer entry and a queue entry at column -1. *)
Theorem C6_box_paints_negative_column :
  let cv' := (BoxObj.rerender screen leftBox).1 in
  cellAt cv' 0 (-1) = Some "#" ∧ inQueue cv' 0 (-1).
Proof. by vm_compute. Qed.

(** C7, at a box that hangs off the top edge.  [rerender] changes the
    frame-buffer cell at row -1, which is not on the screen. *)
Theorem C7_box_changes_cell_off_screen :
  let cv' := (BoxObj.rerender screen topBox).1 in
  cellAt screen (-1) 0 = None ∧ cellAt cv' (-1) 0 = Some "#".
Proof. by vm_compute. Qed.


(** The box takes the same early exit, with the same result. *)
Lemma covered_box_stays_queued :
  let b' := (BoxObj.rerender screen coveredBox).2 in
  columnsOf (omitCells (box_super b')) 0 = ∅ ∧
  columnsOf (rerenderCells (box_super b')) 0 = {[2; 3]}.
Proof. by vm_compute. Qed.

(** With [super.update()] as the design document has it, the cell a shorter
    value gave up reaches the objects underneath one [update] later, through
    the movement of the narrower rectangle; the text itself never queues
    it. *)
Lemma shorter_value_reaches_objects_under_later :
  ∃ h1 h2,
    update DrawObject_update asciiWidth 0%nat shrunkOverBox = Some h1 ∧
    update DrawObject_update asciiWidth 0%nat h1 = Some h2 ∧
    ¬ queued h1 0%nat 0 1 ∧ ¬ queued h1 1%nat 0 1 ∧
    ¬ queued h2 0%nat 0 1 ∧ queued h2 1%nat 0 1.
Proof.
  eexists _, _. split; [by vm_compute|]. split; [by vm_compute|].
  repeat split.
  - intros (o & Ho & Hc). vm_compute in Ho. injection Ho as <-.
    vm_compute in Hc. set_solver.
  - intros (o & Ho & Hc). vm_compute in Ho. injection Ho as <-.
    vm_compute in Hc. set_solver.
  - intros (o & Ho & Hc). vm_compute in Ho. injection Ho as <-.
    vm_compute in Hc. set_solver.
  - eexists. split; [by vm_compute|]. by vm_compute.
Qed.


Lemma session_idsLeftAlone : Component.idsLeftAlone session.
Proof. repeat constructor. Qed.

Lemma C10_witness :
  ∃ w w' r,
    Component.run session start = Some w ∧
    Component.createComponent (Component.ObjInstance 0%nat) textboxOptions
      textboxExtension w = Some (w', r) ∧
    Component.idsUnique w'.
Proof.
  eexists _, _, _. split; [vm_compute; reflexivity|].
  split; [vm_compute; reflexivity|].
  refine (proj2 (C10_ids_increase_unless_the_extension_carries_one
                   start session _
                   (Component.ObjInstance 0%nat) textboxOptions
                   textboxExtension _ _
                   start_initial session_idsLeftAlone _ _ _));
    vm_compute; reflexivity.
Defined.

(** C10 as stated fails: the second call passes an extension that carries
    [id: 0]; the component it creates has the id of the first, which is
    not smaller, and the two share it. *)
Lemma C10_counterexample :
  ∃ w w' r0 r c0 c,
    Component.createComponent (Component.ObjInstance 0%nat)
      (Component.mkOptions "frame" None None) None start = Some (w, r0) ∧
    Component.createComponent (Component.ObjInstance 0%nat) textboxOptions
      idExtension w = Some (w', r) ∧
    Component.store w !! r0 = Some c0 ∧
    Component.store w' !! r0 = Some c0 ∧
    Component.store w' !! r = Some c ∧
    r0 ≠ r ∧ Component.id c0 = Component.id c.
Proof.
  eexists _, _, _, _, _, _. split; [vm_compute; reflexivity|].
  split; [vm_compute; reflexivity|]. split; [vm_compute; reflexivity|].
  split; [vm_compute; reflexivity|]. split; [vm_compute; reflexivity|].
  split; [by vm_compute | by vm_compute].
Qed.

End Runs.

(** * More of the code *)

(** ** component.ts: what a call leaves behind *)

Section ComponentCalls.
Import Component ComponentViews.

Lemma componentsOf_onComponents_eq f i w :
  is_Some (instances w !! i) →
  componentsOf (onComponents f i w) i = f (componentsOf w i).
Proof.
  intros [t Ht]. unfold componentsOf, onComponents; simpl.
  by rewrite lookup_alter_eq, Ht.
Qed.

Lemma componentsOf_onComponents_ne f i w j :
  i ≠ j → componentsOf (onComponents f i w) j = componentsOf w j.
Proof.
  intros Hne. unfold componentsOf, onComponents; simpl.
  by rewrite lookup_alter_ne.
Qed.

Lemma componentsOf_pushChild object r w j :
  componentsOf (pushChild object r w) j = componentsOf w j.
Proof.
  unfold componentsOf. destruct object as [i|p]; simpl; [|done].
  rewrite lookup_alter. case_decide; subst; [|done].
  by destruct (instances w !! j).
Qed.

Lemma componentsOf_filterChildren object r w j :
  componentsOf (filterChildren object r w) j = componentsOf w j.
Proof.
  unfold componentsOf. destruct object as [i|p]; simpl; [|done].
  rewrite lookup_alter. case_decide; subst; [|done].
  by destruct (instances w !! j).
Qed.

Lemma childrenOf_onComponents f i w o :
  childrenOf (onComponents f i w) o = childrenOf w o.
Proof.
  destruct o as [j|p]; simpl; [|done].
  rewrite lookup_alter. case_decide; subst; [|done].
  by destruct (instances w !! j).
Qed.

Lemma childrenOf_pushChild_eq object r w :
  denotes w object →
  childrenOf (pushChild object r w) object = childrenOf w object ++ [r].
Proof.
  destruct object as [i|p]; simpl; intros [x Hx];
    by rewrite lookup_alter_eq, Hx.
Qed.

Lemma childrenOf_pushChild_ne object r w o :
  o ≠ object → childrenOf (pushChild object r w) o = childrenOf w o.
Proof.
  intros Hne. destruct object as [i|p], o as [j|q]; simpl; try done;
    rewrite lookup_alter_ne; (done || congruence).
Qed.

Lemma instances_onComponents_is_Some f i w j :
  is_Some (instances (onComponents f i w) !! j) ↔ is_Some (instances w !! j).
Proof.
  unfold onComponents; simpl. rewrite lookup_alter.
  case_decide; [subst; by rewrite fmap_is_Some | done].
Qed.

Lemma instances_pushChild_is_Some object r w j :
  is_Some (instances (pushChild object r w) !! j) ↔ is_Some (instances w !! j).
Proof.
  destruct object as [i|p]; simpl; [|done]. rewrite lookup_alter.
  case_decide; [subst; by rewrite fmap_is_Some | done].
Qed.

(** The steps of [createComponent], named. *)
Lemma createComponent_unfold object opts extension w w' r :
  createComponent object opts extension w = Some (w', r) →
  ∃ inst,
    getInstance w object = Some inst ∧
    is_Some (instances w !! inst) ∧
    store w !! r = None ∧
    let w1 := mkWorld (componentId w + 1)
                (<[r := newComponent w inst object opts extension]> (store w))
                (instances w) in
    let w3 := pushChild object r (onComponents (λ l, l ++ [r]) inst w1) in
    w' = onComponents (sortBy (compareFn w3)) inst w3.
Proof.
  unfold createComponent. intros H.
  apply bind_Some in H as (inst & Hinst & H).
  apply bind_Some in H as (t & Ht & H). injection H as <- <-.
  exists inst. split; [done|]. split; [by eexists|]. split; [|done].
  apply not_elem_of_dom, is_fresh.
Qed.

(** The parent of a new component is an object of the world, and is not the
    new component. *)
Lemma getInstance_stored w p inst r :
  getInstance w (ObjComponent p) = Some inst → store w !! r = None → p ≠ r.
Proof.
  simpl. intros H Hr ->. by rewrite Hr in H.
Qed.

(** The members of the stored component. *)
Lemma newComponent_members w inst object opts extension :
  let c := newComponent w inst object opts extension in
  id c = default (componentId w) (extension ≫= ext_id) ∧
  name c = default (opt_name opts) (extension ≫= ext_name) ∧
  instance c = default inst (extension ≫= ext_instance) ∧
  parent c = default object (extension ≫= ext_parent) ∧
  children c = default [] (extension ≫= ext_children) ∧
  drawPriority c =
    default (default 0 (opt_drawPriority opts)) (extension ≫= ext_drawPriority) ∧
  interactive c =
    default (default false (opt_interactive opts))
      (extension ≫= ext_interactive).
Proof. by destruct extension as [[]|]. Qed.

(** The new component, as stored. *)
Lemma createComponent_stored
    (object : TuiObject) (opts : CreateComponentOptions)
    (extension : option Extension) (w w' : World) (r : Ref) :
  createComponent object opts extension w = Some (w', r) →
  ∃ inst,
    getInstance w object = Some inst ∧
    store w' !! r = Some (newComponent w inst object opts extension) ∧
    ∀ x c, store w !! x = Some c →
      store w' !! x =
        Some (if decide (object = ObjComponent x)
              then set_children (children c ++ [r]) c else c).
Proof.
  intros H.
  destruct (createComponent_unfold _ _ _ _ _ _ H)
    as (inst & Hinst & _ & Hr & ->).
  exists inst. split; [done|]. cbv zeta. split.
  - destruct object as [i|p]; simpl.
    + apply lookup_insert_eq.
    + rewrite lookup_alter_ne by (by eapply getInstance_stored).
      apply lookup_insert_eq.
  - intros x c Hc. assert (x ≠ r) as Hx by congruence.
    destruct (decide (object = ObjComponent x)) as [->|Hp].
    + cbn [pushChild onComponents store].
      by rewrite lookup_alter_eq, lookup_insert_ne, Hc.
    + destruct object as [i|p]; cbn [pushChild onComponents store].
      * by rewrite lookup_insert_ne.
      * rewrite lookup_alter_ne by congruence. by rewrite lookup_insert_ne.
Qed.


Lemma insertBy_Permutation {A} (compare : A → A → Z) x l :
  insertBy compare x l ≡ₚ x :: l.
Proof.
  induction l as [|y l IH]; simpl; [done|].
  destruct (_ <=? 0); [done|]. rewrite IH. apply Permutation_swap.
Qed.

Lemma sortBy_Permutation {A} (compare : A → A → Z) l : sortBy compare l ≡ₚ l.
Proof.
  unfold sortBy. induction l as [|x l IH]; simpl; [done|].
  by rewrite insertBy_Permutation, IH.
Qed.

(** Sorting a list that was in order but for a new last element puts that
    element after everything that is not greater, and moves nothing else. *)
Lemma sortBy_snoc_sorted {A} (p : A → Z) (l : list A) (x : A) :
  StronglySorted (λ a b, p a ≤ p b) l →
  ∃ l1 l2,
    l = l1 ++ l2 ∧
    sortBy (λ b a, p b - p a) (l ++ [x]) = l1 ++ x :: l2 ∧
    Forall (λ a, p a ≤ p x) l1 ∧ Forall (λ b, p x < p b) l2.
Proof.
  unfold sortBy. rewrite foldr_app. simpl.
  induction 1 as [|y l Hs IH Hall]; simpl.
  { exists [], []. by repeat split. }
  destruct IH as (l1 & l2 & -> & -> & H1 & H2).
  destruct (decide (p y ≤ p x)) as [Hle|Hgt].
  - exists (y :: l1), l2. split; [done|]. split; [|by split; [constructor|]].
    destruct l1 as [|a l1]; simpl.
    + by rewrite (proj2 (Z.leb_le _ _)) by lia.
    + apply Forall_cons in Hall as [Hya _].
      by rewrite (proj2 (Z.leb_le _ _)) by lia.
  - assert (l1 = []) as ->.
    { destruct l1 as [|a l1]; [done|]. exfalso.
      apply Forall_cons in Hall as [Hya _]. apply Forall_cons in H1 as [Hax _].
      lia. }
    simpl in *. exists [], (y :: l2). split; [done|].
    split; [|split; [done | constructor; [lia | done]]].
    rewrite (proj2 (Z.leb_gt _ _)) by lia. f_equal.
    destruct l2 as [|b l2]; simpl; [done|].
    apply Forall_cons in Hall as [Hyb _].
    by rewrite (proj2 (Z.leb_le _ _)) by lia.
Qed.

Lemma childrenOf_insert_fresh w r c cid o :
  store w !! r = None →
  childrenOf (mkWorld cid (<[r := c]> (store w)) (instances w)) o =
  if decide (o = ObjComponent r) then children c else childrenOf w o.
Proof.
  intros Hr. destruct o as [j|q]; simpl; [done|].
  rewrite lookup_insert. destruct (decide (r = q)) as [->|Hq].
  - by rewrite decide_True.
  - rewrite decide_False; [done | congruence].
Qed.

(** The component list [createComponent] stores back. *)
Lemma createComponent_components object opts extension w w' r inst :
  createComponent object opts extension w = Some (w', r) →
  getInstance w object = Some inst →
  componentsOf w' inst = sortBy (compareFn w') (componentsOf w inst ++ [r]) ∧
  ∀ j, j ≠ inst → componentsOf w' j = componentsOf w j.
Proof.
  intros H Hinst.
  destruct (createComponent_unfold _ _ _ _ _ _ H) as (i & Hi & Hsome & Hr & ->).
  assert (i = inst) as -> by congruence. cbv zeta. split.
  - rewrite componentsOf_onComponents_eq.
    + rewrite componentsOf_pushChild, componentsOf_onComponents_eq by done.
      done.
    + by apply instances_pushChild_is_Some, instances_onComponents_is_Some.
  - intros j Hj.
    by rewrite componentsOf_onComponents_ne, componentsOf_pushChild,
      componentsOf_onComponents_ne by done.
Qed.

(** The children lists [createComponent] leaves. *)
Lemma createComponent_children object opts extension w w' r :
  createComponent object opts extension w = Some (w', r) →
  childrenOf w' object = childrenOf w object ++ [r] ∧
  ∀ o, o ≠ object →
    childrenOf w' o =
      if decide (o = ObjComponent r)
      then default [] (extension ≫= ext_children) else childrenOf w o.
Proof.
  intros H.
  destruct (createComponent_unfold _ _ _ _ _ _ H) as (i & Hi & Hsome & Hr & ->).
  cbv zeta.
  assert (object ≠ ObjComponent r) as Hobject.
  { intros ->. simpl in Hi. by rewrite Hr in Hi. }
  split.
  - rewrite childrenOf_onComponents, childrenOf_pushChild_eq.
    + rewrite childrenOf_onComponents, childrenOf_insert_fresh by done.
      by rewrite decide_False.
    + destruct object as [j|p].
      * assert (j = i) as -> by (simpl in Hi; congruence).
        by apply instances_onComponents_is_Some.
      * simpl in Hi |- *.
        rewrite lookup_insert_ne by (by eapply not_eq_sym, getInstance_stored).
        apply fmap_Some in Hi as (c & -> & _). by eexists.
  - intros o Ho.
    rewrite childrenOf_onComponents, childrenOf_pushChild_ne by done.
    rewrite childrenOf_onComponents, childrenOf_insert_fresh by done.
    by destruct (newComponent_members w i object opts extension)
      as (_ & _ & _ & _ & -> & _).
Qed.

(** X2.  [createComponent] appends the new component to the children of its
    parent and changes no other children list that was there (the list of
    the new component is the one its extension carries, or empty); the
    component list of the parent's instance takes the new component and
    keeps every other one (it is a permutation of the old list and the new
    reference), and the lists of the other instances stay as they are. *)
Theorem X2_create_adds_one_component
    (object : TuiObject) (opts : CreateComponentOptions)
    (extension : option Extension)
    (w w' : World) (r : Ref) (inst : InstRef) :
  createComponent object opts extension w = Some (w', r) →
  getInstance w object = Some inst →
  childrenOf w' object = childrenOf w object ++ [r] ∧
  (∀ o, o ≠ object →
     childrenOf w' o =
       if decide (o = ObjComponent r)
       then default [] (extension ≫= ext_children) else childrenOf w o) ∧
  componentsOf w' inst ≡ₚ componentsOf w inst ++ [r] ∧
  (∀ j, j ≠ inst → componentsOf w' j = componentsOf w j).
Proof.
  intros H Hinst.
  destruct (createComponent_components _ _ _ _ _ _ _ H Hinst) as [Hc Hother].
  destruct (createComponent_children _ _ _ _ _ _ H) as [Hk Hkother].
  split; [done|]. split; [done|]. split; [|done].
  rewrite Hc. apply sortBy_Permutation.
Qed.

(** Where the new component goes in the list of its instance. *)
Lemma createComponent_position
    (object : TuiObject) (opts : CreateComponentOptions)
    (extension : option Extension)
    (w w' : World) (r : Ref) (inst : InstRef) :
  closed w →
  componentsSorted w →
  createComponent object opts extension w = Some (w', r) →
  getInstance w object = Some inst →
  ∃ before after,
    componentsOf w inst = before ++ after ∧
    componentsOf w' inst = before ++ r :: after ∧
    (∀ a, a ∈ before → priorityOf w' a ≤ priorityOf w' r) ∧
    (∀ b, b ∈ after → priorityOf w' r < priorityOf w' b).
Proof.
  intros Hclosed Hsorted H Hinst.
  destruct (createComponent_components _ _ _ _ _ _ _ H Hinst) as [Hc _].
  destruct (createComponent_unfold _ _ _ _ _ _ H) as (i & Hi & [t Ht] & _).
  assert (i = inst) as -> by congruence.
  assert (StronglySorted (λ a b, priorityOf w' a ≤ priorityOf w' b)
            (componentsOf w inst)) as Hs.
  { apply (sortedByPriority_StronglySorted w').
    unfold componentsOf. rewrite Ht. simpl.
    apply (sortedByPriority_transfer w); [|by eapply Hsorted].
    intros x Hx. destruct (Hclosed _ _ _ Ht Hx) as [c Hcx].
    destruct (createComponent_store _ _ _ _ _ _ H) as (_ & _ & _ & A & _).
    destruct (A _ _ Hcx) as (_ & c' & Hc' & _ & Hp).
    unfold priorityOf. by rewrite Hcx, Hc'; simpl. }
  destruct (sortBy_snoc_sorted (priorityOf w') _ r Hs)
    as (l1 & l2 & E & Esort & H1 & H2).
  exists l1, l2. split; [done|]. split; [by rewrite Hc|].
  rewrite Forall_forall in H1, H2. by split.
Qed.

(** X3.  In a registry whose lists are in priority order, [createComponent]
    keeps the order of the components that were there and puts the new one
    after every component whose priority is lower or the same, before every
    component whose priority is higher. *)
Theorem X3_new_component_goes_after_its_equals
    (object : TuiObject) (opts : CreateComponentOptions)
    (extension : option Extension)
    (w w' : World) (r : Ref) (inst : InstRef) :
  closed w →
  componentsSorted w →
  createComponent object opts extension w = Some (w', r) →
  getInstance w object = Some inst →
  ∃ before after,
    componentsOf w inst = before ++ after ∧
    componentsOf w' inst = before ++ r :: after ∧
    (∀ a, a ∈ before → priorityOf w' a ≤ priorityOf w' r) ∧
    (∀ b, b ∈ after → priorityOf w' r < priorityOf w' b).
Proof. apply createComponent_position. Qed.

(** *** removeComponent *)

Lemma pruned_refl w : pruned w w.
Proof.
  split; [done|]. split; [|done].
  intros x c Hc. exists c. by split.
Qed.

Lemma pruned_trans w1 w2 w3 : pruned w1 w2 → pruned w2 w3 → pruned w1 w3.
Proof.
  intros (E1 & S1 & C1 & K1) (E2 & S2 & C2 & K2).
  split; [congruence|]. split; [|split].
  - intros x c Hc. destruct (S1 _ _ Hc) as (c2 & Hc2 & Hs).
    destruct (S2 _ _ Hc2) as (c3 & Hc3 & Hs'). exists c3. split; [done|].
    unfold sameButChildren in *. congruence.
  - intros i. etrans; [apply C2 | apply C1].
  - intros o. etrans; [apply K2 | apply K1].
Qed.

Lemma childrenOf_filterChildren object r w o :
  childrenOf (filterChildren object r w) o =
  if decide (o = object) then keep r (childrenOf w o) else childrenOf w o.
Proof.
  destruct object as [i|p], o as [j|q]; simpl; try done;
    try (rewrite decide_False by congruence; done).
  - rewrite lookup_alter. destruct (decide (i = j)) as [->|Hne].
    + rewrite decide_True by done. by destruct (instances w !! j).
    + rewrite decide_False by congruence. done.
  - rewrite lookup_alter. destruct (decide (p = q)) as [->|Hne].
    + rewrite decide_True by done. by destruct (store w !! q).
    + rewrite decide_False by congruence. done.
Qed.

Lemma componentsOf_keep r i w j :
  componentsOf (onComponents (keep r) i w) j =
  if decide (i = j) then keep r (componentsOf w j) else componentsOf w j.
Proof.
  unfold componentsOf, onComponents; simpl. rewrite lookup_alter.
  case_decide; subst; [|done]. by destruct (instances w !! j).
Qed.

Lemma filterChildren_store object r w x c :
  store w !! x = Some c →
  ∃ c', store (filterChildren object r w) !! x = Some c' ∧ sameButChildren c c'.
Proof.
  intros Hc. destruct object as [i|p]; simpl; [by exists c|].
  rewrite lookup_alter. case_decide; subst; [|by exists c].
  rewrite Hc. by eexists.
Qed.

(** The two filters at the head of [removeComponent]. *)
Lemma unlink_pruned r object i w :
  pruned w (onComponents (keep r) i (filterChildren object r w)).
Proof.
  split; [by destruct object|]. split; [|split].
  - intros x c Hc. by apply filterChildren_store.
  - intros j. rewrite componentsOf_keep, componentsOf_filterChildren.
    case_decide; [unfold keep; apply sublist_filter | done].
  - intros o. rewrite childrenOf_onComponents, childrenOf_filterChildren.
    case_decide; [unfold keep; apply sublist_filter | done].
Qed.

Lemma removeComponent_pruned fuel r w w' :
  removeComponent fuel r w = Some w' → pruned w w'.
Proof.
  revert r w w'. induction fuel as [|n IH]; intros r w w'; [done|].
  rewrite removeComponent_S. intros H.
  apply bind_Some in H as (c & _ & H). cbv zeta in H.
  apply bind_Some in H as (kids & _ & H).
  eapply pruned_trans; [apply (unlink_pruned r (parent c) (instance c))|].
  revert H. generalize (onComponents (keep r) (instance c)
                          (filterChildren (parent c) r w)).
  induction kids as [|k kids IHk]; intros w2; cbn [foldl].
  - intros [= <-]. apply pruned_refl.
  - cbn [mbind option_bind].
    destruct (removeComponent n k w2) as [w3|] eqn:E.
    + intros H. eapply pruned_trans; [by eapply IH | by apply IHk].
    + by rewrite foldl_bind_None.
Qed.

(** X4.  [removeComponent] only takes elements out: the counter is what it
    was, every component object is still there with the same id, name,
    instance, parent, priority and [interactive], and every component list
    and every children list is what is left of the former one, in the former
    order. *)
Theorem X4_remove_only_takes_out
    (fuel : nat) (r : Ref) (w w' : World) :
  removeComponent fuel r w = Some w' →
  componentId w' = componentId w ∧
  (∀ x c, store w !! x = Some c →
     ∃ c', store w' !! x = Some c' ∧
       id c' = id c ∧ name c' = name c ∧ instance c' = instance c ∧
       parent c' = parent c ∧ drawPriority c' = drawPriority c ∧
       interactive c' = interactive c) ∧
  (∀ i, componentsOf w' i `sublist_of` componentsOf w i) ∧
  (∀ o, childrenOf w' o `sublist_of` childrenOf w o).
Proof.
  intros H. destruct (removeComponent_pruned _ _ _ _ H) as (E & S & C & K).
  split; [done|]. split; [|by split].
  intros x c Hc. destruct (S _ _ Hc) as (c' & Hc' & Hs). exists c'.
  split; [done|]. unfold sameButChildren in Hs.
  destruct c, c'. simpl in *. by injection Hs as -> -> -> -> -> ->.
Qed.

(** Somewhere in a completed loop over the children, each child was
    removed. *)
Lemma remove_children_each n kids k w2 w' :
  foldl (λ acc child, acc ≫= removeComponent n child) (Some w2) kids = Some w' →
  k ∈ kids →
  ∃ wa wb, pruned w2 wa ∧ removeComponent n k wa = Some wb ∧ pruned wb w'.
Proof.
  revert w2. induction kids as [|k0 kids IHk]; intros w2 H Hk.
  { by apply elem_of_nil in Hk. }
  cbn [foldl mbind option_bind] in H.
  destruct (removeComponent n k0 w2) as [w3|] eqn:E;
    [|by rewrite foldl_bind_None in H].
  apply elem_of_cons in Hk as [->|Hk].
  - exists w2, w3. split; [apply pruned_refl|]. split; [done|].
    clear -H. revert w3 H. induction kids as [|k1 kids IH]; intros w3; cbn [foldl].
    + intros [= <-]. apply pruned_refl.
    + cbn [mbind option_bind].
      destruct (removeComponent n k1 w3) as [w4|] eqn:E;
        [|by rewrite foldl_bind_None].
      intros H. eapply pruned_trans; [by eapply removeComponent_pruned | by apply IH].
  - destruct (IHk w3 H Hk) as (wa & wb & Ha & Hb & Hc).
    exists wa, wb. split; [|done].
    eapply pruned_trans; [by eapply removeComponent_pruned | done].
Qed.

(** The component is out of the list of its instance and out of the children
    of its parent. *)
Lemma removeComponent_unlinks fuel r w w' c :
  removeComponent fuel r w = Some w' →
  store w !! r = Some c →
  (r ∉ componentsOf w' (instance c)) ∧ (r ∉ childrenOf w' (parent c)).
Proof.
  destruct fuel as [|n]; [done|]. rewrite removeComponent_S.
  intros H Hc. rewrite Hc in H. cbn [mbind option_bind] in H. cbv zeta in H.
  apply bind_Some in H as (kids & _ & H).
  assert (pruned (onComponents (keep r) (instance c)
                    (filterChildren (parent c) r w)) w') as (_ & _ & C & K).
  { revert H. generalize (onComponents (keep r) (instance c)
                            (filterChildren (parent c) r w)).
    induction kids as [|k kids IHk]; intros w2; cbn [foldl].
    - intros [= <-]. apply pruned_refl.
    - cbn [mbind option_bind].
      destruct (removeComponent n k w2) as [w3|] eqn:E;
        [|by rewrite foldl_bind_None].
      intros H. eapply pruned_trans; [by eapply removeComponent_pruned | by apply IHk]. }
  split.
  - intros Hin. eapply elem_of_sublist in Hin; [|apply C].
    rewrite componentsOf_keep, decide_True in Hin by done.
    unfold keep in Hin. by apply list_elem_of_filter in Hin as [? _].
  - intros Hin. eapply elem_of_sublist in Hin; [|apply K].
    rewrite childrenOf_onComponents, childrenOf_filterChildren in Hin.
    rewrite decide_True in Hin by done.
    unfold keep in Hin. by apply list_elem_of_filter in Hin as [? _].
Qed.

(** X5.  When [removeComponent] returns, the component is in the component
    list of its instance no more, nor among the children of its parent, and
    none of its children is in the component list of its own instance. *)
Theorem X5_remove_unlinks_component_and_children
    (fuel : nat) (r : Ref) (w w' : World) (c : TuiComponent) :
  removeComponent fuel r w = Some w' →
  store w !! r = Some c →
  (r ∉ componentsOf w' (instance c)) ∧
  (r ∉ childrenOf w' (parent c)) ∧
  ∀ k kc, k ∈ children c → store w !! k = Some kc →
    k ∉ componentsOf w' (instance kc).
Proof.
  intros H Hc.
  destruct (removeComponent_unlinks _ _ _ _ _ H Hc) as [Hr Hp].
  split; [done|]. split; [done|]. intros k kc Hk Hkc.
  destruct (decide (k = r)) as [->|Hne]; [by assert (kc = c) as -> by congruence|].
  destruct fuel as [|n]; [done|]. rewrite removeComponent_S in H.
  rewrite Hc in H. cbn [mbind option_bind] in H. cbv zeta in H.
  apply bind_Some in H as (kids & Hkids & H).
  pose proof (unlink_pruned r (parent c) (instance c) w) as Hw2.
  assert (k ∈ kids) as Hin.
  { apply fmap_Some in Hkids as (c2 & Hc2 & ->).
    assert (children c2 = children c ∨ children c2 = keep r (children c)) as [->| ->].
    { simpl in Hc2. destruct (parent c) as [i|p]; simpl in Hc2.
      - left. congruence.
      - rewrite lookup_alter in Hc2. case_decide; subst.
        + rewrite Hc in Hc2. injection Hc2 as <-. by right.
        + left. congruence. }
    - done.
    - unfold keep. by apply list_elem_of_filter. }
  destruct (remove_children_each _ _ _ _ _ H Hin) as (wa & wb & Ha & Hb & Hlast).
  destruct (pruned_trans _ _ _ Hw2 Ha) as (_ & S & _ & _).
  destruct (S _ _ Hkc) as (kc' & Hkc' & Hsame).
  destruct (removeComponent_unlinks _ _ _ _ _ Hb Hkc') as [Hgone _].
  assert (instance kc' = instance kc) as Hi.
  { unfold sameButChildren in Hsame. destruct kc, kc'. simpl in *.
    by injection Hsame. }
  rewrite Hi in Hgone. intros Hin'. apply Hgone.
  destruct Hlast as (_ & _ & C & _). by eapply elem_of_sublist.
Qed.

Lemma keep_notin r l : r ∉ l → keep r l = l.
Proof.
  unfold keep. induction l as [|x l IH]; [done|].
  intros Hr. apply not_elem_of_cons in Hr as [Hx Hl].
  rewrite filter_cons, decide_True by done. by rewrite IH.
Qed.

Lemma keep_middle r l1 l2 : r ∉ l1 → r ∉ l2 → keep r (l1 ++ r :: l2) = l1 ++ l2.
Proof.
  intros H1 H2. unfold keep. rewrite filter_app, filter_cons.
  rewrite decide_False by (by intros ?).
  fold (keep r l1) (keep r l2). by rewrite !keep_notin.
Qed.

(** What a call whose extension leaves the links alone stores. *)
Lemma newComponent_links w inst object opts extension :
  linksLeftAlone extension →
  let c := newComponent w inst object opts extension in
  instance c = inst ∧ parent c = object ∧ children c = [].
Proof.
  intros (Hp & Hi & Hc).
  destruct (newComponent_members w inst object opts extension)
    as (_ & _ & C & D & E & _).
  cbv zeta. by rewrite C, D, E, Hp, Hi, Hc.
Qed.

(** X6.  Creating a component with an extension that carries no [parent],
    no [instance] and no [children], and removing it again, gives back every
    component list and every children list as it was, in a registry whose
    lists are in priority order and hold references of stored components
    only.  The counter is not taken back. *)
Theorem X6_create_then_remove_restores_the_lists
    (object : TuiObject) (opts : CreateComponentOptions)
    (extension : option Extension)
    (w w' : World) (r : Ref) (n : nat) :
  closed w →
  componentsSorted w →
  (∀ k, k ∈ childrenOf w object → is_Some (store w !! k)) →
  linksLeftAlone extension →
  createComponent object opts extension w = Some (w', r) →
  ∃ w'', removeComponent (S n) r w' = Some w'' ∧
    (∀ i, componentsOf w'' i = componentsOf w i) ∧
    (∀ o, childrenOf w'' o = childrenOf w o) ∧
    componentId w'' = componentId w + 1.
Proof.
  intros Hclosed Hsorted Hkids Hlinks H.
  destruct (createComponent_stored _ _ _ _ _ _ H)
    as (inst & Hinst & Hstored & _).
  destruct (createComponent_unfold _ _ _ _ _ _ H)
    as (i & Hi & [t Ht] & Hr & Hw').
  assert (i = inst) as -> by congruence.
  destruct (createComponent_components _ _ _ _ _ _ _ H Hinst) as [_ Hother].
  destruct (createComponent_children _ _ _ _ _ _ H) as [Hk Hkother].
  destruct (createComponent_position _ _ _ _ _ _ _
              Hclosed Hsorted H Hinst) as (l1 & l2 & E & E' & _).
  destruct (newComponent_links w inst object opts extension Hlinks)
    as (Einst & Eparent & Echildren).
  assert (r ∉ componentsOf w inst) as Hfresh.
  { intros Hin. unfold componentsOf in Hin. rewrite Ht in Hin. simpl in Hin.
    destruct (Hclosed _ _ _ Ht Hin) as [c Hc]. congruence. }
  assert (r ∉ childrenOf w object) as Hfresh'.
  { intros Hin. destruct (Hkids _ Hin) as [c Hc]. congruence. }
  set (w2 := onComponents (keep r) inst (filterChildren object r w')).
  assert (store w2 !! r = Some (newComponent w inst object opts extension))
    as Hstored2.
  { unfold w2; simpl. destruct object as [j|p]; simpl; [done|].
    rewrite lookup_alter_ne by (by eapply getInstance_stored). done. }
  exists w2. split; [|split; [|split]].
  - rewrite removeComponent_S, Hstored. cbn [mbind option_bind]. cbv zeta.
    rewrite Einst, Eparent.
    fold w2. rewrite Hstored2. cbn [fmap option_fmap option_map mbind option_bind].
    by rewrite Echildren.
  - intros j. unfold w2. rewrite componentsOf_keep, componentsOf_filterChildren.
    case_decide; subst; [|by apply Hother].
    rewrite E' , E. rewrite E in Hfresh.
    apply keep_middle; intros Hin; apply Hfresh, elem_of_app; auto.
  - intros o. unfold w2.
    rewrite childrenOf_onComponents, childrenOf_filterChildren.
    case_decide; subst.
    + rewrite Hk. unfold keep. rewrite filter_app.
      fold (keep r (childrenOf w object)).
      rewrite keep_notin by done. simpl.
      rewrite filter_cons, decide_False by (by intros ?).
      by rewrite filter_nil, app_nil_r.
    + rewrite Hkother by done. case_decide; [subst|done].
      destruct Hlinks as (_ & _ & ->). simpl. by rewrite Hr.
  - unfold w2. rewrite Hw'. by destruct object.
Qed.

End ComponentCalls.

(** ** component.ts: getCurrentStyler *)

Section StylerCalls.
Import Styler.
Local Open Scope string_scope.

(** X7.  In the styler [getCurrentStyler] returns, a member the active
    styler has comes from it when the active state applies; else a member
    the focused styler has comes from it when the active or the focused
    state applies; every other member is the component's own. *)
Theorem X7_active_over_focused_over_own
    (c : Styled) (sel : Selected) (options : option GetCurrentStylerOptions)
    (k : string) :
  let result := getCurrentStyler c sel options in
  let ofActive := spread (styler c !! "active") in
  let ofFocused := spread (styler c !! "focused") in
  (isActive c sel options = true → is_Some (ofActive !! k) →
     result !! k = ofActive !! k) ∧
  (isActive c sel options = true → ofActive !! k = None →
     is_Some (ofFocused !! k) → result !! k = ofFocused !! k) ∧
  (isActive c sel options = false → isFocused c sel options = true →
     is_Some (ofFocused !! k) → result !! k = ofFocused !! k) ∧
  ((isActive c sel options = false ∨ ofActive !! k = None) →
   (isActive c sel options = false ∧ isFocused c sel options = false ∨
    ofFocused !! k = None) →
     result !! k = styler c !! k).
Proof.
  cbv zeta. unfold getCurrentStyler.
  destruct (isActive c sel options), (isFocused c sel options);
    repeat split; try done.
  - intros _ [v Hv]. by rewrite (lookup_union_Some_l _ _ _ _ Hv).
  - intros _ Hn [v Hv]. rewrite lookup_union_r by done.
    by rewrite (lookup_union_Some_l _ _ _ _ Hv).
  - intros [?|Hn] [[? ?]|Hf]; try done. by rewrite !lookup_union_r.
  - intros _ [v Hv]. by rewrite (lookup_union_Some_l _ _ _ _ Hv).
  - intros _ Hn [v Hv]. rewrite lookup_union_r by done.
    by rewrite (lookup_union_Some_l _ _ _ _ Hv).
  - intros [?|Hn] [[? ?]|Hf]; try done. by rewrite !lookup_union_r.
  - intros _ _ [v Hv]. by rewrite (lookup_union_Some_l _ _ _ _ Hv).
  - intros _ [[? ?]|Hf]; [done|]. by rewrite lookup_union_r.
Qed.

(** X8.  What the options do.  With [force] set for both states the styler
    returned is the same whatever is selected in the instance; a [value] of
    [true] makes its state apply whatever is selected; and an option with a
    [value] of [false] and no [force] changes nothing. *)
Theorem X8_options_force_and_or
    (c : Styled) (sel sel' : Selected)
    (forcedFocus forcedActive : bool) (o : option StateOverride)
    (noForce1 noForce2 : option bool) :
  getCurrentStyler c sel
    (Some (mkStylerOptions (Some (mkStateOverride forcedFocus (Some true)))
                           (Some (mkStateOverride forcedActive (Some true)))))
  = getCurrentStyler c sel'
      (Some (mkStylerOptions (Some (mkStateOverride forcedFocus (Some true)))
                             (Some (mkStateOverride forcedActive (Some true))))) ∧
  isActive c sel
    (Some (mkStylerOptions o (Some (mkStateOverride true noForce1)))) = true ∧
  isFocused c sel
    (Some (mkStylerOptions (Some (mkStateOverride true noForce1)) o)) = true ∧
  (noForce1 ≠ Some true → noForce2 ≠ Some true →
   getCurrentStyler c sel
     (Some (mkStylerOptions (Some (mkStateOverride false noForce1))
                            (Some (mkStateOverride false noForce2))))
   = getCurrentStyler c sel None).
Proof.
  split; [|split; [|split]].
  - unfold getCurrentStyler, isActive, isFocused, applies. simpl.
    by rewrite !orb_false_r.
  - done.
  - done.
  - intros H1 H2. unfold getCurrentStyler, isActive, isFocused, applies. simpl.
    by destruct noForce1 as [[]|], noForce2 as [[]|].
Qed.

(** X9.  Without options, a component that is not the selected item and
    does not hold the selected item in [focusedWithin] gets its own styler
    back, whatever the focus and active flags of the instance are. *)
Theorem X9_unselected_component_keeps_its_styler
    (c : Styled) (sel : Selected) :
  isSelected c sel = false →
  getCurrentStyler c sel None = styler c.
Proof.
  intros H. unfold getCurrentStyler, isActive, isFocused, applies. simpl.
  by rewrite H.
Qed.

End StylerCalls.

(** ** text.ts: what updateMovement and update do, and no more *)

Section TextUpdates.
Import Draw DrawViews.

Lemma heap_queueRerender_is_Some id r c h id' :
  is_Some (heap_queueRerender id r c h !! id') ↔ is_Some (h !! id').
Proof.
  unfold heap_queueRerender. rewrite lookup_alter.
  case_decide; subst; [by rewrite fmap_is_Some | done].
Qed.

(** A loop of queueing steps queues what its turns queue. *)
Lemma foldl_queued_iff {A} (f : Heap → A → Heap)
    (P : A → ObjId → Z → Z → Prop) :
  (∀ h a id, is_Some (f h a !! id) ↔ is_Some (h !! id)) →
  (∀ h a id r c,
     queued (f h a) id r c ↔ queued h id r c ∨ (is_Some (h !! id) ∧ P a id r c)) →
  ∀ xs h id r c,
    (is_Some (foldl f h xs !! id) ↔ is_Some (h !! id)) ∧
    (queued (foldl f h xs) id r c ↔
     queued h id r c ∨ (is_Some (h !! id) ∧ ∃ a, a ∈ xs ∧ P a id r c)).
Proof.
  intros Hsome Hstep xs. induction xs as [|x xs IH]; intros h id r c; simpl.
  - split; [done|]. split; [by left|].
    intros [?|(_ & a & Ha & _)]; [done|]. by apply elem_of_nil in Ha.
  - destruct (IH (f h x) id r c) as [-> ->]. rewrite Hsome, Hstep.
    split; [done|]. split.
    + intros [[?|(? & ?)]|(? & a & Ha & ?)]; [by left|right|right];
        (split; [done|]).
      * exists x. split; [apply list_elem_of_here | done].
      * exists a. split; [by apply list_elem_of_further | done].
    + intros [?|(? & a & Ha & ?)]; [by left; left|].
      apply elem_of_cons in Ha as [->|Ha].
      * left; right. done.
      * right. split; [done|]. by exists a.
Qed.

Lemma queueUnder_queued_iff unders r c h id r' c' :
  (is_Some (queueUnder unders r c h !! id) ↔ is_Some (h !! id)) ∧
  (queued (queueUnder unders r c h) id r' c' ↔
   queued h id r' c' ∨ (is_Some (h !! id) ∧ id ∈ unders ∧ r' = r ∧ c' = c)).
Proof.
  unfold queueUnder.
  destruct (foldl_queued_iff (λ h' u, heap_queueRerender u r c h')
              (λ u id r' c', id = u ∧ r' = r ∧ c' = c)) with
    (xs := unders) (h := h) (id := id) (r := r') (c := c') as [H1 H2].
  - intros. apply heap_queueRerender_is_Some.
  - intros h0 a id0 r0 c0. rewrite heap_queueRerender_queued_iff.
    split; (intros [?|?]; [by left|right]).
    + destruct H as (-> & -> & -> & ?). done.
    + destruct H as (? & -> & -> & ->). done.
  - split; [done|]. rewrite H2. split; (intros [?|(? & H)]; [by left|right]).
    + destruct H as (u & Hu & -> & -> & ->). done.
    + destruct H as (Hu & -> & ->). split; [done|]. by exists id.
Qed.

Lemma movedAway_queued_iff unders i r h c id r' c' :
  (is_Some (movedAway unders i r h c !! id) ↔ is_Some (h !! id)) ∧
  (queued (movedAway unders i r h c) id r' c' ↔
   queued h id r' c' ∨
   (is_Some (h !! id) ∧
    id ∈ unders ∧ r' = r ∧ c' = c ∧ fitsInIntersection c r i = false)).
Proof.
  unfold movedAway. destruct (fitsInIntersection c r i).
  - split; [done|]. split; [by left|]. by intros [?|(_ & _ & _ & _ & ?)].
  - destruct (queueUnder_queued_iff unders r c h id r' c') as [-> ->].
    split; [done|]. split; (intros [?|?]; [by left|right]); tauto.
Qed.

Lemma movedTo_queued_iff self unders i r h c id r' c' :
  (is_Some (movedTo self unders i r h c !! id) ↔ is_Some (h !! id)) ∧
  (queued (movedTo self unders i r h c) id r' c' ↔
   queued h id r' c' ∨
   (is_Some (h !! id) ∧ r' = r ∧ c' = c ∧
    (id = self ∨ id ∈ unders ∧ fitsInIntersection c r i = false))).
Proof.
  unfold movedTo. destruct (fitsInIntersection c r i).
  - rewrite heap_queueRerender_is_Some, heap_queueRerender_queued_iff.
    split; [done|]. split; (intros [?|?]; [by left|right]).
    + destruct H as (-> & -> & -> & ?). repeat split; auto.
    + destruct H as (? & -> & -> & [->|[_ ?]]); done.
  - destruct (queueUnder_queued_iff unders r c
                (heap_queueRerender self r c h) id r' c') as [-> ->].
    rewrite heap_queueRerender_is_Some, heap_queueRerender_queued_iff.
    split; [done|]. split.
    + intros [[?|(-> & -> & -> & ?)]|(? & ? & -> & ->)]; [by left|right|right];
        repeat split; auto.
    + intros [?|(? & -> & -> & [->|[? _]])]; [by left; left| |].
      * left; right. done.
      * right. done.
Qed.

(** X10.  [updateMovement] of a text whose rectangle has changed queues, for
    the text, the columns of its new rectangle on its row, and for every
    object underneath the columns of the old and of the new rectangle that
    the intersection does not hold; it queues no other cell and no other
    object. *)
Theorem X10_movement_queues_these_cells_only
    (h : Heap) (self : ObjId) (t : TextObject) (prev : Rectangle)
    (id : ObjId) (r c : Z) :
  h !! self = Some (Text t) →
  previousRectangle (text_super t) = Some prev →
  rectangleEquals (rectangle (text_super t)) prev = false →
  let rect := rectangle (text_super t) in
  queued (updateMovement self h) id r c ↔
  queued h id r c ∨
  (id = self ∧ r = row rect ∧ inColumns rect c) ∨
  (is_Some (h !! id) ∧ id ∈ objectsUnder (text_super t) ∧
   fitsInIntersection c r (rectangleIntersection rect prev) = false ∧
   (r = row prev ∧ inColumns prev c ∨ r = row rect ∧ inColumns rect c)).
Proof.
  intros Hself Hprev Hne rect. unfold updateMovement.
  rewrite Hself, Hprev, Hne. simpl. fold rect.
  set (unders := objectsUnder (text_super t)).
  set (i := rectangleIntersection rect prev).
  pose proof (foldl_queued_iff (movedAway unders i (row prev))
    (λ c id r' c', id ∈ unders ∧ r' = row prev ∧ c' = c ∧
                   fitsInIntersection c (row prev) i = false)
    (λ h a id, proj1 (movedAway_queued_iff unders i (row prev) h a id 0 0))
    (λ h a id r c, proj2 (movedAway_queued_iff unders i (row prev) h a id r c)))
    as Haway.
  pose proof (foldl_queued_iff (movedTo self unders i (row rect))
    (λ c id r' c', r' = row rect ∧ c' = c ∧
       (id = self ∨ id ∈ unders ∧ fitsInIntersection c (row rect) i = false))
    (λ h a id, proj1 (movedTo_queued_iff self unders i (row rect) h a id 0 0))
    (λ h a id r c, proj2 (movedTo_queued_iff self unders i (row rect) h a id r c)))
    as Hto.
  destruct (Hto (seqZ (column rect) (width rect))
              (foldl (movedAway unders i (row prev)) h
                 (seqZ (column prev) (width prev))) id r c) as [_ ->].
  destruct (Haway (seqZ (column prev) (width prev)) h id r c) as [-> ->].
  unfold inColumns. split.
  - intros [[?|(Hs & a & Ha & Hu & -> & -> & Hf)]|(Hs & a & Ha & -> & -> & Hw)].
    + by left.
    + right; right. apply elem_of_seqZ in Ha. split; [done|]. split; [done|].
      split; [done|]. left. split; [done | lia].
    + apply elem_of_seqZ in Ha. destruct Hw as [->|[Hu Hf]].
      * right; left. split; [done|]. split; [done | lia].
      * right; right. split; [done|]. split; [done|]. split; [done|].
        right. split; [done | lia].
  - intros [?|[(-> & -> & Hc)|(Hs & Hu & Hf & [[-> Hc]|[-> Hc]])]].
    + by left; left.
    + right. split; [by rewrite Hself|]. exists c.
      split; [apply elem_of_seqZ; lia|]. auto.
    + left; right. split; [done|]. exists c.
      split; [apply elem_of_seqZ; lia|]. done.
    + right. split; [done|]. exists c.
      split; [apply elem_of_seqZ; lia|]. auto.
Qed.


Lemma sameButQueue_refl o : sameButQueue o o.
Proof. done. Qed.

Lemma sameButQueue_trans o1 o2 o3 :
  sameButQueue o1 o2 → sameButQueue o2 o3 → sameButQueue o1 o3.
Proof. unfold sameButQueue. congruence. Qed.

Lemma sameButQueue_queueRerender r c o :
  sameButQueue o (on_super (queueRerender r c) o).
Proof. by destruct o as [[[] ? ?]|[[] ?]]. Qed.

Lemma onlyQueues_refl h : onlyQueues h h.
Proof. intros id. by destruct (h !! id). Qed.

Lemma onlyQueues_trans h1 h2 h3 :
  onlyQueues h1 h2 → onlyQueues h2 h3 → onlyQueues h1 h3.
Proof.
  intros H12 H23 id. specialize (H12 id). specialize (H23 id).
  destruct (h1 !! id), (h2 !! id), (h3 !! id); try done.
  by eapply sameButQueue_trans.
Qed.

Lemma heap_queueRerender_onlyQueues id r c h :
  onlyQueues h (heap_queueRerender id r c h).
Proof.
  intros id'. unfold heap_queueRerender. rewrite lookup_alter.
  case_decide; subst; destruct (h !! id'); simpl; try done.
  apply sameButQueue_queueRerender.
Qed.

Lemma foldl_onlyQueues {A} (f : Heap → A → Heap) :
  (∀ h a, onlyQueues h (f h a)) → ∀ xs h, onlyQueues h (foldl f h xs).
Proof.
  intros Hf xs. induction xs as [|x xs IH]; intros h; simpl.
  - apply onlyQueues_refl.
  - eapply onlyQueues_trans; [apply Hf | apply IH].
Qed.

Lemma queueUnder_onlyQueues unders r c h :
  onlyQueues h (queueUnder unders r c h).
Proof.
  unfold queueUnder. apply (foldl_onlyQueues (λ h' u, heap_queueRerender u r c h')).
  intros. apply heap_queueRerender_onlyQueues.
Qed.

Lemma updateMovement_onlyQueues self h : onlyQueues h (updateMovement self h).
Proof.
  unfold updateMovement.
  destruct (h !! self) as [[t|b]|]; try apply onlyQueues_refl.
  destruct (previousRectangle (text_super t)) as [prev|];
    [|apply onlyQueues_refl].
  destruct (negb _); [|apply onlyQueues_refl].
  eapply (onlyQueues_trans _ (foldl (movedAway _ _ _) h _));
    apply foldl_onlyQueues; intros h0 c.
  - unfold movedAway. destruct (fitsInIntersection _ _ _);
      [apply onlyQueues_refl | apply queueUnder_onlyQueues].
  - unfold movedTo. destruct (fitsInIntersection _ _ _).
    + apply heap_queueRerender_onlyQueues.
    + eapply onlyQueues_trans;
        [apply heap_queueRerender_onlyQueues | apply queueUnder_onlyQueues].
Qed.

Lemma rectangleEquals_refl rect : rectangleEquals rect rect = true.
Proof. unfold rectangleEquals. by rewrite !Z.eqb_refl. Qed.

(** X11.  [updateMovement] takes no object away, adds none, and changes
    nothing of an object but its rerender sets; and it changes nothing at
    all when the text has no previous rectangle or has not moved. *)
Theorem X11_movement_changes_rerender_sets_only
    (h : Heap) (self : ObjId) :
  onlyQueues h (updateMovement self h) ∧
  ∀ t, h !! self = Some (Text t) →
    previousRectangle (text_super t) = None ∨
    previousRectangle (text_super t) = Some (rectangle (text_super t)) →
    updateMovement self h = h.
Proof.
  split; [apply updateMovement_onlyQueues|].
  intros t Hself Hprev. unfold updateMovement. rewrite Hself.
  destruct Hprev as [-> | ->]; [done|]. by rewrite rectangleEquals_refl.
Qed.

Lemma queueChanged_onlyQueues self rect v pv h i :
  onlyQueues h (queueChanged self rect v pv h i).
Proof.
  unfold queueChanged. case_decide;
    [apply onlyQueues_refl | apply heap_queueRerender_onlyQueues].
Qed.

Lemma queueChanged_others self rect v pv ixs h id :
  id ≠ self → foldl (queueChanged self rect v pv) h ixs !! id = h !! id.
Proof.
  intros Hne. revert h. induction ixs as [|i ixs IH]; intros h; simpl; [done|].
  rewrite IH. unfold queueChanged. case_decide; [done|].
  unfold heap_queueRerender. by rewrite lookup_alter_ne.
Qed.

Lemma sameButQueue_Text t o :
  sameButQueue (Text t) o →
  ∃ t', o = Text t' ∧ value t' = value t ∧ previousValue t' = previousValue t ∧
        rectangle (text_super t') = rectangle (text_super t).
Proof.
  unfold sameButQueue. destruct o as [t'|b]; simpl; [|done].
  intros [= H1 H2 H3]. exists t'. repeat split; try done.
  all: unfold set_rerenderCells in H1; by injection H1.
Qed.

(** X12.  [TextObject.update] fails, with the [TypeError] of indexing an
    undefined previous value, only for a rendered text with a value that is
    not empty and no previous value.  When it returns, the text has its
    value as previous value; if the two differed its rectangle is at the
    place [super.update()] left it, as wide as [textWidth(value)] and one
    row high, and if they did not nothing is done after [super.update()];
    every other object is as [super.update()] left it. *)
Theorem X12_update_result
    (superUpdate : ObjId → Heap → Heap) (textWidth : string → Z)
    (self : ObjId) (h : Heap) (t : TextObject) :
  superUpdate self h !! self = Some (Text t) →
  (update superUpdate textWidth self h = None ↔
   rendered (text_super t) = true ∧ previousValue t = None ∧
   value t ≠ EmptyString) ∧
  ∀ h', update superUpdate textWidth self h = Some h' →
    (∃ t', h' !! self = Some (Text t') ∧
       value t' = value t ∧ previousValue t' = Some (value t) ∧
       (previousValue t ≠ Some (value t) →
        rectangle (text_super t') =
          mkRectangle (column (rectangle (text_super t)))
            (row (rectangle (text_super t))) (textWidth (value t)) 1)) ∧
    (previousValue t = Some (value t) → h' = superUpdate self h) ∧
    (∀ id, id ≠ self → h' !! id = superUpdate self h !! id).
Proof.
  intros Hself. unfold update. rewrite Hself.
  destruct (decide (Some (value t) = previousValue t)) as [Heq|Hne].
  { split; [split; [done | intros (_ & Hn & _); congruence]|].
    intros h' [= <-]. split; [|done].
    exists t. repeat split; try done; intros Hd; congruence. }
  assert (∀ h1, onlyQueues (superUpdate self h) h1 →
            (∀ id, id ≠ self → h1 !! id = superUpdate self h !! id) →
            ∀ h', Some (alter (finishUpdate textWidth) self h1) = Some h' →
            (∃ t', h' !! self = Some (Text t') ∧
               value t' = value t ∧ previousValue t' = Some (value t) ∧
               (previousValue t ≠ Some (value t) →
                rectangle (text_super t') =
                  mkRectangle (column (rectangle (text_super t)))
                    (row (rectangle (text_super t))) (textWidth (value t)) 1)) ∧
            (previousValue t = Some (value t) → h' = superUpdate self h) ∧
            (∀ id, id ≠ self → h' !! id = superUpdate self h !! id)) as Hfinish.
  { intros h1 Hq Hothers h' [= <-]. specialize (Hq self). rewrite Hself in Hq.
    destruct (h1 !! self) as [o|] eqn:E; [|done].
    apply sameButQueue_Text in Hq as (t1 & -> & Hv & Hpv & Hrect).
    split; [|split].
    - rewrite lookup_alter_eq, E. simpl. eexists. split; [done|]. simpl.
      rewrite Hv, Hrect. done.
    - intros Hd. congruence.
    - intros id Hid. rewrite lookup_alter_ne by done. by apply Hothers. }
  destruct (rendered (text_super t)) eqn:Hrendered.
  - destruct (previousValue t) as [pv|] eqn:Hpv.
    + simpl. split; [split; [done | intros (_ & ? & _); done]|].
      apply Hfinish.
      * apply foldl_onlyQueues. intros. apply queueChanged_onlyQueues.
      * intros. by apply queueChanged_others.
    + destruct (value t) as [|a v] eqn:Hv; simpl.
      * split; [split; [done | intros (_ & _ & ?); done]|].
        apply Hfinish; [apply onlyQueues_refl | done].
      * split; [done|]. intros h' Hd. done.
  - simpl. split; [split; [done | intros (? & _); done]|].
    apply Hfinish; [apply onlyQueues_refl | done].
Qed.

(** X13.  What [TextObject.update] queues when the value of a rendered text
    has changed: the cells of the indices of the new value at which the new
    and the previous value differ, for the text itself, and nothing else
    after [super.update()]. *)
Theorem X13_update_queues_the_changed_indices
    (superUpdate : ObjId → Heap → Heap) (textWidth : string → Z)
    (self : ObjId) (h : Heap) (t : TextObject) (pv : string) :
  superUpdate self h !! self = Some (Text t) →
  rendered (text_super t) = true →
  previousValue t = Some pv →
  value t ≠ pv →
  ∃ h', update superUpdate textWidth self h = Some h' ∧
    ∀ r c,
      queued h' self r c ↔
      queued (superUpdate self h) self r c ∨
      (r = row (rectangle (text_super t)) ∧
       ∃ i : nat, (i < String.length (value t))%nat ∧
         c = column (rectangle (text_super t)) + Z.of_nat i ∧
         charAt (value t) i ≠ charAt pv i).
Proof. apply update_queues_changed_prefix. Qed.



End TextUpdates.

(** ** text.ts: what render and rerender paint, and when they fail *)

Section TextPaints.
Import Draw DrawViews.

Lemma render_object cv t cv' t' :
  render cv t = Some (cv', t') →
  canvasSize cv' = canvasSize cv ∧
  (t' = t ∨ t' = clearTextOmit (textRow t) t).
Proof.
  unfold render, textRow.
  destruct (_ || _); [intros [= <- <-]; auto|].
  destruct (sizeIs _ _); [intros [= <- <-]; auto|].
  intros H. apply bind_Some in H as (cv1 & E & Heq). injection Heq as <- <-.
  split; [|by right]. by rewrite (renderLoop_canvasSize _ _ _ _ _ E).
Qed.

(** X14.  [TextObject.render] leaves every cell of the frame buffer and of
    the queue as it was, except the cells of its row, on the screen, at the
    column of a character of its value and not in its omit set.  Of the
    object it changes at most the omit set of its row, which it empties. *)
Theorem X14_render_touches_its_cells_only
    (cv cv' : Canvas) (t t' : TextObject) (r c : Z) :
  render cv t = Some (cv', t') →
  (canvasSize cv' = canvasSize cv ∧
   (t' = t ∨ t' = clearTextOmit (textRow t) t)) ∧
  (¬ (r = textRow t ∧ 0 ≤ r < rows (canvasSize cv) ∧
      0 ≤ c < columns (canvasSize cv) ∧ (c ∉ omitted t) ∧
      ∃ i : nat, (i < String.length (value t))%nat ∧ c = textColumn t i) →
   cellAt cv' r c = cellAt cv r c ∧ (inQueue cv' r c ↔ inQueue cv r c)).
Proof.
  intros H. split; [by eapply render_object | by eapply render_elsewhere].
Qed.

Lemma paint_None r c cell cv :
  frameBuffer cv !! r = None → paint r c cell cv = None.
Proof. intros E. unfold paint. by rewrite E. Qed.

Lemma renderLoop_None t omitColumns n s cv :
  frameBuffer cv !! row (rectangle (text_super t)) = None →
  renderLoop t omitColumns (seq s n) cv = None ↔
  ∃ i : nat, (s ≤ i < s + n)%nat ∧
    0 ≤ column (rectangle (text_super t)) + Z.of_nat i < columns (canvasSize cv) ∧
    omitHas omitColumns (column (rectangle (text_super t)) + Z.of_nat i) = false.
Proof.
  intros Hrow. revert s. induction n as [|n IH]; intros s; simpl.
  { split; [done|]. intros (i & ? & _). lia. }
  assert ((∃ i : nat, (S s ≤ i < S s + n)%nat ∧
      0 ≤ column (rectangle (text_super t)) + Z.of_nat i < columns (canvasSize cv) ∧
      omitHas omitColumns (column (rectangle (text_super t)) + Z.of_nat i) = false)
    → ∃ i : nat, (s ≤ i < s + S n)%nat ∧
      0 ≤ column (rectangle (text_super t)) + Z.of_nat i < columns (canvasSize cv) ∧
      omitHas omitColumns (column (rectangle (text_super t)) + Z.of_nat i) = false)
    as Hweaken.
  { intros (i & ? & ?). exists i. split; [lia | done]. }
  assert (∀ P : Prop,
    ¬ (0 ≤ column (rectangle (text_super t)) + Z.of_nat s < columns (canvasSize cv) ∧
       omitHas omitColumns (column (rectangle (text_super t)) + Z.of_nat s) = false) →
    (∃ i : nat, (s ≤ i < s + S n)%nat ∧
      0 ≤ column (rectangle (text_super t)) + Z.of_nat i < columns (canvasSize cv) ∧
      omitHas omitColumns (column (rectangle (text_super t)) + Z.of_nat i) = false) →
    ∃ i : nat, (S s ≤ i < S s + n)%nat ∧
      0 ≤ column (rectangle (text_super t)) + Z.of_nat i < columns (canvasSize cv) ∧
      omitHas omitColumns (column (rectangle (text_super t)) + Z.of_nat i) = false)
    as Hnext.
  { intros _ Hs (i & Hi & Hp). exists i. split; [|done].
    destruct (decide (i = s)) as [->|]; [by destruct Hs | lia]. }
  destruct (_ <? 0) eqn:Hneg.
  { apply Z.ltb_lt in Hneg. rewrite IH. split; [apply Hweaken|].
    apply (Hnext True). lia. }
  apply Z.ltb_ge in Hneg.
  destruct (_ <=? _) eqn:Hbig.
  { apply Z.leb_le in Hbig. split; [done|]. intros (i & ? & ? & _). lia. }
  apply Z.leb_gt in Hbig.
  destruct (omitHas omitColumns (column _ + Z.of_nat s)) eqn:Ho.
  { rewrite IH. split; [apply Hweaken|]. apply (Hnext True).
    intros [_ ?]. congruence. }
  rewrite paint_None by done. simpl. split; [|done].
  intros _. exists s. split; [lia|]. split; [lia | done].
Qed.

Lemma rerenderLoop_None t omitColumns cs cv :
  frameBuffer cv !! row (rectangle (text_super t)) = None →
  rerenderLoop t omitColumns cs cv = None ↔
  ∃ c, c ∈ cs ∧ skipColumn t omitColumns (canvasSize cv) c = false.
Proof.
  intros Hrow. induction cs as [|c cs IH]; simpl.
  { split; [done|]. intros (c & Hc & _). by apply elem_of_nil in Hc. }
  destruct (skipColumn t omitColumns (canvasSize cv) c) eqn:Hskip.
  - rewrite IH. split.
    + intros (c' & Hc' & ?). exists c'. split; [by apply list_elem_of_further | done].
    + intros (c' & Hc' & ?). exists c'. split; [|done].
      apply elem_of_cons in Hc' as [->|]; [congruence | done].
  - rewrite paint_None by done. simpl. split; [|done].
    intros _. exists c. split; [apply list_elem_of_here | done].
Qed.

(** X15.  [render] and [rerender] of a text take the frame-buffer row as it
    is ([frameBuffer[row]], with no [??= []]): each fails with a
    [TypeError] exactly when its row is on the screen, the size guard on the
    omit set does not fire, the frame buffer has no such row, and there is a
    cell to paint. *)
Theorem X15_text_paint_needs_the_buffer_row (cv : Canvas) (t : TextObject) :
  (render cv t = None ↔
   0 ≤ textRow t < rows (canvasSize cv) ∧
   sizeIs (omitCells (text_super t) !! textRow t)
          (width (rectangle (text_super t))) = false ∧
   frameBuffer cv !! textRow t = None ∧
   ∃ i : nat, (i < String.length (value t))%nat ∧
     0 ≤ textColumn t i < columns (canvasSize cv) ∧
     textColumn t i ∉ omitted t) ∧
  (rerender cv t = None ↔
   0 ≤ textRow t < rows (canvasSize cv) ∧
   sizeIs (omitCells (text_super t) !! textRow t)
          (width (rectangle (text_super t))) = false ∧
   frameBuffer cv !! textRow t = None ∧
   is_Some (rerenderCells (text_super t) !! textRow t) ∧
   ∃ c, c ∈ columnsOf (rerenderCells (text_super t)) (textRow t) ∧
     0 ≤ c < columns (canvasSize cv) ∧
     inColumns (rectangle (text_super t)) c ∧
     c ∉ omitted t).
Proof.
  split.
  - unfold render. fold (textRow t).
    destruct (_ || _) eqn:Hrow.
    { split; [done|]. intros (Hr & _). apply orb_true_iff in Hrow as [H|H];
        [apply Z.ltb_lt in H | apply Z.leb_le in H]; lia. }
    apply orb_false_iff in Hrow as [H1 H2].
    apply Z.ltb_ge in H1. apply Z.leb_gt in H2.
    destruct (sizeIs _ _) eqn:Hsize.
    { split; [done|]. by intros (_ & ? & _). }
    destruct (frameBuffer cv !! textRow t) as [rowBuffer|] eqn:Hbuf.
    { destruct (renderLoop_total t (omitCells (text_super t) !! textRow t)
                  (seq 0 (String.length (value t))) (withQueueRow (textRow t) cv))
        as [cv1 E]; [by eexists|].
      rewrite E. simpl. split; [done|]. by intros (_ & _ & ? & _). }
    destruct (renderLoop t _ _ _) as [cv1|] eqn:E; simpl.
    + split; [done|]. intros (_ & _ & _ & i & Hi & Hcol & Homit).
      assert (renderLoop t (omitCells (text_super t) !! textRow t)
                (seq 0 (String.length (value t))) (withQueueRow (textRow t) cv)
              = None) as En; [|congruence].
      apply renderLoop_None; [done|]. exists i. split; [lia|]. split; [done|].
      apply not_true_is_false. by rewrite omitHas_spec.
    + split; [|done]. intros _. apply renderLoop_None in E as (i & Hi & Hcol & Ho);
        [|done].
      repeat split; try lia. exists i. split; [lia|]. split; [done|].
      intros Hin. apply omitHas_spec in Hin.
      unfold textRow, textColumn in *. congruence.
  - unfold rerender. fold (textRow t).
    destruct (rerenderCells (text_super t) !! textRow t) as [cols|] eqn:Hcols.
    2: { split; [done|]. intros (_ & _ & _ & [? ?] & _). done. }
    destruct (sizeIs _ _) eqn:Hsize.
    { split; [done|]. by intros (_ & ? & _). }
    destruct (_ || _) eqn:Hrow.
    { split; [done|]. intros (Hr & _). apply orb_true_iff in Hrow as [H|H];
        [apply Z.ltb_lt in H | apply Z.leb_le in H]; lia. }
    apply orb_false_iff in Hrow as [H1 H2].
    apply Z.ltb_ge in H1. apply Z.leb_gt in H2.
    destruct (frameBuffer cv !! textRow t) as [rowBuffer|] eqn:Hbuf.
    { destruct (rerenderLoop_total t (omitCells (text_super t) !! textRow t)
                  (elements cols) (withQueueRow (textRow t) cv))
        as [cv1 E]; [by eexists|].
      rewrite E. simpl. split; [done|]. by intros (_ & _ & ? & _). }
    destruct (rerenderLoop t _ _ _) as [cv1|] eqn:E; simpl.
    + split; [done|]. intros (_ & _ & _ & _ & c & Hc & Hcol & Hin & Homit).
      assert (rerenderLoop t (omitCells (text_super t) !! textRow t)
                (elements cols) (withQueueRow (textRow t) cv) = None)
        as En; [|congruence].
      apply rerenderLoop_None; [done|]. exists c.
      unfold columnsOf in Hc. rewrite Hcols in Hc. simpl in Hc.
      split; [by apply elem_of_elements|].
      apply skipColumn_spec. done.
    + split; [|done]. intros _.
      apply rerenderLoop_None in E as (c & Hc & Hskip); [|done].
      apply skipColumn_spec in Hskip as (? & ? & ?).
      repeat split; try lia; try done. exists c.
      unfold columnsOf. rewrite Hcols. simpl.
      split; [by apply elem_of_elements | done].
Qed.


Lemma rerender_object cv t cv' t' :
  rerender cv t = Some (cv', t') →
  t' = t ∨ t' = clearTextOmit (textRow t) t ∨
  t' = clearTextOmit (textRow t) (clearTextRerender (textRow t) t).
Proof.
  unfold rerender, textRow.
  destruct (rerenderCells _ !! _); [|intros [= <- <-]; auto].
  destruct (sizeIs _ _); [intros [= <- <-]; auto|].
  destruct (_ || _); [intros [= <- <-]; auto|].
  intros H. apply bind_Some in H as (cv1 & E & Heq). injection Heq as <- <-.
  auto.
Qed.

(** X16.  [TextObject.rerender] leaves every cell of the frame buffer and
    of the queue as it was, except the cells of its row that are in its
    rerender set, on the screen, inside its rectangle and not in its omit
    set.  Of the object it changes at most the rerender set and the omit set
    of its row, which it empties. *)
Theorem X16_rerender_touches_its_queued_cells_only
    (cv cv' : Canvas) (t t' : TextObject) (r c : Z) :
  rerender cv t = Some (cv', t') →
  (t' = t ∨ t' = clearTextOmit (textRow t) t ∨
   t' = clearTextOmit (textRow t) (clearTextRerender (textRow t) t)) ∧
  (¬ (r = textRow t ∧ 0 ≤ r < rows (canvasSize cv) ∧
      c ∈ columnsOf (rerenderCells (text_super t)) (textRow t) ∧
      0 ≤ c < columns (canvasSize cv) ∧
      column (rectangle (text_super t)) ≤ c
        < column (rectangle (text_super t)) + width (rectangle (text_super t)) ∧
      c ∉ omitted t) →
   cellAt cv' r c = cellAt cv r c ∧ (inQueue cv' r c ↔ inQueue cv r c)).
Proof.
  intros H. split; [by eapply rerender_object | by eapply text_rerender_elsewhere].
Qed.

Lemma rerenderLoop_canvasSize t omitColumns cs cv cv' :
  rerenderLoop t omitColumns cs cv = Some cv' → canvasSize cv' = canvasSize cv.
Proof.
  revert cv. induction cs as [|c cs IH]; intros cv; simpl; [by intros [= <-]|].
  destruct (skipColumn _ _ _ _); [by apply IH|].
  intros Hloop. apply bind_Some in Hloop as (cv1 & E1 & E2).
  rewrite (IH _ E2). eapply paint_canvasSize; eauto.
Qed.

Lemma rerenderLoop_paints t omitColumns cs cv cv' c :
  rerenderLoop t omitColumns cs cv = Some cv' →
  c ∈ cs →
  skipColumn t omitColumns (canvasSize cv) c = false →
  cellAt cv' (row (rectangle (text_super t))) c
    = Some (style (text_super t)
              (charAt (value t) (Z.to_nat (c - column (rectangle (text_super t))))))
  ∧ inQueue cv' (row (rectangle (text_super t))) c.
Proof.
  revert cv. induction cs as [|x cs IH]; intros cv Hloop Hin Hskip;
    [by apply elem_of_nil in Hin|].
  simpl in Hloop.
  destruct (skipColumn t omitColumns (canvasSize cv) x) eqn:Hx.
  { apply (IH cv); [done| |done].
    apply elem_of_cons in Hin as [->|]; [congruence | done]. }
  apply bind_Some in Hloop as (cv1 & E1 & E2).
  destruct (decide (c ∈ cs)) as [Hc|Hc].
  { apply (IH cv1); [done | done |].
    by rewrite (paint_canvasSize _ _ _ _ _ E1). }
  apply elem_of_cons in Hin as [->|]; [|done].
  destruct (rerenderLoop_frame _ _ _ _ _ (row (rectangle (text_super t))) x E2)
    as [-> ->]; [by right; left|].
  rewrite (paint_cellAt _ _ _ _ _ _ _ E1), (paint_inQueue _ _ _ _ _ _ _ E1).
  rewrite decide_True by done. auto.
Qed.

(** X17.  On the path that paints, [TextObject.rerender] writes
    [style(value[column - rectangle.column])] into the frame buffer and
    queues the column, for every column of its rerender set that is on the
    screen, inside its rectangle and not in its omit set. *)
Theorem X17_rerender_paints_every_queued_cell
    (cv cv' : Canvas) (t t' : TextObject) (c : Z) :
  rerender cv t = Some (cv', t') →
  sizeIs (omitCells (text_super t) !! textRow t)
         (width (rectangle (text_super t))) = false →
  0 ≤ textRow t < rows (canvasSize cv) →
  c ∈ columnsOf (rerenderCells (text_super t)) (textRow t) →
  0 ≤ c < columns (canvasSize cv) →
  inColumns (rectangle (text_super t)) c →
  c ∉ omitted t →
  cellAt cv' (textRow t) c
    = Some (style (text_super t)
              (charAt (value t) (Z.to_nat (c - column (rectangle (text_super t))))))
  ∧ inQueue cv' (textRow t) c.
Proof.
  unfold rerender. fold (textRow t). intros H Hsize Hrow Hc Hcol Hin Homit.
  unfold columnsOf in Hc.
  destruct (rerenderCells (text_super t) !! textRow t) as [cols|] eqn:Hcols;
    [|by apply elem_of_empty in Hc].
  simpl in Hc. rewrite Hsize in H.
  assert ((textRow t <? 0) || (rows (canvasSize cv) <=? textRow t) = false)
    as Hb.
  { apply orb_false_iff. split; [apply Z.ltb_ge | apply Z.leb_gt]; lia. }
  rewrite Hb in H. apply bind_Some in H as (cv1 & E & Heq). injection Heq as <- <-.
  apply (rerenderLoop_paints _ _ _ _ _ c E); [by apply elem_of_elements|].
  apply skipColumn_spec. done.
Qed.

(** X18.  On the path that paints, [TextObject.rerender] leaves the
    rerender set and the omit set of its row empty. *)
Theorem X18_rerender_empties_both_sets
    (cv cv' : Canvas) (t t' : TextObject) :
  rerender cv t = Some (cv', t') →
  is_Some (rerenderCells (text_super t) !! textRow t) →
  sizeIs (omitCells (text_super t) !! textRow t)
         (width (rectangle (text_super t))) = false →
  0 ≤ textRow t < rows (canvasSize cv) →
  columnsOf (rerenderCells (text_super t')) (textRow t) = ∅ ∧
  columnsOf (omitCells (text_super t')) (textRow t) = ∅.
Proof. apply text_rerender_clears. Qed.

End TextPaints.

(** ** box.ts: what rerender paints and what it leaves of the tables *)

Section BoxPaints.
Import Draw DrawViews BoxObj.

(** X19.  [BoxObject.rerender] leaves every cell of the frame buffer and of
    the queue as it was, except the cells that are in the box's rerender
    set and not in its omit set, from the first row and column of its
    rectangle up to, and without, [rowRange] and [columnRange]: nothing is
    written at or after the bottom or right edge of the rectangle, of the
    screen or of the view. *)
Theorem X19_box_rerender_touches_its_queued_cells_only
    (cv : Canvas) (b : BoxObject) (r c : Z) :
  ¬ (row (rectangle (box_super b)) ≤ r < rowRange cv b ∧
     column (rectangle (box_super b)) ≤ c < columnRange cv b ∧
     c ∈ columnsOf (rerenderCells (box_super b)) r ∧
     c ∉ columnsOf (omitCells (box_super b)) r) →
  cellAt (BoxObj.rerender cv b).1 r c = cellAt cv r c ∧
  (inQueue (BoxObj.rerender cv b).1 r c ↔ inQueue cv r c).
Proof. apply box_rerender_elsewhere. Qed.

Lemma arrayLength_above (cells : gmap Z (gset Z)) r :
  is_Some (cells !! r) → r < arrayLength cells.
Proof.
  unfold arrayLength. revert r.
  apply (map_fold_weak_ind
           (λ acc (m : gmap Z (gset Z)), ∀ r, is_Some (m !! r) → r < acc)).
  - intros r [? H]. by rewrite lookup_empty in H.
  - intros i x m acc Hi IH r Hr. rewrite lookup_insert in Hr.
    case_decide; subst; [lia|]. specialize (IH r Hr). lia.
Qed.

Lemma rerenderColumns_paints b colRange omitColumns r cs cv c :
  c ∈ cs → skipBoxColumn b colRange omitColumns c = false →
  let cv' := foldl (rerenderColumn b colRange omitColumns r) cv cs in
  cellAt cv' r c = Some (style (box_super b) (Str (filler b))) ∧ inQueue cv' r c.
Proof.
  revert cv. induction cs as [|x cs IH]; intros cv Hin Hskip;
    [by apply elem_of_nil in Hin|].
  simpl. destruct (decide (c ∈ cs)) as [Hc|Hc]; [by apply IH|].
  apply elem_of_cons in Hin as [->|]; [|done].
  destruct (rerenderColumns_frame b colRange omitColumns r cs
              (rerenderColumn b colRange omitColumns r cv x) r x) as [-> ->];
    [by right; left|].
  unfold rerenderColumn. rewrite Hskip.
  rewrite cellAt_paintBox, inQueue_paintBox, decide_True by done. auto.
Qed.

Lemma rerenderRow_paints rRange colRange cv b r c :
  r < rRange →
  c ∈ columnsOf (rerenderCells (box_super b)) r →
  sizeIs (omitCells (box_super b) !! r) (width (rectangle (box_super b))) = false →
  skipBoxColumn b colRange (omitCells (box_super b) !! r) c = false →
  cellAt (rerenderRow rRange colRange (cv, b) r).1 r c
    = Some (style (box_super b) (Str (filler b))) ∧
  inQueue (rerenderRow rRange colRange (cv, b) r).1 r c.
Proof.
  intros Hr Hc Hsize Hskip. unfold rerenderRow, columnsOf in *.
  destruct (rerenderCells (box_super b) !! r) as [cols|];
    [|by apply elem_of_empty in Hc].
  simpl in Hc. apply Z.leb_gt in Hr. rewrite Hr, Hsize. simpl.
  apply rerenderColumns_paints; [by apply elem_of_elements | done].
Qed.

Lemma rerenderRow_tables rRange colRange cv b r :
  let b' := (rerenderRow rRange colRange (cv, b) r).2 in
  (¬ (r < rRange ∧ is_Some (rerenderCells (box_super b) !! r)) → b' = b) ∧
  (r < rRange ∧ is_Some (rerenderCells (box_super b) !! r) →
   columnsOf (omitCells (box_super b')) r = ∅ ∧
   if sizeIs (omitCells (box_super b) !! r) (width (rectangle (box_super b)))
   then rerenderCells (box_super b') !! r = rerenderCells (box_super b) !! r
   else columnsOf (rerenderCells (box_super b')) r = ∅).
Proof.
  cbv zeta. unfold rerenderRow.
  destruct (rerenderCells (box_super b) !! r) as [cols|] eqn:Hcols; simpl.
  2: { split; [done|]. by intros [_ [? ?]]. }
  destruct (rRange <=? r) eqn:Hr; simpl.
  { apply Z.leb_le in Hr. split; [done|]. intros [? _]. lia. }
  apply Z.leb_gt in Hr. split.
  { intros Hn. destruct Hn. by split. }
  intros _.
  assert (columnsOf (clearRow r (omitCells (box_super b))) r = ∅) as Homit.
  { unfold columnsOf, clearRow. rewrite lookup_alter_eq.
    by destruct (omitCells (box_super b) !! r). }
  destruct (sizeIs _ _); simpl; [done|]. split; [done|].
  unfold columnsOf, clearRow. by rewrite lookup_alter_eq, Hcols.
Qed.

(** The turn of a row in the loop over the rows: the turns before it leave
    the row's entries of the tables and its cells as they are, and so do the
    turns after it. *)
Lemma rerenderRows_split rRange colRange rs r cv b :
  NoDup rs → r ∈ rs →
  ∃ cv1 rc1 oc1,
    rc1 !! r = rerenderCells (box_super b) !! r ∧
    oc1 !! r = omitCells (box_super b) !! r ∧
    let st2 := rerenderRow rRange colRange (cv1, withCells rc1 oc1 b) r in
    let st := foldl (rerenderRow rRange colRange) (cv, b) rs in
    (∀ c, cellAt st.1 r c = cellAt st2.1 r c ∧
          (inQueue st.1 r c ↔ inQueue st2.1 r c)) ∧
    rerenderCells (box_super st.2) !! r = rerenderCells (box_super st2.2) !! r ∧
    omitCells (box_super st.2) !! r = omitCells (box_super st2.2) !! r.
Proof.
  intros Hnd Hin. apply list_elem_of_split in Hin as (pre & post & ->).
  apply NoDup_app in Hnd as (Hpre & Hdisj & Hpost).
  apply NoDup_cons in Hpost as [Hr Hpost].
  assert (r ∉ pre) as Hr'.
  { intros Hin. apply (Hdisj r Hin), list_elem_of_here. }
  destruct (rerenderRows_frame rRange colRange pre Hpre cv b)
    as [(rc1 & oc1 & Hb1 & Hsame1) _].
  destruct (Hsame1 r Hr') as [E1 E2].
  exists (foldl (rerenderRow rRange colRange) (cv, b) pre).1, rc1, oc1.
  split; [done|]. split; [done|]. cbv zeta.
  rewrite foldl_app. cbn [foldl].
  rewrite <- Hb1, <- surjective_pairing.
  set (st2 := rerenderRow rRange colRange
                (foldl (rerenderRow rRange colRange) (cv, b) pre) r).
  rewrite (surjective_pairing st2).
  destruct (rerenderRows_frame rRange colRange post Hpost st2.1 st2.2)
    as [(rc2 & oc2 & Hb2 & Hsame2) Hcells].
  split.
  - intros c. apply Hcells. by intros (? & _).
  - rewrite Hb2. simpl. by apply Hsame2.
Qed.

(** X20.  [BoxObject.rerender] writes [style(filler)] into the frame buffer
    and queues the column, for every cell of its rerender set that is not in
    its omit set and lies from the first row and column of its rectangle up
    to [rowRange] and [columnRange], on a row whose omit set is not as large
    as the rectangle is wide.  The frame-buffer row need not exist. *)
Theorem X20_box_rerender_paints_every_queued_cell
    (cv : Canvas) (b : BoxObject) (r c : Z) :
  row (rectangle (box_super b)) ≤ r < rowRange cv b →
  column (rectangle (box_super b)) ≤ c < columnRange cv b →
  c ∈ columnsOf (rerenderCells (box_super b)) r →
  c ∉ columnsOf (omitCells (box_super b)) r →
  sizeIs (omitCells (box_super b) !! r) (width (rectangle (box_super b))) = false →
  cellAt (BoxObj.rerender cv b).1 r c
    = Some (style (box_super b) (Str (filler b))) ∧
  inQueue (BoxObj.rerender cv b).1 r c.
Proof.
  intros Hr Hc Hin Homit Hsize. unfold BoxObj.rerender.
  assert (is_Some (rerenderCells (box_super b) !! r)) as Hsome.
  { unfold columnsOf in Hin. destruct (rerenderCells (box_super b) !! r);
      [by eexists | by apply elem_of_empty in Hin]. }
  destruct (rerenderRows_split (rowRange cv b) (columnRange cv b)
              (seqZ (row (rectangle (box_super b)))
                 (arrayLength (rerenderCells (box_super b))
                  - row (rectangle (box_super b)))) r cv b)
    as (cv1 & rc1 & oc1 & E1 & E2 & Hcells & _).
  { apply NoDup_seqZ. }
  { apply elem_of_seqZ. apply arrayLength_above in Hsome. lia. }
  destruct (Hcells c) as [-> ->].
  apply (rerenderRow_paints (rowRange cv b) (columnRange cv b) cv1
           (withCells rc1 oc1 b) r c); simpl.
  - lia.
  - unfold columnsOf in *. by rewrite E1.
  - by rewrite E2.
  - rewrite E2. unfold skipBoxColumn. simpl.
    rewrite !orb_false_iff, Z.ltb_ge, Z.leb_gt.
    split; [split; [|lia] | lia].
    apply not_true_is_false. by rewrite omitHas_spec.
Qed.

(** What [BoxObject.rerender] leaves of the two tables, row by row. *)
Lemma box_rerender_tables (cv : Canvas) (b : BoxObject) :
  ∃ rc oc, (BoxObj.rerender cv b).2 = withCells rc oc b ∧
    ∀ r,
      (row (rectangle (box_super b)) ≤ r < rowRange cv b ∧
       is_Some (rerenderCells (box_super b) !! r) →
       columnsOf oc r = ∅ ∧
       if sizeIs (omitCells (box_super b) !! r)
                 (width (rectangle (box_super b)))
       then rc !! r = rerenderCells (box_super b) !! r
       else columnsOf rc r = ∅) ∧
      (¬ (row (rectangle (box_super b)) ≤ r < rowRange cv b ∧
          is_Some (rerenderCells (box_super b) !! r)) →
       rc !! r = rerenderCells (box_super b) !! r ∧
       oc !! r = omitCells (box_super b) !! r).
Proof.
  unfold BoxObj.rerender.
  set (rs := seqZ (row (rectangle (box_super b)))
               (arrayLength (rerenderCells (box_super b))
                - row (rectangle (box_super b)))).
  destruct (rerenderRows_frame (rowRange cv b) (columnRange cv b) rs
              (NoDup_seqZ _ _) cv b) as [(rc & oc & Hb & Hsame) _].
  exists rc, oc. split; [done|]. intros r.
  destruct (decide (r ∈ rs)) as [Hin|Hin].
  2: { split; [|intros _; by apply Hsame].
       intros [Hr Hsome]. destruct Hin. apply elem_of_seqZ.
       apply arrayLength_above in Hsome. lia. }
  destruct (rerenderRows_split (rowRange cv b) (columnRange cv b) rs r cv b
              (NoDup_seqZ _ _) Hin) as (cv1 & rc1 & oc1 & E1 & E2 & _ & T1 & T2).
  cbv zeta in T1, T2. rewrite Hb in T1, T2. simpl in T1, T2.
  pose proof (rerenderRow_tables (rowRange cv b) (columnRange cv b) cv1
                (withCells rc1 oc1 b) r) as [Hskip Hdone].
  cbv zeta in Hskip, Hdone. simpl in Hskip, Hdone.
  rewrite E1, E2 in *.
  apply elem_of_seqZ in Hin. split.
  - intros [Hr Hsome]. destruct Hdone as [Ho Hq].
    { split; [lia | done]. }
    unfold columnsOf in *. rewrite T2. split; [done|].
    destruct (sizeIs _ _); by rewrite T1.
  - intros Hn.
    assert (¬ (r < rowRange cv b ∧ is_Some (rerenderCells (box_super b) !! r)))
      as Hx.
    { intros [Hr Hsome]. apply Hn. split; [lia | done]. }
    rewrite (Hskip Hx) in T1, T2. simpl in T1, T2.
    by rewrite T1, T2, E1, E2.
Qed.

(** X21.  Of the box [BoxObject.rerender] changes only the rerender and omit
    tables, and only at the rows it works on: those from the first row of
    the rectangle up to [rowRange] that have a rerender set.  There the omit
    set is left empty, and so is the rerender set, except on a row whose
    omit set was as large as the rectangle is wide, where the rerender set
    stays as it was. *)
Theorem X21_box_rerender_tables (cv : Canvas) (b : BoxObject) :
  ∃ rc oc, (BoxObj.rerender cv b).2 = withCells rc oc b ∧
    ∀ r,
      (row (rectangle (box_super b)) ≤ r < rowRange cv b ∧
       is_Some (rerenderCells (box_super b) !! r) →
       columnsOf oc r = ∅ ∧
       if sizeIs (omitCells (box_super b) !! r)
                 (width (rectangle (box_super b)))
       then rc !! r = rerenderCells (box_super b) !! r
       else columnsOf rc r = ∅) ∧
      (¬ (row (rectangle (box_super b)) ≤ r < rowRange cv b ∧
          is_Some (rerenderCells (box_super b) !! r)) →
       rc !! r = rerenderCells (box_super b) !! r ∧
       oc !! r = omitCells (box_super b) !! r).
Proof. apply box_rerender_tables. Qed.



End BoxPaints.
(** ** textbox.ts: the key handler *)

Section TextboxKeys.
Import Textbox.
Local Open Scope string_scope.
Local Open Scope Z_scope.

(** Comparisons of integers, read as propositions. *)
Ltac zbool :=
  first [apply Z.ltb_ge | apply Z.ltb_lt | apply Z.leb_le | apply Z.leb_gt
        | apply Z.eqb_eq | apply Z.eqb_neq];
  lia.

(** *** Strings *)

Lemma string_app_cons ch (a b : string) : String ch a ++ b = String ch (a ++ b).
Proof. done. Qed.

Lemma string_app_nil_l (a : string) : "" ++ a = a.
Proof. done. Qed.

Lemma string_app_assoc (a b c : string) : (a ++ b) ++ c = a ++ b ++ c.
Proof.
  induction a as [|ch a IH]; [done|]. by rewrite !string_app_cons, IH.
Qed.

Lemma string_app_nil_r (a : string) : a ++ "" = a.
Proof. induction a as [|ch a IH]; [done|]. by rewrite string_app_cons, IH. Qed.

Lemma string_length_app (a b : string) :
  String.length (a ++ b) = (String.length a + String.length b)%nat.
Proof.
  induction a as [|ch a IH]; [done|]. rewrite string_app_cons. simpl.
  by rewrite IH.
Qed.

Lemma length_firstChars n s :
  String.length (firstChars n s) = (n `min` String.length s)%nat.
Proof.
  revert s. induction n as [|n IH]; intros [|ch s]; simpl; try done.
  by rewrite IH.
Qed.

Lemma firstChars_fromChar n s : firstChars n s ++ fromChar n s = s.
Proof.
  revert s. induction n as [|n IH]; intros [|ch s]; simpl; try done.
  by rewrite string_app_cons, IH.
Qed.

Lemma length_fromChar n s :
  String.length (fromChar n s) = (String.length s - n)%nat.
Proof.
  revert s. induction n as [|n IH]; intros [|ch s]; simpl; done.
Qed.

Lemma firstChars_app_add a b n :
  firstChars (String.length a + n) (a ++ b) = a ++ firstChars n b.
Proof.
  induction a as [|ch a IH]; [done|].
  rewrite !string_app_cons. simpl. by rewrite IH.
Qed.

Lemma fromChar_app_add a b n :
  fromChar (String.length a + n) (a ++ b) = fromChar n b.
Proof.
  induction a as [|ch a IH]; [done|]. by rewrite string_app_cons.
Qed.

Lemma firstChars_0 s : firstChars 0 s = "".
Proof. by destruct s. Qed.

Lemma fromChar_0 s : fromChar 0 s = s.
Proof. by destruct s. Qed.

Lemma firstChars_app a b : firstChars (String.length a) (a ++ b) = a.
Proof.
  rewrite <- (Nat.add_0_r (String.length a)), firstChars_app_add.
  by rewrite firstChars_0, string_app_nil_r.
Qed.

Lemma fromChar_app a b : fromChar (String.length a) (a ++ b) = b.
Proof.
  rewrite <- (Nat.add_0_r (String.length a)), fromChar_app_add.
  apply fromChar_0.
Qed.

Lemma firstChars_all n s : (String.length s ≤ n)%nat → firstChars n s = s.
Proof.
  revert s. induction n as [|n IH]; intros [|ch s]; simpl; try done; [lia|].
  intros H. rewrite IH; [done | lia].
Qed.

Lemma fromChar_all n s : (String.length s ≤ n)%nat → fromChar n s = "".
Proof.
  revert s. induction n as [|n IH]; intros [|ch s]; simpl; try done; [lia|].
  intros H. apply IH. lia.
Qed.

Lemma slice_to s x :
  0 ≤ x ≤ stringLength s → slice s 0 (Some x) = firstChars (Z.to_nat x) s.
Proof.
  intros Hx. unfold slice. cbv zeta.
  assert ((x <? 0) = false) as -> by zbool.
  change (0 <? 0) with false. cbv iota.
  rewrite (Z.min_l 0), (Z.min_l x), Z.sub_0_r by lia.
  change (Z.to_nat 0) with 0%nat. by rewrite fromChar_0.
Qed.

Lemma slice_from s x :
  0 ≤ x ≤ stringLength s → slice s x None = fromChar (Z.to_nat x) s.
Proof.
  intros Hx. unfold slice. cbv zeta.
  assert ((x <? 0) = false) as -> by zbool.
  rewrite Z.min_l by lia. apply firstChars_all.
  unfold stringLength in *. rewrite length_fromChar. lia.
Qed.

Lemma substring_to s x :
  x ≤ stringLength s → substring s 0 (Some x) = firstChars (Z.to_nat x) s.
Proof.
  intros Hx. unfold substring. cbv zeta. unfold stringLength in *.
  rewrite (Z.max_l 0 0), (Z.min_l 0 (Z.of_nat _)) by lia.
  destruct (decide (0 ≤ x)).
  - rewrite (Z.max_l x 0), (Z.min_l x) by lia.
    rewrite (Z.max_r 0 x), (Z.min_l 0 x), Z.sub_0_r by lia.
    change (Z.to_nat 0) with 0%nat. by rewrite fromChar_0.
  - rewrite (Z.max_r x 0), (Z.min_l 0 (Z.of_nat _)) by lia.
    rewrite Z.max_l, Z.min_l, Z.sub_0_r by lia.
    assert (Z.to_nat x = 0%nat) as -> by lia.
    change (Z.to_nat 0) with 0%nat. by rewrite fromChar_0.
Qed.

Lemma substring_from s x :
  0 ≤ x → substring s x None = fromChar (Z.to_nat x) s.
Proof.
  intros Hx. unfold substring. cbv zeta. unfold stringLength.
  rewrite (Z.max_l x 0) by lia.
  destruct (decide (x ≤ Z.of_nat (String.length s))).
  - rewrite (Z.min_l x), Z.max_r, Z.min_l by lia.
    apply firstChars_all. rewrite length_fromChar. lia.
  - rewrite (Z.min_r x), Z.max_l, Z.min_l, Z.sub_diag by lia.
    change (Z.to_nat 0) with 0%nat. rewrite firstChars_0.
    symmetry. apply fromChar_all. lia.
Qed.

(** *** Arrays without holes *)

Lemma dense_ofLines a : dense a → ∃ ls, a = ofLines ls (negative a).
Proof.
  destruct a as [el neg]. unfold dense, ofLines. simpl.
  induction 1 as [|e el [line ->] _ [ls IH]].
  - by exists [].
  - exists (line :: ls). injection IH as ->. done.
Qed.

Lemma ofLines_dense ls neg : dense (ofLines ls neg).
Proof.
  unfold dense, ofLines. simpl. apply Forall_fmap, Forall_true. by eexists.
Qed.

Lemma lengthOf_ofLines ls neg : lengthOf (ofLines ls neg) = Z.of_nat (length ls).
Proof. unfold lengthOf, ofLines. simpl. by rewrite length_fmap. Qed.

Lemma get_ofLines ls neg (j : nat) : get (ofLines ls neg) (Z.of_nat j) = ls !! j.
Proof.
  unfold get, ofLines. simpl.
  assert ((Z.of_nat j <? 0) = false) as -> by zbool.
  rewrite Nat2Z.id, list_lookup_fmap. by destruct (ls !! j).
Qed.

Lemma assign_ofLines ls neg (j : nat) s :
  (j < length ls)%nat →
  assign (Z.of_nat j) s (ofLines ls neg) = ofLines (<[j := s]> ls) neg.
Proof.
  intros Hj. unfold assign. rewrite lengthOf_ofLines.
  assert ((Z.of_nat j <? 0) = false) as -> by zbool.
  assert ((Z.of_nat j <? Z.of_nat (length ls)) = true) as -> by zbool.
  unfold ofLines. simpl. by rewrite Nat2Z.id, list_fmap_insert.
Qed.

Lemma assign_ofLines_end ls neg s :
  assign (Z.of_nat (length ls)) s (ofLines ls neg) = ofLines (ls ++ [s]) neg.
Proof.
  unfold assign. rewrite lengthOf_ofLines.
  assert ((Z.of_nat (length ls) <? 0) = false) as -> by zbool.
  assert ((Z.of_nat (length ls) <? Z.of_nat (length ls)) = false) as -> by zbool.
  rewrite Z.sub_diag. unfold ofLines. simpl. by rewrite fmap_app.
Qed.

Lemma orEmpty_ofLines ls neg (j : nat) line :
  ls !! j = Some line → orEmpty (Z.of_nat j) (ofLines ls neg) = ofLines ls neg.
Proof.
  intros Hline. unfold orEmpty. rewrite get_ofLines, Hline.
  destruct line; [|done].
  rewrite assign_ofLines by (by eapply lookup_lt_Some).
  by rewrite list_insert_id.
Qed.

Lemma splice_ofLines ls neg (s c : nat) items :
  (s + c ≤ length ls)%nat →
  splice (Z.of_nat s) (Z.of_nat c) items (ofLines ls neg) =
  (ofLines (take s ls ++ items ++ drop (s + c) ls) neg,
   Some <$> take c (drop s ls)).
Proof.
  intros Hs. unfold splice. rewrite lengthOf_ofLines.
  assert ((Z.of_nat s <? 0) = false) as -> by zbool.
  rewrite (Z.min_l (Z.of_nat s)), (Z.max_l (Z.of_nat c)), (Z.min_l (Z.of_nat c))
    by lia.
  rewrite !Nat2Z.id. unfold ofLines. simpl.
  by rewrite !fmap_app, !fmap_take, !fmap_drop.
Qed.

Lemma splice_insert ls neg (s : nat) items :
  (s ≤ length ls)%nat →
  splice (Z.of_nat s) 0 items (ofLines ls neg) =
  (ofLines (take s ls ++ items ++ drop s ls) neg, []).
Proof.
  intros Hs. pose proof (splice_ofLines ls neg s 0 items) as H.
  rewrite Nat.add_0_r in H. apply H. lia.
Qed.

Lemma splice_delete ls neg (s : nat) line :
  ls !! s = Some line →
  splice (Z.of_nat s) 1 [] (ofLines ls neg) =
  (ofLines (take s ls ++ drop (S s) ls) neg, [Some line]).
Proof.
  intros Hs. pose proof (splice_ofLines ls neg s 1 []) as H.
  rewrite Nat.add_1_r in H. simpl in H.
  apply lookup_lt_Some in Hs as Hlt.
  rewrite (drop_S _ _ _ Hs) in H. simpl in H. apply H. lia.
Qed.

(** *** The branches of the handler, on a value without holes *)


Lemma wellFormed_editing ls neg x (j : nat) ml line :
  ls !! j = Some line → 0 ≤ x ≤ stringLength line →
  wellFormed (editing ls neg x j ml).
Proof.
  intros Hline Hx. unfold wellFormed, editing. simpl.
  split; [apply ofLines_dense|]. rewrite lengthOf_ofLines, get_ofLines.
  apply lookup_lt_Some in Hline as Hj. split; [lia|]. by exists line.
Qed.

Lemma wellFormed_inv st :
  wellFormed st →
  ∃ ls neg x (j : nat) ml line,
    st = editing ls neg x j ml ∧
    ls !! j = Some line ∧ 0 ≤ x ≤ stringLength line.
Proof.
  destruct st as [v [x y] ml]. unfold wellFormed. simpl.
  intros (Hdense & Hy & line & Hline & Hx).
  destruct (dense_ofLines v Hdense) as [ls Hv].
  exists ls, (negative v), x, (Z.to_nat y), ml, line. unfold editing.
  rewrite Z2Nat.id by lia. split; [by rewrite <- Hv|].
  split; [|done]. rewrite Hv in Hline.
  rewrite <- (Z2Nat.id y) in Hline by lia. by rewrite get_ofLines in Hline.
Qed.

(** The fields of the state, read off. *)
Ltac fields := cbn [position value multiline Textbox.x Textbox.y].

Section Branches.
Context (ls : list string) (neg : gmap Z string) (x : Z) (j : nat) (ml : bool)
  (line : string).
Hypothesis Hline : ls !! j = Some line.
Hypothesis Hx : 0 ≤ x ≤ stringLength line.

Lemma insertKey_editing k :
  insertKey k (editing ls neg x j ml) =
  Done (editing
          (<[j := firstChars (Z.to_nat x) line ++ k ++ fromChar (Z.to_nat x) line]> ls)
          neg (x + 1) j ml).
Proof using Hline Hx.
  unfold insertKey, editing. fields.
  rewrite (orEmpty_ofLines _ _ _ _ Hline), get_ofLines, Hline.
  rewrite slice_to, slice_from by done.
  by rewrite assign_ofLines by (by eapply lookup_lt_Some).
Qed.

Lemma moveToLine_editing (j' : nat) line' :
  ls !! j' = Some line' →
  moveToLine (Z.of_nat j') (editing ls neg x j ml) =
  Done (editing ls neg (clampX line' x) j' ml).
Proof using Hline Hx.
  intros Hline'. unfold moveToLine, editing. fields.
  by rewrite (orEmpty_ofLines _ _ _ _ Hline'), get_ofLines, Hline'.
Qed.

Lemma onUp_editing line' :
  ls !! pred j = Some line' →
  onUp (editing ls neg x j ml) = Done (editing ls neg (clampX line' x) (pred j) ml).
Proof using Hline Hx.
  intros Hline'. unfold onUp, editing. fields.
  fold (editing ls neg x j ml).
  replace (Z.max 0 (Z.of_nat j - 1)) with (Z.of_nat (pred j)) by lia.
  by apply moveToLine_editing.
Qed.

Lemma onDown_editing line' :
  ls !! (S j `min` pred (length ls))%nat = Some line' →
  onDown (editing ls neg x j ml) =
  Done (editing ls neg (clampX line' x) (S j `min` pred (length ls))%nat ml).
Proof using Hline Hx.
  intros Hline'. unfold onDown, editing. fields.
  fold (editing ls neg x j ml). rewrite lengthOf_ofLines.
  apply lookup_lt_Some in Hline as Hj.
  replace (Z.min (Z.of_nat j + 1) (Z.of_nat (length ls) - 1))
    with (Z.of_nat (S j `min` pred (length ls))%nat) by lia.
  by apply moveToLine_editing.
Qed.

Lemma onLeft_editing :
  onLeft (editing ls neg x j ml) = Done (editing ls neg (Z.max 0 (x - 1)) j ml).
Proof using Hline Hx. done. Qed.

Lemma onRight_editing :
  onRight (editing ls neg x j ml) =
  Done (editing ls neg (Z.min (x + 1) (stringLength line)) j ml).
Proof using Hline Hx.
  unfold onRight, editing. fields. by rewrite get_ofLines, Hline.
Qed.

Lemma onHome_editing :
  onHome (editing ls neg x j ml) = Done (editing ls neg 0 j ml).
Proof using Hline Hx. done. Qed.

Lemma onEnd_editing :
  onEnd (editing ls neg x j ml) = Done (editing ls neg (stringLength line) j ml).
Proof using Hline Hx.
  unfold onEnd, editing. fields. by rewrite get_ofLines, Hline.
Qed.

(** ["return"] at the end of a line. *)
Lemma onReturn_end_multiline :
  x = stringLength line → ml = true →
  onReturn (editing ls neg x j ml) =
  Done (editing (take (S j) ls ++ [""] ++ drop (S j) ls) neg 0 (S j) ml).
Proof using Hline Hx.
  intros -> ->. unfold onReturn, editing. fields.
  rewrite get_ofLines, Hline, Z.eqb_refl.
  apply lookup_lt_Some in Hline as Hj.
  replace (Z.of_nat j + 1) with (Z.of_nat (S j)) by lia.
  rewrite (splice_insert ls neg (S j) [""]) by lia. cbn [fst].
  assert (length (take (S j) ls ++ [""] ++ drop (S j) ls) = S (length ls))
    as Hlen.
  { rewrite !length_app, length_take, length_drop. cbn [length]. lia. }
  rewrite lengthOf_ofLines, Hlen, Z.min_l by lia. rewrite get_ofLines.
  rewrite lookup_app_r by (rewrite length_take; lia).
  rewrite length_take, Nat.min_l, Nat.sub_diag by lia. done.
Qed.

Lemma onReturn_end_single line' :
  x = stringLength line → ml = false →
  ls !! (S j `min` pred (length ls))%nat = Some line' →
  onReturn (editing ls neg x j ml) =
  Done (editing ls neg (stringLength line') (S j `min` pred (length ls))%nat ml).
Proof using Hline Hx.
  intros -> -> Hline'. unfold onReturn, editing. fields.
  rewrite get_ofLines, Hline, Z.eqb_refl. rewrite lengthOf_ofLines.
  apply lookup_lt_Some in Hline as Hj.
  replace (Z.min (Z.of_nat j + 1) (Z.of_nat (length ls) - 1))
    with (Z.of_nat (S j `min` pred (length ls))%nat) by lia.
  by rewrite get_ofLines, Hline'.
Qed.

(** ["return"] inside a line. *)
Lemma onReturn_inside_multiline :
  x < stringLength line → ml = true →
  onReturn (editing ls neg x j ml) =
  Done (editing
          (take j ls ++ [firstChars (Z.to_nat x) line; fromChar (Z.to_nat x) line]
           ++ drop (S j) ls)
          neg 0 (S j) ml).
Proof using Hline Hx.
  intros Hlt ->. unfold onReturn, editing. fields.
  rewrite get_ofLines, Hline.
  assert ((x =? stringLength line) = false) as -> by zbool.
  apply lookup_lt_Some in Hline as Hj.
  rewrite slice_to, slice_from by done.
  rewrite assign_ofLines by done.
  replace (Z.of_nat j + 1) with (Z.of_nat (S j)) by lia.
  rewrite (splice_insert _ neg (S j) [_])
    by (rewrite length_insert; lia). cbn [fst].
  rewrite lengthOf_ofLines.
  match goal with |- context [Z.of_nat (length ?l) - 1] =>
    assert (length l = S (length ls)) as Hlen
  end.
  { rewrite !length_app, length_take, length_drop, !length_insert.
    cbn [length]. lia. }
  rewrite Hlen, Z.min_l by lia.
  replace (Z.of_nat j + 1) with (Z.of_nat (S j)) by lia.
  unfold editing. do 3 f_equal.
  rewrite drop_insert_lt by lia.
  rewrite (take_S_r _ j (firstChars (Z.to_nat x) line))
    by (by rewrite list_lookup_insert_eq).
  rewrite take_insert_ge by lia. by rewrite <- app_assoc.
Qed.

Lemma onReturn_inside_single :
  x < stringLength line → ml = false →
  onReturn (editing ls neg x j ml) =
  Done (editing (<[j := firstChars (Z.to_nat x) line]> ls) neg 0
          (S j `min` pred (length ls))%nat ml).
Proof using Hline Hx.
  intros Hlt ->. unfold onReturn, editing. fields.
  rewrite get_ofLines, Hline.
  assert ((x =? stringLength line) = false) as -> by zbool.
  apply lookup_lt_Some in Hline as Hj.
  rewrite slice_to by done. rewrite assign_ofLines by done.
  rewrite lengthOf_ofLines, length_insert.
  by replace (Z.min (Z.of_nat j + 1) (Z.of_nat (length ls) - 1))
    with (Z.of_nat (S j `min` pred (length ls))%nat) by lia.
Qed.

(** ["backspace"] at the start of a line that is not the first. *)
Lemma onBackspace_join (j0 : nat) prev :
  x = 0 → j = S j0 → ls !! j0 = Some prev →
  onBackspace (editing ls neg x j ml) =
  Done (editing (take j0 ls ++ [prev ++ line] ++ drop (S j) ls) neg
          (stringLength prev) j0 ml).
Proof using Hline Hx.
  intros -> -> Hprev. unfold onBackspace, editing.
  fields.
  assert ((0 =? 0) && negb (Z.of_nat (S j0) =? 0) = true) as ->.
  { apply andb_true_iff. split; [done|]. apply negb_true_iff. zbool. }
  replace (Z.max 0 (Z.of_nat (S j0) - 1)) with (Z.of_nat j0) by lia.
  rewrite get_ofLines, Hprev. cbn [default].
  replace (Z.of_nat j0 + 1) with (Z.of_nat (S j0)) by lia.
  rewrite (splice_delete ls neg (S j0) line Hline).
  apply lookup_lt_Some in Hline as Hj.
  rewrite assign_ofLines by (rewrite length_app, length_take; lia).
  unfold toString. cbn [fmap list_fmap default String.concat].
  unfold editing. do 3 f_equal.
  rewrite (take_S_r _ _ _ Hprev), <- app_assoc.
  rewrite insert_app_r_alt by (rewrite length_take; lia).
  rewrite length_take, Nat.min_l, Nat.sub_diag by lia. done.
Qed.

(** ["backspace"] anywhere else. *)
Lemma onBackspace_char :
  x ≠ 0 ∨ j = 0%nat →
  onBackspace (editing ls neg x j ml) =
  Done (editing
          (<[j := firstChars (Z.to_nat x - 1) line ++ fromChar (Z.to_nat x) line]> ls)
          neg (Z.max 0 (x - 1)) j ml).
Proof using Hline Hx.
  intros Hwhere. unfold onBackspace, editing.
  fields.
  assert ((x =? 0) && negb (Z.of_nat j =? 0) = false) as ->.
  { apply andb_false_iff. destruct Hwhere as [?| ->]; [left; zbool | by right]. }
  rewrite (orEmpty_ofLines _ _ _ _ Hline), get_ofLines, Hline.
  rewrite substring_to, substring_from by lia.
  rewrite assign_ofLines by (by eapply lookup_lt_Some).
  by replace (Z.to_nat (x - 1)) with (Z.to_nat x - 1)%nat by lia.
Qed.

(** ["delete"] at the end of a line. *)
Lemma onDelete_join next :
  x = stringLength line → ls !! S j = Some next →
  onDelete (editing ls neg x j ml) =
  Done (editing (take j ls ++ [line ++ next] ++ drop (S (S j)) ls) neg x j ml).
Proof using Hline Hx.
  intros -> Hnext. unfold onDelete, editing.
  fields.
  rewrite get_ofLines, Hline, Z.eqb_refl.
  rewrite (splice_delete ls neg j line Hline).
  apply lookup_lt_Some in Hnext as Hj.
  assert ((take j ls ++ drop (S j) ls)%list !! j = Some next) as Hat.
  { rewrite lookup_app_r by (rewrite length_take; lia).
    rewrite length_take, Nat.min_l, Nat.sub_diag, lookup_drop, Nat.add_0_r by lia.
    done. }
  rewrite get_ofLines, Hat. cbn [default].
  rewrite assign_ofLines by (by eapply lookup_lt_Some).
  unfold toString. cbn [fmap list_fmap default String.concat].
  unfold editing. do 3 f_equal.
  rewrite insert_app_r_alt by (rewrite length_take; lia).
  rewrite length_take, Nat.min_l, Nat.sub_diag by lia.
  by rewrite (drop_S _ _ _ Hnext).
Qed.

Lemma onDelete_last :
  x = stringLength line → ls !! S j = None →
  onDelete (editing ls neg x j ml) = Done (editing ls neg x j ml).
Proof using Hline Hx.
  intros -> Hnext. unfold onDelete, editing.
  fields.
  rewrite get_ofLines, Hline, Z.eqb_refl.
  rewrite (splice_delete ls neg j line Hline).
  apply lookup_lt_Some in Hline as Hj. apply lookup_ge_None in Hnext.
  rewrite (drop_ge ls (S j)), app_nil_r by lia.
  rewrite get_ofLines, (lookup_ge_None_2 (take j ls) j)
    by (rewrite length_take; lia).
  cbn [default]. unfold toString. cbn [fmap list_fmap default String.concat].
  rewrite string_app_nil_r.
  assert (Z.of_nat j = Z.of_nat (length (take j ls))) as ->
    by (rewrite length_take; lia).
  rewrite assign_ofLines_end. rewrite length_take, Nat.min_l by lia.
  unfold editing. do 3 f_equal.
  rewrite <- (take_drop_middle ls j line Hline) at 2.
  by rewrite (drop_ge ls (S j)) by lia.
Qed.

(** ["delete"] inside a line. *)
Lemma onDelete_char :
  x < stringLength line →
  onDelete (editing ls neg x j ml) =
  Done (editing
          (<[j := firstChars (Z.to_nat x) line ++ fromChar (S (Z.to_nat x)) line]> ls)
          neg x j ml).
Proof using Hline Hx.
  intros Hlt. unfold onDelete, editing.
  fields.
  rewrite get_ofLines, Hline.
  assert ((x =? stringLength line) = false) as -> by zbool.
  assert ((stringLength line =? 0) = false) as -> by zbool.
  rewrite substring_to, substring_from by lia.
  rewrite assign_ofLines by (by eapply lookup_lt_Some).
  by replace (Z.to_nat (x + 1)) with (S (Z.to_nat x)) by lia.
Qed.

End Branches.

(** *** The cursor stays on the text *)

Lemma stringLength_app a b : stringLength (a ++ b) = stringLength a + stringLength b.
Proof. unfold stringLength. rewrite string_length_app. lia. Qed.

Lemma stringLength_firstChars n s :
  stringLength (firstChars n s) = Z.of_nat n `min` stringLength s.
Proof. unfold stringLength. rewrite length_firstChars. lia. Qed.

Lemma stringLength_fromChar n s :
  stringLength (fromChar n s) = Z.max 0 (stringLength s - Z.of_nat n).
Proof. unfold stringLength. rewrite length_fromChar. lia. Qed.

Lemma stringLength_nonneg s : 0 ≤ stringLength s.
Proof. unfold stringLength. lia. Qed.

Lemma clampX_bounds line x : 0 ≤ x → 0 ≤ clampX line x ≤ stringLength line.
Proof.
  intros Hx. unfold clampX. pose proof (stringLength_nonneg line).
  destruct (x <=? stringLength line) eqn:E; [apply Z.leb_le in E|]; lia.
Qed.

Ltac on_editing st H :=
  intros st H;
  destruct (wellFormed_inv st H) as (ls & neg & x & j & ml & line & -> & Hline & Hx);
  apply lookup_lt_Some in Hline as Hj.

Lemma keeps_insertKey k : String.length k = 1%nat → keeps (insertKey k).
Proof.
  intros Hk. on_editing st H.
  rewrite (insertKey_editing _ _ _ _ _ _ Hline Hx). eexists. split; [done|].
  eapply wellFormed_editing; [by apply list_lookup_insert_eq|].
  rewrite !stringLength_app, stringLength_firstChars, stringLength_fromChar.
  unfold stringLength in *. lia.
Qed.

Lemma keeps_onUp : keeps onUp.
Proof.
  on_editing st H.
  destruct (lookup_lt_is_Some_2 ls (pred j)) as [line' Hline']; [lia|].
  rewrite (onUp_editing _ _ _ _ _ _ Hline Hx _ Hline'). eexists. split; [done|].
  eapply wellFormed_editing; [done | apply clampX_bounds; lia].
Qed.

Lemma keeps_onDown : keeps onDown.
Proof.
  on_editing st H.
  destruct (lookup_lt_is_Some_2 ls (S j `min` pred (length ls))%nat)
    as [line' Hline']; [lia|].
  rewrite (onDown_editing _ _ _ _ _ _ Hline Hx _ Hline'). eexists. split; [done|].
  eapply wellFormed_editing; [done | apply clampX_bounds; lia].
Qed.

Lemma keeps_onLeft : keeps onLeft.
Proof.
  on_editing st H. rewrite (onLeft_editing _ _ _ _ _ _ Hline Hx). eexists. split; [done|].
  eapply wellFormed_editing; [done | lia].
Qed.

Lemma keeps_onRight : keeps onRight.
Proof.
  on_editing st H. rewrite (onRight_editing _ _ _ _ _ _ Hline Hx).
  eexists. split; [done|]. eapply wellFormed_editing; [done | lia].
Qed.

Lemma keeps_onHome : keeps onHome.
Proof.
  on_editing st H. rewrite (onHome_editing _ _ _ _ _ _ Hline Hx). eexists. split; [done|].
  eapply wellFormed_editing; [done | lia].
Qed.

Lemma keeps_onEnd : keeps onEnd.
Proof.
  on_editing st H. rewrite (onEnd_editing _ _ _ _ _ _ Hline Hx).
  eexists. split; [done|]. eapply wellFormed_editing; [done | lia].
Qed.

Lemma keeps_onReturn : keeps onReturn.
Proof.
  on_editing st H.
  destruct (decide (x = stringLength line)) as [Hend|Hin], ml.
  - rewrite (onReturn_end_multiline _ _ _ _ _ _ Hline Hx Hend eq_refl).
    eexists. split; [done|]. eapply (wellFormed_editing _ _ _ _ _ "").
    + rewrite lookup_app_r by (rewrite length_take; lia).
      by rewrite length_take, Nat.min_l, Nat.sub_diag by lia.
    + done.
  - destruct (lookup_lt_is_Some_2 ls (S j `min` pred (length ls))%nat)
      as [line' Hline']; [lia|].
    rewrite (onReturn_end_single _ _ _ _ _ _ Hline Hx _ Hend eq_refl Hline').
    eexists. split; [done|]. eapply wellFormed_editing; [done|].
    unfold stringLength. lia.
  - rewrite (onReturn_inside_multiline _ _ _ _ _ _ Hline Hx) by (done || lia).
    eexists. split; [done|].
    eapply (wellFormed_editing _ _ _ _ _ (fromChar (Z.to_nat x) line)).
    + rewrite lookup_app_r by (rewrite length_take; lia).
      by rewrite length_take, Nat.min_l, Nat.sub_succ_l, Nat.sub_diag by lia.
    + rewrite stringLength_fromChar. lia.
  - rewrite (onReturn_inside_single _ _ _ _ _ _ Hline Hx) by (done || lia).
    destruct (lookup_lt_is_Some_2 (<[j := firstChars (Z.to_nat x) line]> ls)
                (S j `min` pred (length ls))%nat) as [line' Hline'];
      [rewrite length_insert; lia|].
    eexists. split; [done|]. eapply wellFormed_editing; [done|].
    unfold stringLength. lia.
Qed.

Lemma keeps_onBackspace : keeps onBackspace.
Proof.
  on_editing st H.
  destruct (decide (x = 0)) as [Hzero|Hpos]; [destruct j as [|j0]|].
  - rewrite (onBackspace_char _ _ _ _ _ _ Hline Hx) by (by right).
    eexists. split; [done|].
    eapply wellFormed_editing; [by apply list_lookup_insert_eq|].
    rewrite stringLength_app, stringLength_firstChars, stringLength_fromChar.
    lia.
  - destruct (lookup_lt_is_Some_2 ls j0) as [prev Hprev]; [lia|].
    rewrite (onBackspace_join _ _ _ _ _ _ Hline Hx j0 prev Hzero eq_refl Hprev).
    eexists. split; [done|].
    eapply (wellFormed_editing _ _ _ _ _ (prev ++ line)).
    + rewrite lookup_app_r by (rewrite length_take; lia).
      by rewrite length_take, Nat.min_l, Nat.sub_diag by lia.
    + rewrite stringLength_app. unfold stringLength. lia.
  - rewrite (onBackspace_char _ _ _ _ _ _ Hline Hx) by (by left).
    eexists. split; [done|].
    eapply wellFormed_editing; [by apply list_lookup_insert_eq|].
    rewrite stringLength_app, stringLength_firstChars, stringLength_fromChar.
    lia.
Qed.

Lemma keeps_onDelete : keeps onDelete.
Proof.
  on_editing st H.
  destruct (decide (x = stringLength line)) as [Hend|Hin].
  - destruct (ls !! S j) as [next|] eqn:Hnext.
    + rewrite (onDelete_join _ _ _ _ _ _ Hline Hx next Hend Hnext).
      eexists. split; [done|].
      eapply (wellFormed_editing _ _ _ _ _ (line ++ next)).
      * rewrite lookup_app_r by (rewrite length_take; lia).
        by rewrite length_take, Nat.min_l, Nat.sub_diag by lia.
      * rewrite stringLength_app. unfold stringLength in *. lia.
    + rewrite (onDelete_last _ _ _ _ _ _ Hline Hx Hend Hnext).
      eexists. split; [done|]. by eapply wellFormed_editing.
  - rewrite (onDelete_char _ _ _ _ _ _ Hline Hx) by lia.
    eexists. split; [done|].
    eapply wellFormed_editing; [by apply list_lookup_insert_eq|].
    rewrite stringLength_app, stringLength_firstChars, stringLength_fromChar.
    lia.
Qed.

Lemma named_keeps k branch : named k = Some branch → keeps branch.
Proof.
  unfold named. repeat case_match; intros [= <-];
    auto using keeps_onUp, keeps_onDown, keeps_onLeft, keeps_onRight,
      keeps_onReturn, keeps_onBackspace, keeps_onDelete, keeps_onHome,
      keeps_onEnd.
Qed.

(** A key either is ignored or ends with [valueChange], and keeps the
    cursor on the text. *)
Lemma onKey_keeps e st :
  wellFormed st →
  onKey e st = Ignored ∨
  ∃ st', onKey e st = Emitted st' (elements (value st)) ∧ wellFormed st'.
Proof.
  intros Hwf. unfold onKey.
  destruct (String.eqb (key e) "" || shift e); [by left|].
  destruct (negb (ctrl e) && negb (meta e) && (String.length (key e) =? 1)%nat)
    eqn:Hchar.
  - apply andb_true_iff in Hchar as [_ Hlen]. apply Nat.eqb_eq in Hlen.
    destruct (keeps_insertKey (key e) Hlen st Hwf) as (st' & -> & Hwf').
    right. by exists st'.
  - destruct (named (key e)) as [branch|] eqn:Hnamed; [|by left].
    destruct (named_keeps _ _ Hnamed st Hwf) as (st' & -> & Hwf').
    right. by exists st'.
Qed.

Lemma after_keeps st e : wellFormed st → wellFormed (after st e).
Proof.
  intros Hwf. unfold after.
  destruct (onKey_keeps e st Hwf) as [-> | (st' & -> & Hwf')]; done.
Qed.

Lemma createTextbox_wellFormed optionsValue optionsMultiline :
  (∀ a, optionsValue = Some a → dense a) →
  wellFormed (createTextbox optionsValue optionsMultiline).
Proof.
  intros Hdense. unfold createTextbox.
  assert (wellFormed
            (mkTextbox (mkJsArray [Some ""] ∅) (mkPosition 0 0) optionsMultiline))
    as Hempty.
  { apply (wellFormed_editing [""] ∅ 0 0 optionsMultiline ""); done. }
  destruct optionsValue as [a|]; [|done].
  destruct (lengthOf a =? 0) eqn:Hlen; [done|].
  apply Z.eqb_neq in Hlen.
  destruct (dense_ofLines a (Hdense a eq_refl)) as [ls Hls].
  rewrite Hls in Hlen |- *. rewrite lengthOf_ofLines in Hlen.
  destruct ls as [|line ls]; [done|].
  apply (wellFormed_editing (line :: ls) _ 0 0 optionsMultiline line);
    [done | unfold stringLength; lia].
Qed.

(** X22.  Whatever keys arrive, the cursor of a textbox stays on its text:
    when [options.value] has no holes, after every sequence of keys the
    value has no holes, [position.y] is the index of one of its lines and
    [position.x] lies between 0 and the length of that line; and no key
    makes the handler throw. *)
Theorem X22_keys_keep_the_cursor_on_the_text
    (optionsValue : option JsArray) (optionsMultiline : bool)
    (keys : list KeyPress) :
  (∀ a, optionsValue = Some a → dense a) →
  let st := foldl after (createTextbox optionsValue optionsMultiline) keys in
  wellFormed st ∧
  ∀ e, onKey e st = Ignored ∨
       ∃ st', onKey e st = Emitted st' (elements (value st)) ∧ wellFormed st'.
Proof.
  intros Hdense. cbv zeta.
  assert (wellFormed
            (foldl after (createTextbox optionsValue optionsMultiline) keys))
    as Hwf.
  { apply (createTextbox_wellFormed _ optionsMultiline) in Hdense.
    revert Hdense. generalize (createTextbox optionsValue optionsMultiline).
    induction keys as [|e keys IH]; intros st Hst; simpl; [done|].
    apply IH. by apply after_keeps. }
  split; [done|]. intros e. by apply onKey_keeps.
Qed.

(** *** The handler as an editor of [textbox.string()] *)

Lemma firstChars_app_le a b n :
  (n ≤ String.length a)%nat → firstChars n (a ++ b) = firstChars n a.
Proof.
  revert n. induction a as [|ch a IH]; intros n Hn; simpl in Hn.
  - assert (n = 0%nat) as -> by lia. by rewrite !firstChars_0.
  - destruct n as [|n]; [by rewrite !firstChars_0|].
    rewrite string_app_cons. simpl. rewrite IH; [done | lia].
Qed.

Lemma fromChar_app_le a b n :
  (n ≤ String.length a)%nat → fromChar n (a ++ b) = fromChar n a ++ b.
Proof.
  revert n. induction a as [|ch a IH]; intros n Hn; simpl in Hn.
  - assert (n = 0%nat) as -> by lia. by rewrite !fromChar_0.
  - destruct n as [|n]; [by rewrite !fromChar_0|].
    rewrite string_app_cons. simpl. rewrite IH; [done | lia].
Qed.

Lemma concat_cons sep a b (l : list string) :
  String.concat sep (a :: b :: l) = a ++ sep ++ String.concat sep (b :: l).
Proof. done. Qed.

Lemma concat_behind (post : list string) :
  ∃ behind, ∀ mid, mid ≠ [] →
    String.concat newline (mid ++ post)%list = String.concat newline mid ++ behind.
Proof.
  exists (match post with [] => "" | _ => newline ++ String.concat newline post end).
  induction mid as [|m mid IH]; [done|]. intros _.
  destruct mid as [|m' mid].
  - destruct post as [|p post]; simpl; [by rewrite string_app_nil_r | done].
  - cbn [app] in *. rewrite !concat_cons, IH by done.
    by rewrite !string_app_assoc.
Qed.

Lemma concat_before (pre : list string) :
  ∃ before,
    String.length before = sum_list_with (λ l, S (String.length l)) pre ∧
    ∀ rest, rest ≠ [] →
      String.concat newline (pre ++ rest)%list = before ++ String.concat newline rest.
Proof.
  induction pre as [|p pre (before & Hlen & IH)].
  - exists "". by split.
  - exists (p ++ newline ++ before). split.
    + rewrite !string_length_app, Hlen. unfold newline. simpl. lia.
    + intros rest Hrest. cbn [app].
      destruct (pre ++ rest)%list as [|q l] eqn:E.
      { by destruct pre, rest. }
      rewrite concat_cons, <- E, IH by done. by rewrite !string_app_assoc.
Qed.

Lemma concat_around (pre post : list string) :
  ∃ before behind,
    String.length before = sum_list_with (λ l, S (String.length l)) pre ∧
    ∀ mid, mid ≠ [] →
      String.concat newline (pre ++ mid ++ post)%list
        = before ++ String.concat newline mid ++ behind.
Proof.
  destruct (concat_before pre) as (before & Hlen & Hbefore).
  destruct (concat_behind post) as (behind & Hbehind).
  exists before, behind. split; [done|]. intros mid Hmid.
  rewrite Hbefore by (by destruct mid). by rewrite Hbehind.
Qed.

Lemma stringOf_editing ls neg x j ml :
  stringOf (editing ls neg x j ml) = String.concat newline ls.
Proof.
  unfold stringOf, editing, ofLines. simpl. f_equal.
  rewrite <- list_fmap_compose. apply list_fmap_id.
Qed.

Lemma cursor_editing ls neg x j ml :
  cursor (editing ls neg x j ml) =
  (sum_list_with (λ l, S (String.length l)) (take j ls) + Z.to_nat x)%nat.
Proof.
  unfold cursor, editing, ofLines. simpl.
  rewrite Nat2Z.id, <- fmap_take. f_equal.
  generalize (take j ls). intros l. induction l as [|a l IH]; [done|].
  rewrite fmap_cons. cbn [sum_list_with]. by rewrite IH.
Qed.

Lemma around ls (j : nat) line :
  ls !! j = Some line →
  ∃ before behind,
    String.length before = sum_list_with (λ l, S (String.length l)) (take j ls) ∧
    String.concat newline ls = before ++ line ++ behind ∧
    (∀ line', String.concat newline (<[j := line']> ls) = before ++ line' ++ behind) ∧
    (∀ a b, String.concat newline (take j ls ++ [a; b] ++ drop (S j) ls)%list
            = before ++ a ++ newline ++ b ++ behind).
Proof.
  intros Hline. apply lookup_lt_Some in Hline as Hj.
  destruct (concat_around (take j ls) (drop (S j) ls))
    as (before & behind & Hlen & Hmid).
  exists before, behind. split; [done|]. split; [|split].
  - rewrite <- (take_drop_middle ls j line Hline) at 1. by apply (Hmid [line]).
  - intros line'. rewrite insert_take_drop by done. by apply (Hmid [line']).
  - intros a b. rewrite (Hmid [a; b]) by done.
    by rewrite concat_cons, !string_app_assoc.
Qed.

Lemma around_two ls (j : nat) a b :
  ls !! j = Some a → ls !! S j = Some b →
  ∃ before behind,
    String.length before = sum_list_with (λ l, S (String.length l)) (take j ls) ∧
    String.concat newline ls = before ++ a ++ newline ++ b ++ behind ∧
    (∀ c, String.concat newline (take j ls ++ [c] ++ drop (S (S j)) ls)%list
          = before ++ c ++ behind).
Proof.
  intros Ha Hb.
  destruct (concat_around (take j ls) (drop (S (S j)) ls))
    as (before & behind & Hlen & Hmid).
  exists before, behind. split; [done|]. split.
  - transitivity
      (String.concat newline (take j ls ++ [a; b] ++ drop (S (S j)) ls)%list).
    + f_equal. rewrite <- (take_drop_middle ls j a Ha) at 1.
      by rewrite (drop_S _ _ _ Hb).
    + rewrite (Hmid [a; b]) by done. by rewrite concat_cons, !string_app_assoc.
  - intros c. by apply (Hmid [c]).
Qed.

Lemma sum_take_S (ls : list string) (j : nat) line :
  ls !! j = Some line →
  sum_list_with (λ l, S (String.length l)) (take (S j) ls) =
  (sum_list_with (λ l, S (String.length l)) (take j ls) + S (String.length line))%nat.
Proof.
  intros Hline. rewrite (take_S_r _ _ _ Hline), sum_list_with_app.
  simpl. lia.
Qed.

(** What the handler does with a key that types, and with a named key. *)
Lemma onKey_typing e st :
  shift e = false → ctrl e = false → meta e = false →
  String.length (key e) = 1%nat →
  onKey e st = emit (elements (value st)) (insertKey (key e) st).
Proof.
  intros Hs Hc Hm Hk. unfold onKey. rewrite Hs, Hc, Hm, Hk.
  destruct (key e); [done|]. done.
Qed.

Lemma onKey_named e st branch :
  shift e = false → named (key e) = Some branch →
  onKey e st = emit (elements (value st)) (branch st).
Proof.
  intros Hs Hnamed. unfold onKey. rewrite Hs, Hnamed.
  assert (String.eqb (key e) "" = false) as ->.
  { apply String.eqb_neq. intros E. by rewrite E in Hnamed. }
  assert ((String.length (key e) =? 1)%nat = false) as ->.
  { apply Nat.eqb_neq. intros E. unfold named in Hnamed.
    repeat case_match; try done;
      match goal with H : String.eqb _ _ = true |- _ =>
        apply String.eqb_eq in H; by rewrite H in E end. }
  by rewrite andb_false_r.
Qed.

Lemma after_Done e st st' sv :
  onKey e st = emit sv (Done st') → after st e = st'.
Proof. unfold after. by intros ->. Qed.

(** X23.  A key of one code unit, without [shift], [ctrl] and [meta],
    inserts itself into [textbox.string()] at the cursor, and the cursor
    moves one step on. *)
Theorem X23_typing_inserts_at_the_cursor (st : Textbox) (e : KeyPress) :
  wellFormed st →
  shift e = false → ctrl e = false → meta e = false →
  String.length (key e) = 1%nat →
  stringOf (after st e) =
    firstChars (cursor st) (stringOf st) ++ key e
    ++ fromChar (cursor st) (stringOf st) ∧
  cursor (after st e) = S (cursor st).
Proof.
  revert st. on_editing st H. intros Hs Hc Hm Hk.
  rewrite (after_Done e _ _ _
             (eq_trans (onKey_typing e _ Hs Hc Hm Hk)
                (f_equal _ (insertKey_editing _ _ _ _ _ _ Hline Hx (key e))))).
  destruct (around ls j line Hline) as (before & behind & Hlen & Hs0 & Hs1 & _).
  rewrite !stringOf_editing, !cursor_editing, Hs0, Hs1, <- Hlen.
  rewrite take_insert_ge by lia. split; [|lia].
  assert (Z.to_nat x ≤ String.length line)%nat by (unfold stringLength in Hx; lia).
  rewrite firstChars_app_add, fromChar_app_add.
  rewrite firstChars_app_le, fromChar_app_le by done.
  by rewrite !string_app_assoc.
Qed.

(** X24.  ["backspace"] takes the code unit before the cursor out of
    [textbox.string()], which is a line feed when the cursor is at the
    start of a line, and the cursor moves one step back; with the cursor at
    the very start nothing changes. *)
Theorem X24_backspace_removes_before_the_cursor (st : Textbox) (e : KeyPress) :
  wellFormed st →
  shift e = false → key e = "backspace" →
  stringOf (after st e) =
    firstChars (cursor st - 1) (stringOf st) ++ fromChar (cursor st) (stringOf st) ∧
  cursor (after st e) = (cursor st - 1)%nat.
Proof.
  revert st. on_editing st H. intros Hs Hk.
  assert (named (key e) = Some onBackspace) as Hnamed by (by rewrite Hk).
  assert (Z.to_nat x ≤ String.length line)%nat by (unfold stringLength in Hx; lia).
  destruct (decide (x = 0 ∧ j ≠ 0%nat)) as [[Hzero Hj0]|Hchar].
  - destruct j as [|j0]; [done|].
    destruct (lookup_lt_is_Some_2 ls j0) as [prev Hprev]; [lia|].
    rewrite (after_Done e _ _ _
               (eq_trans (onKey_named e _ _ Hs Hnamed)
                  (f_equal _ (onBackspace_join _ _ _ _ _ _ Hline Hx j0 prev
                                Hzero eq_refl Hprev)))).
    destruct (around_two ls j0 prev line Hprev Hline)
      as (before & behind & Hlen & Hs0 & Hs1).
    rewrite !stringOf_editing, !cursor_editing, Hs0, Hs1.
    rewrite (sum_take_S _ _ _ Hprev), <- Hlen, Hzero.
    rewrite take_app_length' by (rewrite length_take; lia). rewrite <- Hlen.
    split; [|unfold stringLength; lia].
    replace (String.length before + S (String.length prev) + Z.to_nat 0 - 1)%nat
      with (String.length before + String.length prev)%nat by lia.
    replace (String.length before + S (String.length prev) + Z.to_nat 0)%nat
      with (String.length before + (String.length prev + 1))%nat by lia.
    rewrite firstChars_app_add, fromChar_app_add, fromChar_app_add.
    rewrite firstChars_app_le, (firstChars_all _ prev) by lia.
    by rewrite !string_app_assoc.
  - assert (x ≠ 0 ∨ j = 0%nat) as Hwhere.
    { destruct (decide (x = 0)); [|by left]. right.
      destruct (decide (j = 0%nat)); [done|]. by destruct Hchar. }
    rewrite (after_Done e _ _ _
               (eq_trans (onKey_named e _ _ Hs Hnamed)
                  (f_equal _ (onBackspace_char _ _ _ _ _ _ Hline Hx Hwhere)))).
    destruct (around ls j line Hline) as (before & behind & Hlen & Hs0 & Hs1 & _).
    rewrite !stringOf_editing, !cursor_editing, Hs0, Hs1, <- Hlen.
    rewrite take_insert_ge by lia. rewrite <- Hlen.
    destruct (decide (x = 0)) as [->|Hpos].
    + destruct Hwhere as [?| ->]; [done|].
      assert (before = "") as ->.
      { simpl in Hlen. by destruct before. }
      simpl. by rewrite !string_app_nil_l.
    + split; [|lia].
      replace (String.length before + Z.to_nat x - 1)%nat
        with (String.length before + (Z.to_nat x - 1))%nat by lia.
      rewrite firstChars_app_add, fromChar_app_add.
      rewrite firstChars_app_le, fromChar_app_le by lia.
      by rewrite !string_app_assoc.
Qed.

(** X25.  ["delete"] takes the code unit at the cursor out of
    [textbox.string()], which is a line feed when the cursor is at the end
    of a line, and leaves the cursor where it is; with the cursor at the
    very end nothing changes. *)
Theorem X25_delete_removes_at_the_cursor (st : Textbox) (e : KeyPress) :
  wellFormed st →
  shift e = false → key e = "delete" →
  stringOf (after st e) =
    firstChars (cursor st) (stringOf st) ++ fromChar (S (cursor st)) (stringOf st) ∧
  cursor (after st e) = cursor st.
Proof.
  revert st. on_editing st H. intros Hs Hk.
  assert (named (key e) = Some onDelete) as Hnamed by (by rewrite Hk).
  assert (Z.to_nat x ≤ String.length line)%nat by (unfold stringLength in Hx; lia).
  destruct (decide (x = stringLength line)) as [Hend|Hin].
  - destruct (ls !! S j) as [next|] eqn:Hnext.
    + rewrite (after_Done e _ _ _
                 (eq_trans (onKey_named e _ _ Hs Hnamed)
                    (f_equal _ (onDelete_join _ _ _ _ _ _ Hline Hx next
                                  Hend Hnext)))).
      destruct (around_two ls j line next Hline Hnext)
        as (before & behind & Hlen & Hs0 & Hs1).
      rewrite !stringOf_editing, !cursor_editing, Hs0, Hs1.
      rewrite take_app_length' by (rewrite length_take; lia).
      split; [|done]. rewrite <- Hlen, Hend. unfold stringLength.
      rewrite Nat2Z.id.
      replace (S (String.length before + String.length line))
        with (String.length before + (String.length line + 1))%nat by lia.
      rewrite firstChars_app_add, fromChar_app_add, fromChar_app_add.
      rewrite firstChars_app_le, (firstChars_all _ line) by lia.
      by rewrite !string_app_assoc.
    + rewrite (after_Done e _ _ _
                 (eq_trans (onKey_named e _ _ Hs Hnamed)
                    (f_equal _ (onDelete_last _ _ _ _ _ _ Hline Hx Hend Hnext)))).
      split; [|done]. rewrite stringOf_editing, cursor_editing.
      destruct (concat_before (take j ls)) as (before & Hlen & Hrest).
      assert (String.concat newline ls = before ++ line) as ->.
      { rewrite <- (take_drop_middle ls j line Hline) at 1.
        apply lookup_ge_None in Hnext. rewrite (drop_ge ls (S j)) by lia.
        by apply (Hrest [line]). }
      rewrite <- Hlen, Hend. unfold stringLength. rewrite Nat2Z.id.
      rewrite firstChars_all, fromChar_all
        by (rewrite string_length_app; lia).
      by rewrite string_app_nil_r.
  - rewrite (after_Done e _ _ _
               (eq_trans (onKey_named e _ _ Hs Hnamed)
                  (f_equal _ (onDelete_char _ _ _ _ _ _ Hline Hx
                                ltac:(lia))))).
    destruct (around ls j line Hline) as (before & behind & Hlen & Hs0 & Hs1 & _).
    rewrite !stringOf_editing, !cursor_editing, Hs0, Hs1, <- Hlen.
    rewrite take_insert_ge by lia. rewrite <- Hlen. split; [|done].
    assert (S (Z.to_nat x) ≤ String.length line)%nat
      by (unfold stringLength in *; lia).
    replace (S (String.length before + Z.to_nat x))
      with (String.length before + S (Z.to_nat x))%nat by lia.
    rewrite firstChars_app_add, fromChar_app_add.
    rewrite firstChars_app_le, fromChar_app_le by lia.
    by rewrite !string_app_assoc.
Qed.

(** X26.  ["return"] in a multiline textbox puts a line feed into
    [textbox.string()] at the cursor and the cursor behind it.  In a
    textbox that is not multiline it adds no line: the line of the cursor
    is cut at the cursor, what was behind the cursor on that line is
    dropped, and every other line stays. *)
Theorem X26_return_breaks_or_cuts_the_line (st : Textbox) (e : KeyPress) :
  wellFormed st →
  shift e = false → key e = "return" →
  (multiline st = true →
   stringOf (after st e) =
     firstChars (cursor st) (stringOf st) ++ newline
     ++ fromChar (cursor st) (stringOf st) ∧
   cursor (after st e) = S (cursor st)) ∧
  (multiline st = false →
   lengthOf (value (after st e)) = lengthOf (value st) ∧
   ∀ i line,
     get (value st) i = Some line →
     get (value (after st e)) i =
       Some (if decide (i = y (position st))
             then firstChars (Z.to_nat (x (position st))) line else line)).
Proof.
  revert st. on_editing st H. intros Hs Hk.
  assert (named (key e) = Some onReturn) as Hnamed by (by rewrite Hk).
  assert (Z.to_nat x ≤ String.length line)%nat by (unfold stringLength in Hx; lia).
  destruct (around ls j line Hline) as (before & behind & Hlen & Hs0 & Hs1 & Hs2).
  split; intros Hml; simpl in Hml; subst ml.
  - destruct (decide (x = stringLength line)) as [Hend|Hin].
    + rewrite (after_Done e _ _ _
                 (eq_trans (onKey_named e _ _ Hs Hnamed)
                    (f_equal _ (onReturn_end_multiline _ _ _ _ _ _ Hline Hx
                                  Hend eq_refl)))).
      rewrite !stringOf_editing, !cursor_editing, Hs0.
      assert (take (S j) ls ++ [""] ++ drop (S j) ls
              = take j ls ++ [line; ""] ++ drop (S j) ls)%list as Hls.
      { rewrite (take_S_r _ _ _ Hline), <- app_assoc. done. }
      rewrite Hls, Hs2.
      rewrite (take_S_r _ _ line) by
        (rewrite lookup_app_r by (rewrite length_take; lia);
         by rewrite length_take, Nat.min_l, Nat.sub_diag by lia).
      rewrite take_app_length' by (rewrite length_take; lia).
      rewrite sum_list_with_app, <- Hlen. simpl sum_list_with.
      rewrite Hend. unfold stringLength. rewrite Nat2Z.id.
      split; [|simpl; lia].
      rewrite firstChars_app_add, fromChar_app_add.
      rewrite firstChars_app_le, fromChar_app_le, (firstChars_all _ line),
        (fromChar_all _ line) by lia.
      by rewrite !string_app_assoc.
    + rewrite (after_Done e _ _ _
                 (eq_trans (onKey_named e _ _ Hs Hnamed)
                    (f_equal _ (onReturn_inside_multiline _ _ _ _ _ _ Hline Hx
                                  ltac:(lia) eq_refl)))).
      rewrite !stringOf_editing, !cursor_editing, Hs0, Hs2.
      rewrite (take_S_r _ _ (firstChars (Z.to_nat x) line)) by
        (rewrite lookup_app_r by (rewrite length_take; lia);
         by rewrite length_take, Nat.min_l, Nat.sub_diag by lia).
      rewrite take_app_length' by (rewrite length_take; lia).
      rewrite sum_list_with_app, <- Hlen. simpl sum_list_with.
      rewrite length_firstChars. split; [|simpl; lia].
      rewrite firstChars_app_add, fromChar_app_add.
      rewrite firstChars_app_le, fromChar_app_le by lia.
      by rewrite !string_app_assoc.
  - destruct (lookup_lt_is_Some_2 ls (S j `min` pred (length ls))%nat)
      as [line' Hline']; [lia|].
    assert (after (editing ls neg x j false) e =
            editing (<[j := firstChars (Z.to_nat x) line]> ls) neg
              (if decide (x = stringLength line) then stringLength line' else 0)
              (S j `min` pred (length ls))%nat false) as ->.
    { destruct (decide (x = stringLength line)) as [Hend|Hin].
      - rewrite (after_Done e _ _ _
                   (eq_trans (onKey_named e _ _ Hs Hnamed)
                      (f_equal _ (onReturn_end_single _ _ _ _ _ _ Hline Hx _
                                    Hend eq_refl Hline')))).
        rewrite firstChars_all by (unfold stringLength in *; lia).
        by rewrite list_insert_id.
      - by rewrite (after_Done e _ _ _
                   (eq_trans (onKey_named e _ _ Hs Hnamed)
                      (f_equal _ (onReturn_inside_single _ _ _ _ _ _ Hline Hx
                                    ltac:(lia) eq_refl)))). }
    unfold editing. cbn [value position Textbox.x Textbox.y].
    rewrite !lengthOf_ofLines, length_insert. split; [done|].
    intros i line0 Hi.
    destruct (decide (0 ≤ i)) as [Hpos|Hneg].
    + rewrite <- (Z2Nat.id i) in Hi |- * by done.
      rewrite get_ofLines in Hi. rewrite get_ofLines.
      destruct (decide (Z.of_nat (Z.to_nat i) = Z.of_nat j)) as [E|E].
      * apply Nat2Z.inj in E. rewrite E in Hi |- *.
        rewrite list_lookup_insert_eq by done. congruence.
      * rewrite list_lookup_insert_ne by (intros E'; apply E; by rewrite E').
        done.
    + rewrite decide_False by lia. unfold get, ofLines in *.
      assert ((i <? 0) = true) as Hlt by zbool. by rewrite Hlt in Hi |- *.
Qed.

(** X27.  The keys that move the cursor leave the value as it is, and the
    handler still emits [valueChange] for them, with the value as start
    value. *)
Theorem X27_moving_keys_leave_the_value (st : Textbox) (e : KeyPress) :
  wellFormed st →
  shift e = false →
  key e ∈ ["up"; "down"; "left"; "right"; "home"; "end"] →
  ∃ st', onKey e st = Emitted st' (elements (value st)) ∧
    value st' = value st ∧ multiline st' = multiline st.
Proof.
  revert st. on_editing st H. intros Hs Hk.
  destruct (lookup_lt_is_Some_2 ls (pred j)) as [up Hup]; [lia|].
  destruct (lookup_lt_is_Some_2 ls (S j `min` pred (length ls))%nat)
    as [down Hdown]; [lia|].
  repeat (apply elem_of_cons in Hk as [Hk|Hk]);
    [..|by apply elem_of_nil in Hk].
  - rewrite (onKey_named e _ onUp Hs) by (by rewrite Hk).
    rewrite (onUp_editing _ _ _ _ _ _ Hline Hx _ Hup). by eexists.
  - rewrite (onKey_named e _ onDown Hs) by (by rewrite Hk).
    rewrite (onDown_editing _ _ _ _ _ _ Hline Hx _ Hdown). by eexists.
  - rewrite (onKey_named e _ onLeft Hs) by (by rewrite Hk).
    rewrite (onLeft_editing _ _ _ _ _ _ Hline Hx). by eexists.
  - rewrite (onKey_named e _ onRight Hs) by (by rewrite Hk).
    rewrite (onRight_editing _ _ _ _ _ _ Hline Hx). by eexists.
  - rewrite (onKey_named e _ onHome Hs) by (by rewrite Hk).
    rewrite (onHome_editing _ _ _ _ _ _ Hline Hx). by eexists.
  - rewrite (onKey_named e _ onEnd Hs) by (by rewrite Hk).
    rewrite (onEnd_editing _ _ _ _ _ _ Hline Hx). by eexists.
Qed.

Lemma remove_typed line n k :
  (n ≤ String.length line)%nat → String.length k = 1%nat →
  firstChars n (firstChars n line ++ k ++ fromChar n line)
  ++ fromChar (S n) (firstChars n line ++ k ++ fromChar n line) = line.
Proof.
  intros Hn Hk.
  assert (String.length (firstChars n line) = n) as Hlen
    by (rewrite length_firstChars; lia).
  rewrite firstChars_app_le, (firstChars_all n (firstChars n line)) by lia.
  replace (S n) with (String.length (firstChars n line) + 1)%nat by lia.
  rewrite fromChar_app_add.
  replace 1%nat with (String.length k + 0)%nat by lia.
  rewrite fromChar_app_add, fromChar_0. apply firstChars_fromChar.
Qed.

(** X28.  ["backspace"] undoes the key before it, when that key typed a
    code unit, or was ["return"] in a multiline textbox: the value and the
    position are what they were. *)
Theorem X28_backspace_undoes_typing_and_return (st : Textbox) (e b : KeyPress) :
  wellFormed st →
  shift e = false →
  ctrl e = false ∧ meta e = false ∧ String.length (key e) = 1%nat ∨
  key e = "return" ∧ multiline st = true →
  shift b = false → key b = "backspace" →
  after (after st e) b = st.
Proof.
  revert st. on_editing st H. intros Hs Hwhich Hsb Hkb.
  assert (named (key b) = Some onBackspace) as Hnamed by (by rewrite Hkb).
  assert (Z.to_nat x ≤ String.length line)%nat by (unfold stringLength in Hx; lia).
  destruct Hwhich as [(Hc & Hm & Hk)|[Hk Hml]].
  - rewrite (after_Done e _ _ _
               (eq_trans (onKey_typing e _ Hs Hc Hm Hk)
                  (f_equal _ (insertKey_editing _ _ _ _ _ _ Hline Hx (key e))))).
    set (typed := firstChars (Z.to_nat x) line ++ key e ++ fromChar (Z.to_nat x) line).
    assert (<[j := typed]> ls !! j = Some typed) as Htyped
      by (by apply list_lookup_insert_eq).
    assert (0 ≤ x + 1 ≤ stringLength typed) as Hx'.
    { unfold typed.
      rewrite !stringLength_app, stringLength_firstChars, stringLength_fromChar.
      unfold stringLength in *. lia. }
    rewrite (after_Done b _ _ _
               (eq_trans (onKey_named b _ _ Hsb Hnamed)
                  (f_equal _ (onBackspace_char _ _ _ _ _ _ Htyped Hx'
                                ltac:(left; lia))))).
    rewrite list_insert_insert_eq.
    replace (Z.max 0 (x + 1 - 1)) with x by lia.
    replace (Z.to_nat (x + 1) - 1)%nat with (Z.to_nat x) by lia.
    replace (Z.to_nat (x + 1)) with (S (Z.to_nat x)) by lia.
    unfold typed. rewrite remove_typed by done.
    by rewrite list_insert_id.
  - simpl in Hml. subst ml.
    assert (named (key e) = Some onReturn) as Hreturn by (by rewrite Hk).
    destruct (decide (x = stringLength line)) as [Hend|Hin].
    + rewrite (after_Done e _ _ _
                 (eq_trans (onKey_named e _ _ Hs Hreturn)
                    (f_equal _ (onReturn_end_multiline _ _ _ _ _ _ Hline Hx
                                  Hend eq_refl)))).
      set (ls1 := (take (S j) ls ++ [""] ++ drop (S j) ls)%list).
      assert (ls1 !! j = Some line) as Hprev.
      { unfold ls1. rewrite lookup_app_l by (rewrite length_take; lia).
        by rewrite lookup_take_lt by lia. }
      assert (ls1 !! S j = Some "") as Hcur.
      { unfold ls1. rewrite lookup_app_r by (rewrite length_take; lia).
        by rewrite length_take, Nat.min_l, Nat.sub_diag by lia. }
      rewrite (after_Done b _ _ _
                 (eq_trans (onKey_named b _ _ Hsb Hnamed)
                    (f_equal _ (onBackspace_join _ _ _ _ _ _ Hcur
                                  ltac:(done) j line eq_refl eq_refl Hprev)))).
      rewrite string_app_nil_r, <- Hend. unfold editing. do 3 f_equal.
      unfold ls1. rewrite take_app_le, take_take, Nat.min_l
        by (rewrite ?length_take; lia).
      rewrite drop_app_ge by (rewrite length_take; lia).
      rewrite length_take, Nat.min_l by lia.
      replace (S (S j) - S j)%nat with 1%nat by lia. simpl drop.
      by apply take_drop_middle.
    + rewrite (after_Done e _ _ _
                 (eq_trans (onKey_named e _ _ Hs Hreturn)
                    (f_equal _ (onReturn_inside_multiline _ _ _ _ _ _ Hline Hx
                                  ltac:(lia) eq_refl)))).
      set (ls1 := (take j ls
                   ++ [firstChars (Z.to_nat x) line; fromChar (Z.to_nat x) line]
                   ++ drop (S j) ls)%list).
      assert (ls1 !! j = Some (firstChars (Z.to_nat x) line)) as Hprev.
      { unfold ls1. rewrite lookup_app_r by (rewrite length_take; lia).
        by rewrite length_take, Nat.min_l, Nat.sub_diag by lia. }
      assert (ls1 !! S j = Some (fromChar (Z.to_nat x) line)) as Hcur.
      { unfold ls1. rewrite lookup_app_r by (rewrite length_take; lia).
        by rewrite length_take, Nat.min_l, Nat.sub_succ_l, Nat.sub_diag by lia. }
      assert (0 ≤ 0 ≤ stringLength (fromChar (Z.to_nat x) line)) as Hx0.
      { pose proof (stringLength_nonneg (fromChar (Z.to_nat x) line)). lia. }
      rewrite (after_Done b _ _ _
                 (eq_trans (onKey_named b _ _ Hsb Hnamed)
                    (f_equal _ (onBackspace_join _ _ _ _ _ _ Hcur Hx0
                                  j _ eq_refl eq_refl Hprev)))).
      rewrite firstChars_fromChar.
      rewrite stringLength_firstChars, Z.min_l by (unfold stringLength in *; lia).
      rewrite Z2Nat.id by lia. unfold editing. do 3 f_equal.
      unfold ls1. rewrite take_app_length' by (rewrite length_take; lia).
      rewrite drop_app_ge by (rewrite length_take; lia).
      rewrite length_take, Nat.min_l by lia.
      replace (S (S j) - j)%nat with 2%nat by lia. simpl drop.
      by apply take_drop_middle.
Qed.

End TextboxKeys.

(** ** The properties at work *)

Section ComponentRuns.
Import Component ComponentViews Scenario Examples.

Lemma built_run : run building start = Some built.
Proof. vm_compute. reflexivity. Qed.

Lemma built_inv : closed built ∧ componentsSorted built.
Proof.
  apply (run_inv building start built built_run).
  split; [apply initialWorld_closed | apply initialWorld_sorted];
    apply start_initial.
Qed.


Lemma X2_witness :
  ∃ w' r,
    createComponent (ObjComponent 0%nat) textboxOptions textboxExtension built
      = Some (w', r) ∧
    childrenOf w' (ObjComponent 0%nat)
      = childrenOf built (ObjComponent 0%nat) ++ [r] ∧
    (∀ o, o ≠ ObjComponent 0%nat →
       childrenOf w' o =
         if decide (o = ObjComponent r) then [] else childrenOf built o) ∧
    componentsOf w' 0%nat ≡ₚ componentsOf built 0%nat ++ [r] ∧
    (∀ j, j ≠ 0%nat → componentsOf w' j = componentsOf built j).
Proof.
  eexists _, _. split; [vm_compute; reflexivity|].
  apply (X2_create_adds_one_component (ObjComponent 0%nat) textboxOptions
           textboxExtension);
    vm_compute; reflexivity.
Defined.

Lemma X3_witness :
  ∃ w' r,
    createComponent (ObjInstance 0%nat) textboxOptions textboxExtension built
      = Some (w', r) ∧
    ∃ before after,
      componentsOf built 0%nat = before ++ after ∧
      componentsOf w' 0%nat = before ++ r :: after ∧
      (∀ a, a ∈ before → priorityOf w' a ≤ priorityOf w' r) ∧
      (∀ b, b ∈ after → priorityOf w' r < priorityOf w' b).
Proof.
  eexists _, _. split; [vm_compute; reflexivity|].
  apply (X3_new_component_goes_after_its_equals (ObjInstance 0%nat)
           textboxOptions textboxExtension built);
    [apply built_inv | apply built_inv | vm_compute; reflexivity
    | vm_compute; reflexivity].
Defined.

Lemma X4_witness :
  ∃ w',
    removeComponent 2 0%nat built = Some w' ∧
    componentId w' = componentId built ∧
    (∀ x c, store built !! x = Some c →
       ∃ c', store w' !! x = Some c' ∧
         id c' = id c ∧ name c' = name c ∧ instance c' = instance c ∧
         parent c' = parent c ∧ drawPriority c' = drawPriority c ∧
         interactive c' = interactive c) ∧
    (∀ i, componentsOf w' i `sublist_of` componentsOf built i) ∧
    (∀ o, childrenOf w' o `sublist_of` childrenOf built o).
Proof.
  eexists. split; [vm_compute; reflexivity|].
  apply (X4_remove_only_takes_out 2 0%nat built). vm_compute. reflexivity.
Defined.

Lemma X5_witness :
  ∃ w' c,
    removeComponent 2 0%nat built = Some w' ∧
    store built !! 0%nat = Some c ∧
    (0%nat ∉ componentsOf w' (instance c)) ∧
    (0%nat ∉ childrenOf w' (parent c)) ∧
    ∀ k kc, k ∈ children c → store built !! k = Some kc →
      k ∉ componentsOf w' (instance kc).
Proof.
  eexists _, _. split; [vm_compute; reflexivity|].
  split; [vm_compute; reflexivity|].
  apply (X5_remove_unlinks_component_and_children 2 0%nat built);
    vm_compute; reflexivity.
Defined.

Lemma X6_witness :
  ∃ w' r,
    createComponent (ObjInstance 0%nat) textboxOptions textboxExtension built
      = Some (w', r) ∧
    ∃ w'',
      removeComponent 1 r w' = Some w'' ∧
      (∀ i, componentsOf w'' i = componentsOf built i) ∧
      (∀ o, childrenOf w'' o = childrenOf built o) ∧
      componentId w'' = componentId built + 1.
Proof.
  eexists _, _. split; [vm_compute; reflexivity|].
  apply (X6_create_then_remove_restores_the_lists (ObjInstance 0%nat)
           textboxOptions textboxExtension built);
    [apply built_inv | apply built_inv | | by repeat split
    | vm_compute; reflexivity].
  intros k Hk.
  assert (childrenOf built (ObjInstance 0%nat) = [0; 1]%nat) as E
    by (vm_compute; reflexivity).
  rewrite E in Hk.
  apply elem_of_cons in Hk as [->|Hk]; [eexists; vm_compute; reflexivity|].
  apply list_elem_of_singleton in Hk as ->. eexists. vm_compute. reflexivity.
Defined.

End ComponentRuns.

Section StylerRuns.
Import Styler Examples.
Local Open Scope string_scope.

Lemma X7_witness :
  getCurrentStyler button pressed None !! "background" = Some (VStr "yellow") ∧
  getCurrentStyler button pressed None !! "foreground" = Some (VStr "blue").
Proof.
  pose proof (X7_active_over_focused_over_own button pressed None "background")
    as Hb.
  pose proof (X7_active_over_focused_over_own button pressed None "foreground")
    as Hf.
  cbv zeta in Hb, Hf. destruct Hb as (Hb & _). destruct Hf as (_ & Hf & _).
  split.
  - rewrite Hb; [vm_compute; reflexivity | reflexivity
                | eexists; vm_compute; reflexivity].
  - rewrite Hf; [vm_compute; reflexivity | reflexivity | vm_compute; reflexivity
                | eexists; vm_compute; reflexivity].
Defined.

Lemma X9_witness : getCurrentStyler button elsewhere None = styler button.
Proof.
  apply X9_unselected_component_keeps_its_styler. reflexivity.
Defined.

End StylerRuns.

Section DrawRuns.
Import Draw DrawViews BoxObj Scenario Examples.
Local Open Scope string_scope.



Lemma X10_witness :
  let rect := rectangle (text_super movedText) in
  queued (updateMovement 0%nat movedHeap) 1%nat 0 2 ↔
  queued movedHeap 1%nat 0 2 ∨
  (1%nat = 0%nat ∧ 0 = row rect ∧ inColumns rect 2) ∨
  (is_Some (movedHeap !! 1%nat) ∧ 1%nat ∈ objectsUnder (text_super movedText) ∧
   fitsInIntersection 2 0
     (rectangleIntersection rect (mkRectangle 0 0 2 1)) = false ∧
   (0 = row (mkRectangle 0 0 2 1) ∧ inColumns (mkRectangle 0 0 2 1) 2 ∨
    0 = row rect ∧ inColumns rect 2)).
Proof.
  apply (X10_movement_queues_these_cells_only movedHeap 0%nat movedText
           (mkRectangle 0 0 2 1) 1%nat 0 2); reflexivity.
Defined.

Lemma X11_witness : updateMovement 0%nat shrunkHeap = shrunkHeap.
Proof.
  apply (proj2 (X11_movement_changes_rerender_sets_only shrunkHeap 0%nat) shrunk);
    [reflexivity | right; reflexivity].
Defined.

Lemma X12_witness :
  (update DrawObject_update asciiWidth 0%nat shrunkHeap = None ↔
   rendered (text_super shrunk) = true ∧ previousValue shrunk = None ∧
   value shrunk ≠ EmptyString) ∧
  ∀ h', update DrawObject_update asciiWidth 0%nat shrunkHeap = Some h' →
    (∃ t', h' !! 0%nat = Some (Text t') ∧
       value t' = value shrunk ∧ previousValue t' = Some (value shrunk) ∧
       (previousValue shrunk ≠ Some (value shrunk) →
        rectangle (text_super t') =
          mkRectangle (column (rectangle (text_super shrunk)))
            (row (rectangle (text_super shrunk)))
            (asciiWidth (value shrunk)) 1)) ∧
    (previousValue shrunk = Some (value shrunk) →
     h' = DrawObject_update 0%nat shrunkHeap) ∧
    (∀ id, id ≠ 0%nat → h' !! id = DrawObject_update 0%nat shrunkHeap !! id).
Proof.
  apply (X12_update_result DrawObject_update asciiWidth 0%nat shrunkHeap shrunk).
  vm_compute. reflexivity.
Defined.

Lemma X13_witness :
  ∃ h', update DrawObject_update asciiWidth 0%nat shrunkHeap = Some h' ∧
    ∀ r c,
      queued h' 0%nat r c ↔
      queued (DrawObject_update 0%nat shrunkHeap) 0%nat r c ∨
      (r = row (rectangle (text_super shrunk)) ∧
       ∃ i : nat, (i < String.length (value shrunk))%nat ∧
         c = column (rectangle (text_super shrunk)) + Z.of_nat i ∧
         charAt (value shrunk) i ≠ charAt "ab" i).
Proof.
  apply (X13_update_queues_the_changed_indices DrawObject_update asciiWidth
           0%nat shrunkHeap shrunk "ab");
    [vm_compute; reflexivity | reflexivity | reflexivity | done].
Defined.

Lemma X14_witness :
  ∃ cv' t',
    render screen halfCovered = Some (cv', t') ∧
    (canvasSize cv' = canvasSize screen ∧
     (t' = halfCovered ∨ t' = clearTextOmit (textRow halfCovered) halfCovered)) ∧
    (¬ (0 = textRow halfCovered ∧ 0 ≤ 0 < rows (canvasSize screen) ∧
        0 ≤ 3 < columns (canvasSize screen) ∧ (3 ∉ omitted halfCovered) ∧
        ∃ i : nat, (i < String.length (value halfCovered))%nat ∧
          3 = textColumn halfCovered i) →
     cellAt cv' 0 3 = cellAt screen 0 3 ∧
     (inQueue cv' 0 3 ↔ inQueue screen 0 3)).
Proof.
  eexists _, _. split; [vm_compute; reflexivity|].
  eapply (X14_render_touches_its_cells_only screen _ halfCovered _ 0 3).
  vm_compute. reflexivity.
Defined.

Lemma X16_witness :
  ∃ cv' t',
    Draw.rerender screen queuedText = Some (cv', t') ∧
    cellAt cv' 0 3 = cellAt screen 0 3 ∧
    (inQueue cv' 0 3 ↔ inQueue screen 0 3).
Proof.
  eexists _, _. split; [vm_compute; reflexivity|].
  eapply (X16_rerender_touches_its_queued_cells_only screen _ queuedText _ 0 3).
  - vm_compute. reflexivity.
  - intros (_ & _ & _ & _ & _ & H). apply H. vm_compute. set_solver.
Defined.

Lemma X17_witness :
  ∃ cv' t',
    Draw.rerender screen queuedText = Some (cv', t') ∧
    cellAt cv' 0 2 = Some "h" ∧ inQueue cv' 0 2.
Proof.
  eexists _, _. split; [vm_compute; reflexivity|].
  eapply (X17_rerender_paints_every_queued_cell screen _ queuedText _ 2).
  - vm_compute. reflexivity.
  - reflexivity.
  - unfold textRow. simpl. lia.
  - vm_compute. set_solver.
  - simpl. lia.
  - unfold inColumns. simpl. lia.
  - vm_compute. set_solver.
Defined.

Lemma X18_witness :
  ∃ cv' t',
    Draw.rerender screen queuedText = Some (cv', t') ∧
    columnsOf (rerenderCells (text_super t')) (textRow queuedText) = ∅ ∧
    columnsOf (omitCells (text_super t')) (textRow queuedText) = ∅.
Proof.
  eexists _, _. split; [vm_compute; reflexivity|].
  eapply (X18_rerender_empties_both_sets screen _ queuedText _).
  - vm_compute. reflexivity.
  - eexists. vm_compute. reflexivity.
  - reflexivity.
  - unfold textRow. simpl. lia.
Defined.

Lemma X19_witness :
  cellAt (BoxObj.rerender screen viewedBox).1 0 5 = cellAt screen 0 5 ∧
  (inQueue (BoxObj.rerender screen viewedBox).1 0 5 ↔ inQueue screen 0 5).
Proof.
  apply (X19_box_rerender_touches_its_queued_cells_only screen viewedBox 0 5).
  intros (_ & H & _). revert H. unfold columnRange. simpl. lia.
Defined.

Lemma X20_witness :
  cellAt (BoxObj.rerender screen viewedBox).1 0 2 = Some "#" ∧
  inQueue (BoxObj.rerender screen viewedBox).1 0 2.
Proof.
  apply (X20_box_rerender_paints_every_queued_cell screen viewedBox 0 2).
  - unfold rowRange. simpl. lia.
  - unfold columnRange. simpl. lia.
  - vm_compute. set_solver.
  - vm_compute. set_solver.
  - reflexivity.
Defined.

End DrawRuns.

Section TextboxRuns.
Import Textbox Examples.
Local Open Scope string_scope.
Local Open Scope Z_scope.

Lemma draft_wellFormed : wellFormed draft.
Proof.
  apply (wellFormed_editing _ _ _ _ _ "world"); [done|].
  unfold stringLength. simpl. lia.
Qed.

Lemma memo_wellFormed : wellFormed memo.
Proof.
  apply (wellFormed_editing _ _ _ _ _ "hello"); [done|].
  unfold stringLength. simpl. lia.
Qed.

Lemma draftAtStart_wellFormed : wellFormed draftAtStart.
Proof.
  apply (wellFormed_editing _ _ _ _ _ "world"); [done|].
  unfold stringLength. simpl. lia.
Qed.

Lemma X22_witness :
  let st :=
    foldl after (createTextbox (Some (ofLines ["hello"; "world"] ∅)) true)
      strokes in
  wellFormed st ∧
  ∀ e, onKey e st = Ignored ∨
       ∃ st', onKey e st = Emitted st' (elements (value st)) ∧ wellFormed st'.
Proof.
  apply (X22_keys_keep_the_cursor_on_the_text
           (Some (ofLines ["hello"; "world"] ∅)) true strokes).
  intros a [= <-]. apply ofLines_dense.
Defined.

Lemma X23_witness :
  stringOf (after draft (typed "X")) =
    firstChars (cursor draft) (stringOf draft) ++ "X"
    ++ fromChar (cursor draft) (stringOf draft) ∧
  cursor (after draft (typed "X")) = S (cursor draft).
Proof.
  apply (X23_typing_inserts_at_the_cursor draft (typed "X"));
    [apply draft_wellFormed | done | done | done | done].
Defined.

Lemma X24_witness :
  stringOf (after draftAtStart (typed "backspace")) =
    firstChars (cursor draftAtStart - 1) (stringOf draftAtStart)
    ++ fromChar (cursor draftAtStart) (stringOf draftAtStart) ∧
  cursor (after draftAtStart (typed "backspace")) = (cursor draftAtStart - 1)%nat.
Proof.
  apply (X24_backspace_removes_before_the_cursor draftAtStart (typed "backspace"));
    [apply draftAtStart_wellFormed | done | done].
Defined.

Lemma X25_witness :
  stringOf (after draft (typed "delete")) =
    firstChars (cursor draft) (stringOf draft)
    ++ fromChar (S (cursor draft)) (stringOf draft) ∧
  cursor (after draft (typed "delete")) = cursor draft.
Proof.
  apply (X25_delete_removes_at_the_cursor draft (typed "delete"));
    [apply draft_wellFormed | done | done].
Defined.

Lemma X26_witness :
  (stringOf (after draft (typed "return")) =
     firstChars (cursor draft) (stringOf draft) ++ newline
     ++ fromChar (cursor draft) (stringOf draft) ∧
   cursor (after draft (typed "return")) = S (cursor draft)) ∧
  lengthOf (value (after memo (typed "return"))) = lengthOf (value memo) ∧
  get (value (after memo (typed "return"))) 0 = Some "he".
Proof.
  split.
  - apply (X26_return_breaks_or_cuts_the_line draft (typed "return"));
      [apply draft_wellFormed | done | done | done].
  - destruct (X26_return_breaks_or_cuts_the_line memo (typed "return"))
      as [_ Hsingle]; [apply memo_wellFormed | done | done |].
    destruct (Hsingle eq_refl) as [Hlen Hlines]. split; [exact Hlen|].
    apply (Hlines 0 "hello"). done.
Defined.

Lemma X27_witness :
  ∃ st', onKey (typed "up") draft = Emitted st' (elements (value draft)) ∧
    value st' = value draft ∧ multiline st' = multiline draft.
Proof.
  apply (X27_moving_keys_leave_the_value draft (typed "up"));
    [apply draft_wellFormed | done | apply list_elem_of_here].
Defined.

Lemma X28_witness :
  after (after draft (typed "return")) (typed "backspace") = draft.
Proof.
  apply (X28_backspace_undoes_typing_and_return draft (typed "return")
           (typed "backspace"));
    [apply draft_wellFormed | done | by right | done | done].
Defined.

End TextboxRuns.
